(** * Vorticity / stream-function relaxation around a submerged beam

    A shallow embedding of [OpenMP/beam-parallel-for-NBS.cpp]: the grid
    constants, the two global fields [u] and [w], the Reynolds
    configuration, the domain-edge initialisation, the obstacle-surface
    enforcement, the two relaxation sweeps, the convergence loop and the
    run harness.

    Conventions of the embedding.
    - A C++ [double] is a binary64 value of [PrimFloat.float]; every
      arithmetic operation is the IEEE-754 one, evaluated in the order the
      C++ expression is parsed (no fused multiply-add, no excess precision).
    - A C++ [int] is a [Z]. Loop indices stay inside the grid, [iter] is
      bounded by [max_iterations] and [count] by 8, so no [int] operation
      of the program wraps.
    - The global arrays [double u[Nxmax+1][Nymax+1]] and [w] are finite maps
      from index pairs to doubles; an entry that was never written reads as
      [0.0], the value the zero-initialised globals hold.
    - The [#pragma omp parallel for] loops are run in their sequential
      order (the program compiled without OpenMP, or run on one thread).
    - Console output is not modelled; a call of an export function is
      recorded in the [exports] log of the state. *)

From Stdlib Require Import ZArith Floats Bool.
From stdpp Require Import base tactics option list list_numbers gmap.

Set Warnings "-inexact-float".
Open Scope Z_scope.

(** ** Domain parameters *)

Definition Nxmax : Z := 160.
Definition Nymax : Z := 30.
Definition IL : Z := 10.
Definition H : Z := 8.
Definition T : Z := 8.
Definition h : float := 1.0%float.
Definition V0 : float := 1.0%float.
Definition tol : float := 1e-8%float.

(** Conversion of an [int] to [double], as in [j * V0] or [smooth_w / count]. *)
Definition double_of_int (n : Z) : float :=
  if n <? 0 then (- PrimFloat.of_uint63 (Uint63.of_Z (- n)))%float
  else PrimFloat.of_uint63 (Uint63.of_Z n).

(** [std::max(a, b)] is [(a < b) ? b : a]. *)
Definition fmax (a b : float) : float := if (a <? b)%float then b else a.

(** ** Program state *)

(** The files the export functions were asked to write, each tagged with the
    Reynolds number of its name. *)
Inductive data_file : Type :=
  | streamfunction_dat (reynolds : float)
  | vorticity_dat (reynolds : float)
  | velocity_field_dat (reynolds : float).

(** The globals of the translation unit, the two function-local [static]
    variables of [relax_until_converge], and the export log. *)
Record state : Type := mkState {
  u : gmap (Z * Z) float;
  w : gmap (Z * Z) float;
  omega : float;
  nu : float;
  R_target : float;
  R : float;
  last_w_error : float;
  stagnant_count : Z;
  exports : list data_file
}.

(** State of the process when [main] starts. *)
Definition initial_state : state :=
  mkState ∅ ∅ 0%float 0%float 0%float 0%float (-1.0)%float 0 [].

(** Array read [a[i][j]]. *)
Definition rd (a : gmap (Z * Z) float) (i j : Z) : float :=
  default 0%float (a !! (i, j)).

(** Assignments [u[i][j] = v] and [w[i][j] = v]. *)
Definition set_u (s : state) (i j : Z) (v : float) : state :=
  mkState (<[(i, j) := v]> (u s)) (w s) (omega s) (nu s) (R_target s) (R s)
          (last_w_error s) (stagnant_count s) (exports s).

Definition set_w (s : state) (i j : Z) (v : float) : state :=
  mkState (u s) (<[(i, j) := v]> (w s)) (omega s) (nu s) (R_target s) (R s)
          (last_w_error s) (stagnant_count s) (exports s).

(** [for (int i = lo; i <= hi; ++i) body(i)] on an accumulator. *)
Definition for_range {A : Type} (lo hi : Z) (body : Z → A → A) (a : A) : A :=
  foldl (λ a i, body i a) a (seqZ lo (hi - lo + 1)).

(** Loops are unfolded by the lemmas of the section on counted loops and by
    evaluation only. *)
Opaque for_range.

(** ** Reynolds configuration *)

(** The step table of [configure_reynolds]. *)
Definition omega_table (r : float) : float :=
  if (r <=? 0.5)%float then 0.1%float
  else if (r <=? 1.0)%float then 0.08%float
  else if (r <=? 2.0)%float then 0.04%float
  else if (r <=? 5.0)%float then 0.012%float
  else if (r <=? 10.0)%float then 0.008%float
  else 0.005%float.

Definition configure_reynolds (reynolds_target : float) (s : state) : state :=
  mkState (u s) (w s)
          (omega_table reynolds_target)
          (V0 * h / reynolds_target)%float
          reynolds_target
          (R s) (last_w_error s) (stagnant_count s) (exports s).

(** ** Obstacle membership *)

Definition is_inside_beam (i j : Z) : bool :=
  (IL <=? i) && (i <=? IL + T) && (0 <=? j) && (j <=? H).

(** ** Domain-edge initialisation *)

Definition borders (s : state) : state :=
  (* stream function and vorticity everywhere *)
  let s := for_range 0 Nxmax (λ i, for_range 0 Nymax (λ j s,
             if is_inside_beam i j then
               set_w (set_u s i j 0%float) i j 0%float
             else
               set_u (set_w s i j 0%float) i j (double_of_int j * V0)%float)) s in
  (* free surface *)
  let s := for_range 0 Nxmax (λ i s,
             if negb (is_inside_beam i Nymax) then
               let s := set_u s i Nymax (rd (u s) i (Nymax - 1) + V0 * h)%float in
               if 1 <? Nymax then set_w s i (Nymax - 1) 0%float else s
             else s) s in
  (* inlet *)
  let s := for_range 0 Nymax (λ j s,
             if negb (is_inside_beam 0 j) && negb (is_inside_beam 1 j) then
               set_w (set_u s 1 j (rd (u s) 0 j)) 0 j 0%float
             else s) s in
  (* centre line *)
  let s := for_range 0 Nxmax (λ i s,
             if negb (is_inside_beam i 0) then
               set_w (set_u s i 0 0%float) i 0 0%float
             else s) s in
  (* outlet *)
  for_range 1 (Nymax - 1) (λ j s,
    if negb (is_inside_beam Nxmax j) && negb (is_inside_beam (Nxmax - 1) j) then
      let s := set_w s Nxmax j (rd (w s) (Nxmax - 1) j) in
      set_u s Nxmax j (rd (u s) (Nxmax - 1) j)
    else s) s.

(** ** Obstacle-surface enforcement *)

(** The wall-vorticity formula [-2.0 * x / (h * h)]. *)
Definition wall_vorticity (x : float) : float := ((-2.0) * x / (h * h))%float.

(** PASO 1: [u = 0] and [w = 0] on the whole beam. A loop condition
    [i <= a && i <= b] is the upper bound [Z.min a b]. *)
Definition beam_zero (s : state) : state :=
  for_range IL (Z.min (IL + T) Nxmax) (λ i,
    for_range 0 (Z.min H Nymax) (λ j s,
      set_w (set_u s i j 0%float) i j 0%float)) s.

(** PASO 2: no-slip vorticity on the front, back and top faces. *)
Definition beam_walls (s : state) : state :=
  let s := if 0 <? IL then
             for_range 1 (Z.min H (Nymax - 1)) (λ j s,
               set_w s (IL - 1) j (wall_vorticity (rd (u s) (IL - 2) j))) s
           else s in
  let s := if IL + T + 1 <=? Nxmax then
             for_range 1 (Z.min H (Nymax - 1)) (λ j s,
               set_w s (IL + T + 1) j (wall_vorticity (rd (u s) (IL + T + 2) j))) s
           else s in
  if H + 1 <=? Nymax then
    for_range IL (Z.min (IL + T) Nxmax) (λ i s,
      set_w s i (H + 1) (wall_vorticity (rd (u s) i (H + 2)))) s
  else s.

(** The blend of the two single-face estimates used at a top corner. *)
Definition corner_blend (r_target w_from_vertical w_from_horizontal : float) : float :=
  if (5.0 <=? r_target)%float then
    if (abs w_from_vertical <? abs w_from_horizontal)%float then
      (0.7 * w_from_vertical + 0.3 * w_from_horizontal)%float
    else
      (0.3 * w_from_vertical + 0.7 * w_from_horizontal)%float
  else
    (0.5 * (w_from_vertical + w_from_horizontal))%float.

(** PASO 3: the two top corners. *)
Definition beam_corners (s : state) : state :=
  let s := if (0 <? IL) && (H + 1 <=? Nymax) then
             let w_from_vertical := wall_vorticity (rd (u s) (IL - 2) (H + 1)) in
             let w_from_horizontal := wall_vorticity (rd (u s) (IL - 1) (H + 2)) in
             set_w s (IL - 1) (H + 1)
                   (corner_blend (R_target s) w_from_vertical w_from_horizontal)
           else s in
  if (IL + T + 1 <=? Nxmax) && (H + 1 <=? Nymax) then
    let w_from_vertical := wall_vorticity (rd (u s) (IL + T + 2) (H + 1)) in
    let w_from_horizontal := wall_vorticity (rd (u s) (IL + T + 1) (H + 2)) in
    set_w s (IL + T + 1) (H + 1)
          (corner_blend (R_target s) w_from_vertical w_from_horizontal)
  else s.

(** The inner double loop of PASO 4: sum and number of the neighbours of
    [(ii, jj)] that are on the grid and outside the beam. *)
Definition neighbour_sum (wf : gmap (Z * Z) float) (ii jj : Z) : float * Z :=
  for_range (-1) 1 (λ ddi,
    for_range (-1) 1 (λ ddj (acc : float * Z),
      let iii := ii + ddi in
      let jjj := jj + ddj in
      if (0 <=? iii) && (iii <=? Nxmax) && (0 <=? jjj) && (jjj <=? Nymax)
         && negb (is_inside_beam iii jjj) && negb ((ddi =? 0) && (ddj =? 0))
      then ((acc.1 + rd wf iii jjj)%float, acc.2 + 1)
      else acc)) (0%float, 0).

(** The body of the outer double loop of PASO 4 at the node [(ii, jj)]. *)
Definition smooth_node (ii jj : Z) (s : state) : state :=
  if (0 <? ii) && (ii <? Nxmax) && (0 <? jj) && (jj <? Nymax)
     && negb (is_inside_beam ii jj) then
    if (2.0 <? abs (rd (w s) ii jj))%float then
      let '(smooth_w, count) := neighbour_sum (w s) ii jj in
      if 0 <? count then
        set_w s ii jj (0.6 * rd (w s) ii jj
                       + 0.4 * (smooth_w / double_of_int count))%float
      else s
    else s
  else s.

(** PASO 4: smoothing for high Reynolds numbers. *)
Definition beam_smoothing (s : state) : state :=
  if (5.0 <=? R_target s)%float then
    if (1 <? IL) && (H + 2 <=? Nymax) then
      for_range (-1) 1 (λ di,
        for_range (-1) 1 (λ dj,
          smooth_node (IL - 1 + di) (H + 1 + dj))) s
    else s
  else s.

Definition beam_boundaries (s : state) : state :=
  beam_smoothing (beam_corners (beam_walls (beam_zero s))).

(** ** Relaxation sweeps *)

(** Loop body of [relax_stream_function] at the node [(i, j)]. *)
Definition relax_stream_node (i j : Z) (s : state) : state :=
  if is_inside_beam i j then s
  else
    let old_u := rd (u s) i j in
    let new_u := (0.25 * (rd (u s) (i + 1) j + rd (u s) (i - 1) j
                          + rd (u s) i (j + 1) + rd (u s) i (j - 1)
                          + h * h * rd (w s) i j))%float in
    let r1 := (omega s * (new_u - old_u))%float in
    set_u s i j (rd (u s) i j + r1)%float.

Definition relax_stream_function (s : state) : state :=
  for_range 1 (Nxmax - 1) (λ i,
    for_range 1 (Nymax - 1) (λ j, relax_stream_node i j)) s.

(** The stabilisation factor of the convective term. *)
Definition stability_factor (r_target : float) : float :=
  if (5.0 <=? r_target)%float then 0.4%float
  else if (2.0 <? r_target)%float then 0.7%float
  else if (1.5 <? r_target)%float then 0.8%float
  else 1.0%float.

(** Loop body of [relax_vorticity] at the node [(i, j)]. *)
Definition relax_vorticity_node (i j : Z) (s : state) : state :=
  if is_inside_beam i j then s
  else
    let old_w := rd (w s) i j in
    if (i =? 1) || (i =? Nxmax - 1) || (j =? 1) || (j =? Nymax - 1) then
      let a1 := (rd (w s) (i + 1) j + rd (w s) (i - 1) j
                 + rd (w s) i (j + 1) + rd (w s) i (j - 1))%float in
      let new_w := (0.25 * a1)%float in
      let r2 := (omega s * (new_w - old_w))%float in
      set_w s i j (rd (w s) i j + r2)%float
    else
      let a1 := (rd (w s) (i + 1) j + rd (w s) (i - 1) j
                 + rd (w s) i (j + 1) + rd (w s) i (j - 1))%float in
      let a2 := ((rd (u s) i (j + 1) - rd (u s) i (j - 1))
                 * (rd (w s) (i + 1) j - rd (w s) (i - 1) j))%float in
      let a3 := ((rd (u s) (i + 1) j - rd (u s) (i - 1) j)
                 * (rd (w s) i (j + 1) - rd (w s) i (j - 1)))%float in
      let new_w := (0.25 * (a1 - stability_factor (R_target s) * (R s / 4.0)
                                 * (a2 - a3)))%float in
      let r2 := (omega s * (new_w - old_w))%float in
      set_w s i j (rd (w s) i j + r2)%float.

Definition relax_vorticity (s : state) : state :=
  for_range 1 (Nxmax - 1) (λ i,
    for_range 1 (Nymax - 1) (λ j, relax_vorticity_node i j)) s.

(** ** Convergence loop *)

(** The copy loop filling the local array [u_old] (or [w_old]) from [a]. *)
Definition snapshot (a : gmap (Z * Z) float) : gmap (Z * Z) float :=
  for_range 0 Nxmax (λ i,
    for_range 0 Nymax (λ j (old : gmap (Z * Z) float),
      <[(i, j) := rd a i j]> old)) ∅.

(** The reduction loop: largest absolute change of each field over the
    interior nodes outside the beam, starting from [0.0]. *)
Definition max_differences (u_old w_old : gmap (Z * Z) float) (s : state)
  : float * float :=
  for_range 1 (Nxmax - 1) (λ i,
    for_range 1 (Nymax - 1) (λ j (acc : float * float),
      if is_inside_beam i j then acc
      else (fmax acc.1 (abs (rd (u s) i j - rd u_old i j)),
            fmax acc.2 (abs (rd (w s) i j - rd w_old i j))))) (0%float, 0%float).

(** One pass through the body of the [do ... while] loop, up to and
    including the reduction: the new state and the two change norms. *)
Definition iteration (s : state) : state * float * float :=
  let s := beam_boundaries s in
  let u_old := snapshot (u s) in
  let w_old := snapshot (w s) in
  let s := relax_stream_function s in
  let s := relax_vorticity s in
  let s := beam_boundaries s in
  let '(max_diff_u, max_diff_w) := max_differences u_old w_old s in
  (s, max_diff_u, max_diff_w).

Definition effective_tolerance (r_target : float) : float :=
  if (5.0 <=? r_target)%float then (tol * 200)%float
  else if (2.0 <? r_target)%float then (tol * 50)%float
  else if (1.5 <? r_target)%float then (tol * 10)%float
  else tol.

Definition divergence_threshold (r_target : float) : float :=
  if (5.0 <=? r_target)%float then 50.0%float else 1000.0%float.

Definition patience (r_target : float) : Z :=
  if (5.0 <=? r_target)%float then 8000 else 3000.

(** The divergence test of the loop. *)
Definition diverging (r_target max_diff_u max_diff_w : float) : bool :=
  is_nan max_diff_u || is_nan max_diff_w
  || (divergence_threshold r_target <? max_diff_u)%float
  || (divergence_threshold r_target <? max_diff_w)%float.

(** The partial-convergence block: updates the two [static] variables and
    tells whether the loop is left. *)
Definition stagnation_check (max_diff_w : float) (s : state) : state * bool :=
  let count :=
    if (abs (max_diff_w - last_w_error s) <? 1e-15)%float
    then stagnant_count s + 1 else 0 in
  (mkState (u s) (w s) (omega s) (nu s) (R_target s) (R s)
           max_diff_w count (exports s),
   patience (R_target s) <? count).

(** How the [do ... while] loop is left. *)
Inductive loop_exit : Type :=
  | Return_false (s : state)
  | Loop_done (iter : Z) (max_diff_u max_diff_w : float) (s : state).

(** The [do ... while (iter < max_iterations)] loop, entered with the
    counter [iter]. [fuel] bounds the number of passes; [None] means the
    fuel ran out. *)
Fixpoint relax_loop (fuel : nat) (max_iterations : Z) (effective_tol : float)
    (iter : Z) (s : state) : option loop_exit :=
  match fuel with
  | O => None
  | S fuel =>
    let '(s, max_diff_u, max_diff_w) := iteration s in
    let iter := iter + 1 in
    if diverging (R_target s) max_diff_u max_diff_w then
      Some (Return_false s)
    else if (max_diff_u <? effective_tol)%float
            && (max_diff_w <? effective_tol)%float then
      Some (Loop_done iter max_diff_u max_diff_w s)
    else
      let '(s, stop) :=
        if (max_diff_u <? effective_tol)%float && (50000 <? iter)
        then stagnation_check max_diff_w s else (s, false) in
      if stop then Some (Loop_done iter max_diff_u max_diff_w s)
      else if iter <? max_iterations then
        relax_loop fuel max_iterations effective_tol iter s
      else Some (Loop_done iter max_diff_u max_diff_w s)
  end.

(** The prologue of [relax_until_converge]: the mesh Reynolds number. *)
Definition mesh_reynolds (s : state) : state :=
  mkState (u s) (w s) (omega s) (nu s) (R_target s) (V0 * h / nu s)%float
          (last_w_error s) (stagnant_count s) (exports s).

(** What [relax_until_converge] returns once the loop is left: the code
    after the loop, or the [return false] taken inside it. *)
Definition loop_result (max_iterations : Z) (effective_tol : float)
    (r : loop_exit) : bool * state :=
  match r with
  | Return_false s => (false, s)
  | Loop_done iter max_diff_u max_diff_w s =>
    if max_iterations <=? iter then
      let acceptance_threshold :=
        if (5.0 <=? R_target s)%float then (effective_tol * 20000)%float
        else (effective_tol * 1000)%float in
      if (max_diff_u <? acceptance_threshold)%float then (true, s)
      else (false, s)
    else (true, s)
  end.

Definition relax_until_converge (max_iterations : Z) (s : state)
  : option (bool * state) :=
  let s := mesh_reynolds s in
  let effective_tol := effective_tolerance (R_target s) in
  loop_result max_iterations effective_tol
    <$> relax_loop (S (Z.to_nat max_iterations)) max_iterations
                   effective_tol 0 s.

(** ** Run harness *)

Definition normalize (s : state) : state :=
  for_range 0 Nxmax (λ i,
    for_range 0 Nymax (λ j s,
      set_u s i j (rd (u s) i j / (V0 * h))%float)) s.

Definition export (f : data_file) (s : state) : state :=
  mkState (u s) (w s) (omega s) (nu s) (R_target s) (R s)
          (last_w_error s) (stagnant_count s) (exports s ++ [f]).

Definition export_streamfunction (reynolds : float) : state → state :=
  export (streamfunction_dat reynolds).
Definition export_vorticity (reynolds : float) : state → state :=
  export (vorticity_dat reynolds).
Definition export_velocity_field (reynolds : float) : state → state :=
  export (velocity_field_dat reynolds).

Definition reset_fields (s : state) : state :=
  for_range 0 Nxmax (λ i,
    for_range 0 Nymax (λ j s,
      set_w (set_u s i j 0%float) i j 0%float)) s.

(** The part of [run_simulation] that precedes the convergence loop. *)
Definition prepare_run (reynolds : float) (s : state) : state :=
  borders (configure_reynolds reynolds (reset_fields s)).

(** [max_iterations] is the default argument of [relax_until_converge]. *)
Definition default_max_iterations : Z := 350000.

(** The part of [run_simulation] that follows the convergence loop. *)
Definition finish_run (reynolds : float) (r : bool * state) : bool * state :=
  let '(converged, s) := r in
  if negb converged then (false, s)
  else
    let s := normalize s in
    let s := export_streamfunction reynolds s in
    let s := export_vorticity reynolds s in
    let s := export_velocity_field reynolds s in
    (true, s).

Definition run_simulation (reynolds : float) (s : state)
  : option (bool * state) :=
  finish_run reynolds
    <$> relax_until_converge default_max_iterations (prepare_run reynolds s).

(** The range-for loop of [main] over [reynolds_values]: the number of
    successful simulations and the final state. *)
Fixpoint run_sweep (reynolds_values : list float) (successful_simulations : Z)
    (s : state) : option (Z * state) :=
  match reynolds_values with
  | [] => Some (successful_simulations, s)
  | re :: rest =>
    run_simulation re s ≫= λ r : bool * state,
      run_sweep rest
        (if r.1 then successful_simulations + 1 else successful_simulations)
        r.2
  end.

Definition reynolds_values : list float :=
  [0.5%float; 1.0%float; 2.0%float; 5.0%float].

(** [main], once the directory [Datos] exists. *)
Definition main_sweep : option (Z * state) :=
  run_sweep reynolds_values 0 initial_state.

(** ** Definitions used to state the properties *)

(** Interior nodes outside the beam, in the order the loops visit them. *)
Definition interior_nodes : list (Z * Z) :=
  filter (λ p, is_inside_beam p.1 p.2 = false)
         (i ← seqZ 1 (Nxmax - 1); j ← seqZ 1 (Nymax - 1); [(i, j)]).

(** Largest absolute change between two fields over [interior_nodes]. *)
Definition max_change (old new : gmap (Z * Z) float) : float :=
  foldl (λ m p, fmax m (abs (rd new p.1 p.2 - rd old p.1 p.2)))
        0%float interior_nodes.

(** The loop body in the order of the text of the specification: snapshot,
    enforcement, both sweeps, enforcement, change norms against that
    snapshot. *)
Definition iteration_snapshot_first (s : state) : state * float * float :=
  let u_old := snapshot (u s) in
  let w_old := snapshot (w s) in
  let s := beam_boundaries s in
  let s := relax_stream_function s in
  let s := relax_vorticity s in
  let s := beam_boundaries s in
  let '(max_diff_u, max_diff_w) := max_differences u_old w_old s in
  (s, max_diff_u, max_diff_w).

(** The smoothing pass as the specification words it: the 3x3 block around
    the upper left corner and the 3x3 block around the upper right corner. *)
Definition smooth_block (ci cj : Z) (s : state) : state :=
  for_range (-1) 1 (λ di,
    for_range (-1) 1 (λ dj,
      smooth_node (ci + di) (cj + dj))) s.

Definition beam_smoothing_both_corners (s : state) : state :=
  if (5.0 <=? R_target s)%float then
    smooth_block (IL + T + 1) (H + 1) (smooth_block (IL - 1) (H + 1) s)
  else s.

(** On the grid. *)
Definition on_grid (i j : Z) : Prop := 0 ≤ i ≤ Nxmax ∧ 0 ≤ j ≤ Nymax.

(** The fields other than the two arrays agree. *)
Definition same_scalars (s s' : state) : Prop :=
  omega s' = omega s ∧ nu s' = nu s ∧ R_target s' = R_target s ∧ R s' = R s
  ∧ last_w_error s' = last_w_error s ∧ stagnant_count s' = stagnant_count s
  ∧ exports s' = exports s.

(** The shear profile that [borders] installs. *)
Definition profile (i j : Z) : float :=
  if is_inside_beam i j then 0%float else (double_of_int j * V0)%float.

Definition shear_profile (s : state) : Prop :=
  ∀ i j, on_grid i j → rd (w s) i j = 0%float ∧ rd (u s) i j = profile i j.

(** The four-neighbour sum [a1] and the two cross differences [a2], [a3]
    of the vorticity update at the node [(i, j)]. *)
Definition four_neighbours (a : gmap (Z * Z) float) (i j : Z) : float :=
  (rd a (i + 1) j + rd a (i - 1) j + rd a i (j + 1) + rd a i (j - 1))%float.

Definition cross_a2 (s : state) (i j : Z) : float :=
  ((rd (u s) i (j + 1) - rd (u s) i (j - 1))
   * (rd (w s) (i + 1) j - rd (w s) (i - 1) j))%float.

Definition cross_a3 (s : state) (i j : Z) : float :=
  ((rd (u s) (i + 1) j - rd (u s) (i - 1) j)
   * (rd (w s) i (j + 1) - rd (w s) i (j - 1)))%float.

(** Next to the edge of the domain. *)
Definition edge_adjacent (i j : Z) : Prop :=
  i = 1 ∨ i = Nxmax - 1 ∨ j = 1 ∨ j = Nymax - 1.

(** The stream function is the same in both states. *)
Definition same_u (s s' : state) : Prop := u s' = u s.

(** The corner values PASO 3 assigns, read off the stream function of [s]. *)
Definition left_corner_blend (s : state) : float :=
  corner_blend (R_target s)
    (wall_vorticity (rd (u s) (IL - 2) (H + 1)))
    (wall_vorticity (rd (u s) (IL - 1) (H + 2))).

Definition right_corner_blend (s : state) : float :=
  corner_blend (R_target s)
    (wall_vorticity (rd (u s) (IL + T + 2) (H + 1)))
    (wall_vorticity (rd (u s) (IL + T + 1) (H + 2))).

(** What the enforcement up to PASO 3 establishes: zero fields on the beam,
    the wall vorticity on the three faces, the blends at the two corners. *)
Definition enforced (t : state) : Prop :=
  (∀ i j, is_inside_beam i j = true →
     u t !! (i, j) = Some 0%float ∧ w t !! (i, j) = Some 0%float)
  ∧ (∀ j, 1 ≤ j ≤ H →
       w t !! (IL - 1, j) = Some (wall_vorticity (rd (u t) (IL - 2) j)))
  ∧ (∀ j, 1 ≤ j ≤ H →
       w t !! (IL + T + 1, j) = Some (wall_vorticity (rd (u t) (IL + T + 2) j)))
  ∧ (∀ i, IL ≤ i ≤ IL + T →
       w t !! (i, H + 1) = Some (wall_vorticity (rd (u t) i (H + 2))))
  ∧ w t !! (IL - 1, H + 1) = Some (left_corner_blend t)
  ∧ w t !! (IL + T + 1, H + 1) = Some (right_corner_blend t).

(** The pass of the loop entered with [iter] and [s] is followed by another
    one, entered with the counter and the state given. *)
Definition loop_next (max_iterations : Z) (effective_tol : float)
    (iter : Z) (s : state) : option (Z * state) :=
  let '(s, max_diff_u, max_diff_w) := iteration s in
  let iter := iter + 1 in
  if diverging (R_target s) max_diff_u max_diff_w then None
  else if (max_diff_u <? effective_tol)%float
          && (max_diff_w <? effective_tol)%float then None
  else
    let '(s, stop) :=
      if (max_diff_u <? effective_tol)%float && (50000 <? iter)
      then stagnation_check max_diff_w s else (s, false) in
    if stop then None
    else if iter <? max_iterations then Some (iter, s) else None.

(** The body of the loop from [++iter] on, where the reduction is over, on
    the state and the two change norms of the pass: the loop is left
    ([inl]) or entered again with a counter and a state ([inr]). *)
Definition pass_tail (max_iterations : Z) (effective_tol : float) (iter : Z)
    (s : state) (max_diff_u max_diff_w : float) : loop_exit + Z * state :=
  let iter := iter + 1 in
  if diverging (R_target s) max_diff_u max_diff_w then inl (Return_false s)
  else if (max_diff_u <? effective_tol)%float
          && (max_diff_w <? effective_tol)%float then
    inl (Loop_done iter max_diff_u max_diff_w s)
  else
    let '(s, stop) :=
      if (max_diff_u <? effective_tol)%float && (50000 <? iter)
      then stagnation_check max_diff_w s else (s, false) in
    if stop then inl (Loop_done iter max_diff_u max_diff_w s)
    else if iter <? max_iterations then inr (iter, s)
    else inl (Loop_done iter max_diff_u max_diff_w s).

(** The loop, entered with [fuel], [iter] and [s], comes to enter a pass
    with [fuel'], [iter'] and [s']. *)
Inductive loop_reaches (max_iterations : Z) (effective_tol : float)
  : nat → Z → state → nat → Z → state → Prop :=
  | reaches_here fuel iter s :
      loop_reaches max_iterations effective_tol fuel iter s fuel iter s
  | reaches_next fuel iter s iter1 s1 fuel' iter' s' :
      loop_next max_iterations effective_tol iter s = Some (iter1, s1) →
      loop_reaches max_iterations effective_tol fuel iter1 s1 fuel' iter' s' →
      loop_reaches max_iterations effective_tol (S fuel) iter s fuel' iter' s'.

(** The state [run_simulation(5.0)] enters the convergence loop with. *)
Definition run5_state : state := prepare_run 5.0 initial_state.

(** The state used against idempotence at [R_target = 5.0]: one vorticity
    spike next to the upper left corner, everything else zero. *)
Definition spike_state : state :=
  set_w (configure_reynolds 5.0 initial_state) 8 10 100.0%float.

(** Both arrays hold at [k] in [s'] what they hold in [s]. *)
Definition keeps (k : Z * Z) (s s' : state) : Prop :=
  u s' !! k = u s !! k ∧ w s' !! k = w s !! k.

(** Outcomes of [SFcompare] that mean "at most", and the outcome of two
    such comparisons in a row. *)
Definition le_code (c : comparison) : bool :=
  match c with Gt => false | _ => true end.

Definition join_code (c1 c2 : comparison) : comparison :=
  match c1, c2 with Eq, Eq => Eq | _, _ => Lt end.

(** ** Definitions used to state further properties of the code *)

(** The state a loop exit carries. *)
Definition exit_state (r : loop_exit) : state :=
  match r with
  | Return_false s => s
  | Loop_done _ _ _ s => s
  end.

(** The way the loop is left in the pass entered with [iter] and [s], when
    no further pass follows it. *)
Definition final_exit (effective_tol : float) (iter : Z) (s : state)
  : loop_exit :=
  let '(s, max_diff_u, max_diff_w) := iteration s in
  let iter := iter + 1 in
  if diverging (R_target s) max_diff_u max_diff_w then Return_false s
  else if (max_diff_u <? effective_tol)%float
          && (max_diff_w <? effective_tol)%float then
    Loop_done iter max_diff_u max_diff_w s
  else
    Loop_done iter max_diff_u max_diff_w
      (if (max_diff_u <? effective_tol)%float && (50000 <? iter)
       then stagnation_check max_diff_w s else (s, false)).1.

(** The [acceptance_threshold] computed after the loop. *)
Definition acceptance_threshold (r_target : float) : float :=
  if (5.0 <=? r_target)%float then (effective_tolerance r_target * 20000)%float
  else (effective_tolerance r_target * 1000)%float.

(** On the edge of the domain; strictly inside it. *)
Definition domain_edge (i j : Z) : Prop :=
  i = 0 ∨ i = Nxmax ∨ j = 0 ∨ j = Nymax.

Definition interior (i j : Z) : Prop := 1 ≤ i < Nxmax ∧ 1 ≤ j < Nymax.

(** The vorticity is the same in both states. *)
Definition same_w (s s' : state) : Prop := w s' = w s.

(** The nodes next to the three exposed faces of the beam, the two corner
    nodes included, and the 3x3 block of the smoothing pass. *)
Definition beam_surface (i j : Z) : Prop :=
  (i = IL - 1 ∧ 1 ≤ j ≤ H + 1) ∨ (i = IL + T + 1 ∧ 1 ≤ j ≤ H + 1)
  ∨ (IL ≤ i ≤ IL + T ∧ j = H + 1).

Definition smoothing_block (i j : Z) : Prop :=
  IL - 2 ≤ i ≤ IL ∧ H ≤ j ≤ H + 2.

(** The three files of a successful run, in the order they are written. *)
Definition run_files (reynolds : float) : list data_file :=
  [streamfunction_dat reynolds; vorticity_dat reynolds;
   velocity_field_dat reynolds].

(** The data lines [export_streamfunction] and [export_vorticity] write
    once the file is open: [x y value] for a field [a], as doubles before
    they are formatted. *)
Definition field_rows (a : gmap (Z * Z) float) : list (float * float * float) :=
  for_range 0 (Nxmax - 1) (λ i,
    for_range 0 (Nymax - 1) (λ j (rows : list (float * float * float)),
      rows ++ [((double_of_int i * h)%float, (double_of_int j * h)%float,
                rd a i j)])) [].

Definition streamfunction_rows (s : state) : list (float * float * float) :=
  field_rows (u s).

Definition vorticity_rows (s : state) : list (float * float * float) :=
  field_rows (w s).

(** One data line of [export_velocity_field]: [x y vx vy v_mag]. *)
Definition velocity_row (a : gmap (Z * Z) float) (i j : Z)
  : float * float * float * float * float :=
  let x := (double_of_int i * h)%float in
  let y := (double_of_int j * h)%float in
  let vx := ((rd a i (j + 1) - rd a i (j - 1)) / (2.0 * h))%float in
  let vy := (- (rd a (i + 1) j - rd a (i - 1) j) / (2.0 * h))%float in
  let v_mag := sqrt (vx * vx + vy * vy)%float in
  (x, y, vx, vy, v_mag).

(** The data lines [export_velocity_field] writes once the file is open. *)
Definition velocity_field_rows (s : state)
  : list (float * float * float * float * float) :=
  for_range 1 (Nxmax - 2) (λ i,
    for_range 1 (Nymax - 2)
      (λ j (rows : list (float * float * float * float * float)),
         if is_inside_beam i j then rows
         else rows ++ [velocity_row (u s) i j])) [].

(** A state at loop entry with two NaN seeds: the fields of the run at
    [Re = 0.5] with [w[1][1]] and [u[20][1]] set to NaN. *)
Definition nan_seeded_state : state :=
  set_u (set_w (prepare_run 0.5 initial_state) 1 1 nan) 20 1 nan.

(** Both fields are NaN at every interior node outside the beam. *)
Definition all_nan (s : state) : bool :=
  forallb (λ p : Z * Z,
             is_nan (rd (u s) p.1 p.2) && is_nan (rd (w s) p.1 p.2))
          interior_nodes.

(** The nodes of the tables of [export_streamfunction] and
    [export_vorticity], and those of [export_velocity_field], in the order
    of the loops. *)
Definition table_nodes : list (Z * Z) :=
  i ← seqZ 0 Nxmax; j ← seqZ 0 Nymax; [(i, j)].

Definition velocity_nodes : list (Z * Z) :=
  filter (λ p, is_inside_beam p.1 p.2 = false)
         (i ← seqZ 1 (Nxmax - 2); j ← seqZ 1 (Nymax - 2); [(i, j)]).

(** The order in which the nested loops visit two nodes (outer index
    first), and lists of nodes that are strictly ascending in it. *)
Definition row_order (p q : Z * Z) : bool :=
  (p.1 <? q.1) || ((p.1 =? q.1) && (p.2 <? q.2)).

Fixpoint ascending_from (p : Z * Z) (l : list (Z * Z)) : bool :=
  match l with
  | [] => true
  | q :: l => row_order p q && ascending_from q l
  end.

Definition ascending (l : list (Z * Z)) : bool :=
  match l with
  | [] => true
  | p :: l => ascending_from p l
  end.

(** The state [s] with other values in the two [static] variables of
    [relax_until_converge], and a loop exit with such a state. *)
Definition with_statics (last_w : float) (count : Z) (s : state) : state :=
  mkState (u s) (w s) (omega s) (nu s) (R_target s) (R s)
          last_w count (exports s).

Definition exit_with_statics (last_w : float) (count : Z) (r : loop_exit)
  : loop_exit :=
  match r with
  | Return_false s => Return_false (with_statics last_w count s)
  | Loop_done iter max_diff_u max_diff_w s =>
    Loop_done iter max_diff_u max_diff_w (with_statics last_w count s)
  end.

(** The pass entered with [iter] and [s] executes the partial-convergence
    block: the divergence test did not fire, the stream function is
    converged, the vorticity is not, and the pass is numbered above 50000. *)
Definition enters_block (effective_tol : float) (iter : Z) (s : state) : bool :=
  let '(s1, max_diff_u, max_diff_w) := iteration s in
  (50000 <? iter + 1)
  && negb (diverging (R_target s1) max_diff_u max_diff_w)
  && (max_diff_u <? effective_tol)%float
  && negb (max_diff_w <? effective_tol)%float.

(** * Properties *)

(** ** Order of binary64 values

    The comparisons of [PrimFloat] are specified through [SFcompare];
    these are the order facts about them used below. *)
Module FloatOrder.

Ltac order_cases :=
  repeat match goal with
  | |- context [Z.compare ?a ?b] => destruct (Z.compare_spec a b)
  | Hc : context [Z.compare ?a ?b] |- _ => destruct (Z.compare_spec a b)
  | |- context [Pos.compare ?a ?b] => destruct (Pos.compare_spec a b)
  | Hc : context [Pos.compare ?a ?b] |- _ => destruct (Pos.compare_spec a b)
  end.

Lemma SFcompare_trans (x y z : spec_float) (c1 c2 : comparison) :
  SFcompare x y = Some c1 → SFcompare y z = Some c2 →
  le_code c1 = true → le_code c2 = true →
  SFcompare x z = Some (join_code c1 c2).
Proof.
  destruct x as [sx|sx| |sx mx ex], y as [sy|sy| |sy my ey],
           z as [sz|sz| |sz mz ez]; simpl; try discriminate;
    try destruct sx; try destruct sy; try destruct sz; simpl;
    intros E1 E2; injection E1 as <-; injection E2 as <-; simpl;
    try discriminate; try reflexivity;
    change (Pos.compare_cont Eq) with Pos.compare in *;
    order_cases; simpl; intros; try discriminate; try reflexivity; subst; lia.
Qed.

Lemma SFcompare_refl (x : spec_float) :
  SFcompare x x ≠ Some Lt ∧ SFcompare x x ≠ Some Gt.
Proof.
  destruct x as [sx|sx| |sx mx ex]; simpl; try destruct sx; simpl;
    rewrite ?Z.compare_refl; change (Pos.compare_cont Eq) with Pos.compare;
    rewrite ?Pos.compare_refl; split; discriminate.
Qed.

Lemma leb_code (x y : float) :
  (x <=? y)%float = true
  ↔ ∃ c, SFcompare (Prim2SF x) (Prim2SF y) = Some c ∧ le_code c = true.
Proof.
  rewrite leb_spec. unfold SFleb.
  destruct (SFcompare _ _) as [[]|]; split; intros E; try discriminate; eauto;
    destruct E as (c & E & L); try discriminate; injection E as <-; discriminate.
Qed.

Lemma ltb_code (x y : float) :
  (x <? y)%float = true ↔ SFcompare (Prim2SF x) (Prim2SF y) = Some Lt.
Proof.
  rewrite ltb_spec. unfold SFltb.
  destruct (SFcompare _ _) as [[]|]; split; intros; try discriminate; eauto.
Qed.

Lemma leb_trans (x y z : float) :
  (x <=? y)%float = true → (y <=? z)%float = true → (x <=? z)%float = true.
Proof.
  rewrite !leb_code. intros (c1 & E1 & L1) (c2 & E2 & L2).
  exists (join_code c1 c2). split; [by apply SFcompare_trans with (y := Prim2SF y)|].
  by destruct c1, c2.
Qed.

Lemma ltb_leb_trans (x y z : float) :
  (x <? y)%float = true → (y <=? z)%float = true → (x <? z)%float = true.
Proof.
  rewrite leb_code, !ltb_code. intros E1 (c2 & E2 & L2).
  by rewrite (SFcompare_trans _ _ _ _ _ E1 E2).
Qed.

Lemma leb_ltb_trans (x y z : float) :
  (x <=? y)%float = true → (y <? z)%float = true → (x <? z)%float = true.
Proof.
  rewrite leb_code, !ltb_code. intros (c1 & E1 & L1) E2.
  rewrite (SFcompare_trans _ _ _ _ _ E1 E2) by done. by destruct c1.
Qed.

Lemma ltb_irrefl (x : float) : (x <? x)%float = false.
Proof. apply not_true_is_false. rewrite ltb_code. apply SFcompare_refl. Qed.

Lemma ltb_leb_false (x y : float) :
  (x <? y)%float = true → (y <=? x)%float = false.
Proof.
  intros E1. apply not_true_is_false. intros E2.
  pose proof (ltb_leb_trans _ _ _ E1 E2) as E. by rewrite ltb_irrefl in E.
Qed.

Lemma leb_ltb_false (x y : float) :
  (x <=? y)%float = true → (y <? x)%float = false.
Proof.
  intros E1. apply not_true_is_false. intros E2.
  pose proof (leb_ltb_trans _ _ _ E1 E2) as E. by rewrite ltb_irrefl in E.
Qed.

Lemma ltb_asym (x y : float) :
  (x <? y)%float = true → (y <? x)%float = false.
Proof.
  intros E1. apply not_true_is_false. intros E2.
  rewrite ltb_code in E1, E2.
  pose proof (SFcompare_trans _ _ _ _ _ E1 E2 eq_refl eq_refl) as E.
  by apply SFcompare_refl in E.
Qed.

Lemma ltb_not_nan_r (x y : float) :
  (x <? y)%float = true → is_nan y = false.
Proof.
  rewrite ltb_code. unfold is_nan. rewrite FloatAxioms.eqb_spec. unfold SFeqb.
  destruct (Prim2SF x) as [sx|sx| |sx mx ex], (Prim2SF y) as [sy|sy| |sy my ey];
    simpl; try discriminate; intros _;
    try destruct sy; simpl; try reflexivity;
    rewrite Z.compare_refl; change (Pos.compare_cont Eq) with Pos.compare;
    rewrite Pos.compare_refl; reflexivity.
Qed.

End FloatOrder.

(** ** Counted loops *)
Transparent for_range.

Section for_range.
Context {A : Type}.
Implicit Types (body : Z → A → A) (a : A).

Lemma for_range_foldl lo hi body a :
  for_range lo hi body a = foldl (λ a i, body i a) a (seqZ lo (hi - lo + 1)).
Proof. reflexivity. Qed.

Lemma for_range_empty lo hi body a : hi < lo → for_range lo hi body a = a.
Proof. intros. unfold for_range. by rewrite seqZ_nil by lia. Qed.

Lemma for_range_last lo hi body a :
  lo ≤ hi → for_range lo hi body a = body hi (for_range lo (hi - 1) body a).
Proof.
  intros. unfold for_range.
  replace (hi - lo + 1) with ((hi - 1 - lo + 1) + 1) by lia.
  rewrite (seqZ_app lo (hi - 1 - lo + 1) 1), foldl_app by lia.
  rewrite (seqZ_cons _ 1), (seqZ_nil _ (Z.pred 1)) by lia. simpl.
  by replace (lo + (hi - 1 - lo + 1)) with hi by lia.
Qed.

(** Invariant indexed by the next value of the loop variable. *)
Lemma for_range_ind (P : Z → A → Prop) lo hi body a :
  lo ≤ hi + 1 → P lo a →
  (∀ i a, lo ≤ i ≤ hi → P i a → P (i + 1) (body i a)) →
  P (hi + 1) (for_range lo hi body a).
Proof.
  intros Hle Hlo Hstep.
  remember (Z.to_nat (hi + 1 - lo)) as n eqn:En.
  revert hi Hle Hstep En. induction n as [|n IH]; intros hi Hle Hstep En.
  - replace (hi + 1) with lo by lia. by rewrite for_range_empty by lia.
  - rewrite for_range_last by lia. apply Hstep; [lia|].
    replace hi with (hi - 1 + 1) at 1 by lia.
    apply IH; [lia| |lia]. intros i b Hi. apply Hstep. lia.
Qed.

(** Plain loop invariant. *)
Lemma for_range_inv (P : A → Prop) lo hi body a :
  P a → (∀ i a, lo ≤ i ≤ hi → P a → P (body i a)) →
  P (for_range lo hi body a).
Proof.
  intros Ha Hstep. destruct (decide (lo ≤ hi + 1)) as [Hle|Hgt].
  - by apply (for_range_ind (λ _, P)).
  - by rewrite for_range_empty by lia.
Qed.

(** A loop whose pass [i] establishes [Q i] and keeps every other [Q i']
    establishes [Q] on its whole range. *)
Lemma for_range_all (Q : Z → A → Prop) lo hi body a :
  (∀ i a, lo ≤ i ≤ hi → Q i (body i a)) →
  (∀ i i' a, lo ≤ i ≤ hi → i' ≠ i → Q i' a → Q i' (body i a)) →
  ∀ i, lo ≤ i ≤ hi → Q i (for_range lo hi body a).
Proof.
  intros Hset Hkeep i Hi.
  apply (for_range_ind (λ k b, ∀ i, lo ≤ i < k → Q i b)); [lia|lia| |lia].
  intros k b Hk Hb i' Hi'. destruct (decide (i' = k)) as [->|Hne].
  - by apply Hset.
  - apply Hkeep; [done..|]. apply Hb. lia.
Qed.
End for_range.

(** Two nested loops whose pass [(i, j)] establishes [Q i j] and keeps every
    other [Q i' j']. *)
Lemma for_range2_all {A : Type} (Q : Z → Z → A → Prop)
    ilo ihi jlo jhi (body : Z → Z → A → A) (a : A) :
  (∀ i j a, ilo ≤ i ≤ ihi → jlo ≤ j ≤ jhi → Q i j (body i j a)) →
  (∀ i j i' j' a, ilo ≤ i ≤ ihi → jlo ≤ j ≤ jhi → (i', j') ≠ (i, j) →
     Q i' j' a → Q i' j' (body i j a)) →
  ∀ i j, ilo ≤ i ≤ ihi → jlo ≤ j ≤ jhi →
    Q i j (for_range ilo ihi (λ i, for_range jlo jhi (body i)) a).
Proof.
  intros Hset Hkeep i j Hi Hj.
  apply (for_range_all (λ i b, ∀ j, jlo ≤ j ≤ jhi → Q i j b)); [| |done..].
  - clear i j Hi Hj. intros i b Hi j Hj.
    apply (for_range_all (λ j b, Q i j b)); [| |done].
    + intros. by apply Hset.
    + intros j1 j2 c Hj1 Hne. apply Hkeep; [done..|congruence].
  - clear i j Hi Hj. intros i i' b Hi Hne Hb j Hj.
    apply (for_range_inv (λ c, Q i' j c)); [by apply Hb|].
    intros j1 c Hj1. apply Hkeep; [done..|congruence].
Qed.

Opaque for_range.

(** ** Frame facts about the two arrays *)

Lemma inside_spec (i j : Z) :
  is_inside_beam i j = true ↔ IL ≤ i ≤ IL + T ∧ 0 ≤ j ≤ H.
Proof. unfold is_inside_beam. rewrite !andb_true_iff, !Z.leb_le. lia. Qed.

Lemma outside_spec (i j : Z) :
  is_inside_beam i j = false ↔ ¬ (IL ≤ i ≤ IL + T ∧ 0 ≤ j ≤ H).
Proof. rewrite <- inside_spec. by destruct (is_inside_beam i j). Qed.

Lemma keeps_refl k s : keeps k s s.
Proof. done. Qed.

Lemma keeps_trans k s1 s2 s3 : keeps k s1 s2 → keeps k s2 s3 → keeps k s1 s3.
Proof. intros [? ?] [? ?]. split; congruence. Qed.

Lemma keeps_set_u k s i j v : (i, j) ≠ k → keeps k s (set_u s i j v).
Proof. intros. split; simpl; [by rewrite lookup_insert_ne|done]. Qed.

Lemma keeps_set_w k s i j v : (i, j) ≠ k → keeps k s (set_w s i j v).
Proof. intros. split; simpl; [done|by rewrite lookup_insert_ne]. Qed.

Lemma keeps_for_range k lo hi (body : Z → state → state) s :
  (∀ i s, lo ≤ i ≤ hi → keeps k s (body i s)) →
  keeps k s (for_range lo hi body s).
Proof.
  intros Hstep. apply (for_range_inv (keeps k s)); [apply keeps_refl|].
  intros i s' Hi Hs'. eapply keeps_trans; [done|by apply Hstep].
Qed.

Lemma same_scalars_refl s : same_scalars s s.
Proof. by repeat split. Qed.

Lemma same_scalars_trans s1 s2 s3 :
  same_scalars s1 s2 → same_scalars s2 s3 → same_scalars s1 s3.
Proof.
  intros (?&?&?&?&?&?&?) (?&?&?&?&?&?&?). repeat split; congruence.
Qed.

Lemma same_scalars_set_u s i j v : same_scalars s (set_u s i j v).
Proof. by repeat split. Qed.

Lemma same_scalars_set_w s i j v : same_scalars s (set_w s i j v).
Proof. by repeat split. Qed.

Lemma same_scalars_for_range lo hi (body : Z → state → state) s :
  (∀ i s, lo ≤ i ≤ hi → same_scalars s (body i s)) →
  same_scalars s (for_range lo hi body s).
Proof.
  intros Hstep. apply (for_range_inv (same_scalars s)); [apply same_scalars_refl|].
  intros i s' Hi Hs'. eapply same_scalars_trans; [done|by apply Hstep].
Qed.

(** Turns the tests of the program found in the hypotheses into linear
    arithmetic over the grid constants and calls [lia]. *)
Ltac geom :=
  repeat match goal with
  | Hc : _ && _ = true |- _ => apply andb_true_iff in Hc; destruct Hc
  | Hc : negb _ = true |- _ => apply negb_true_iff in Hc
  | Hc : is_inside_beam _ _ = true |- _ => apply inside_spec in Hc
  | Hc : is_inside_beam _ _ = false |- _ => apply outside_spec in Hc
  | Hc : on_grid _ _ |- _ => unfold on_grid in Hc
  | Hc : (_, _) = (_, _) |- _ => apply pair_equal_spec in Hc; destruct Hc
  | |- (_, _) ≠ (_, _) => intros ?
  end;
  unfold on_grid, Nxmax, Nymax, IL, H, T in *; simpl in *; lia.

Lemma keeps_set_u' k s s' i j v :
  keeps k s s' → (i, j) ≠ k → keeps k s (set_u s' i j v).
Proof. intros. eapply keeps_trans; [done|by apply keeps_set_u]. Qed.

Lemma keeps_set_w' k s s' i j v :
  keeps k s s' → (i, j) ≠ k → keeps k s (set_w s' i j v).
Proof. intros. eapply keeps_trans; [done|by apply keeps_set_w]. Qed.

Lemma keeps_for_range' k lo hi (body : Z → state → state) s s' :
  keeps k s s' → (∀ i s, lo ≤ i ≤ hi → keeps k s (body i s)) →
  keeps k s (for_range lo hi body s').
Proof. intros. eapply keeps_trans; [done|by apply keeps_for_range]. Qed.

(** Decomposes a goal [keeps k s e] along the structure of the program
    [e]; what is left are the goals that a written key differs from [k]. *)
Ltac keeps_steps :=
  repeat match goal with
  | |- keeps _ ?s ?s => apply keeps_refl
  | |- keeps _ _ (set_u _ _ _ _) => apply keeps_set_u'
  | |- keeps _ _ (set_w _ _ _ _) => apply keeps_set_w'
  | |- keeps _ _ (for_range _ _ _ _) => apply keeps_for_range'; [|intros ? ? ?]
  | |- keeps _ _ (if ?c then _ else _) => destruct c eqn:?
  | |- keeps _ _ (let '(_, _) := ?e in _) => destruct e
  | |- keeps _ _ _ => progress cbv beta zeta
  end.

(** *** PASO 1 *)

Lemma beam_zero_inside (s : state) (i j : Z) :
  is_inside_beam i j = true →
  u (beam_zero s) !! (i, j) = Some 0%float
  ∧ w (beam_zero s) !! (i, j) = Some 0%float.
Proof.
  intros Hin. unfold beam_zero.
  apply (for_range2_all
           (λ i j s, u s !! (i, j) = Some 0%float ∧ w s !! (i, j) = Some 0%float)).
  - intros. simpl. by rewrite !lookup_insert_eq.
  - intros a b a' b' s' _ _ Hne [? ?]. simpl.
    by rewrite !lookup_insert_ne by congruence.
  - geom.
  - geom.
Qed.

Lemma beam_zero_outside (s : state) (k : Z * Z) :
  is_inside_beam k.1 k.2 = false → keeps k s (beam_zero s).
Proof.
  destruct k as [i j]. simpl. intros Hout. unfold beam_zero.
  keeps_steps; geom.
Qed.

(** *** PASO 2, 3 and 4 leave the beam alone *)

Lemma beam_walls_inside (s : state) (k : Z * Z) :
  is_inside_beam k.1 k.2 = true → keeps k s (beam_walls s).
Proof.
  destruct k as [i j]. simpl. intros Hin. unfold beam_walls.
  keeps_steps; geom.
Qed.

Lemma beam_corners_inside (s : state) (k : Z * Z) :
  is_inside_beam k.1 k.2 = true → keeps k s (beam_corners s).
Proof.
  destruct k as [i j]. simpl. intros Hin. unfold beam_corners.
  keeps_steps; geom.
Qed.

Lemma smooth_node_inside (ii jj : Z) (s : state) (k : Z * Z) :
  is_inside_beam k.1 k.2 = true → keeps k s (smooth_node ii jj s).
Proof.
  destruct k as [i j]. simpl. intros Hin. unfold smooth_node.
  keeps_steps; geom.
Qed.

Lemma beam_smoothing_inside (s : state) (k : Z * Z) :
  is_inside_beam k.1 k.2 = true → keeps k s (beam_smoothing s).
Proof.
  intros Hin. unfold beam_smoothing.
  destruct (5.0 <=? R_target s)%float; [|apply keeps_refl].
  destruct ((1 <? IL) && (H + 2 <=? Nymax)); [|apply keeps_refl].
  apply keeps_for_range. intros di s1 _.
  apply keeps_for_range. intros dj s2 _.
  by apply smooth_node_inside.
Qed.

(** *** The sweeps skip the beam *)

Lemma relax_stream_function_inside (s : state) (k : Z * Z) :
  is_inside_beam k.1 k.2 = true → keeps k s (relax_stream_function s).
Proof.
  destruct k as [i j]. simpl. intros Hin.
  unfold relax_stream_function, relax_stream_node.
  keeps_steps; geom.
Qed.

Lemma relax_vorticity_inside (s : state) (k : Z * Z) :
  is_inside_beam k.1 k.2 = true → keeps k s (relax_vorticity s).
Proof.
  destruct k as [i j]. simpl. intros Hin.
  unfold relax_vorticity, relax_vorticity_node.
  keeps_steps; geom.
Qed.

Lemma beam_boundaries_inside (s : state) (i j : Z) :
  is_inside_beam i j = true →
  u (beam_boundaries s) !! (i, j) = Some 0%float
  ∧ w (beam_boundaries s) !! (i, j) = Some 0%float.
Proof.
  intros Hin. unfold beam_boundaries.
  destruct (beam_zero_inside s i j Hin) as [Hu Hw].
  pose proof (beam_walls_inside (beam_zero s) (i, j) Hin) as [Hu1 Hw1].
  pose proof (beam_corners_inside (beam_walls (beam_zero s)) (i, j) Hin) as [Hu2 Hw2].
  pose proof (beam_smoothing_inside
                (beam_corners (beam_walls (beam_zero s))) (i, j) Hin) as [Hu3 Hw3].
  split; congruence.
Qed.

Lemma iteration_state (s : state) :
  (iteration s).1.1
  = beam_boundaries (relax_vorticity (relax_stream_function (beam_boundaries s))).
Proof. unfold iteration. by destruct (max_differences _ _ _). Qed.

(** C1. For the configured beam, every node inside the beam holds [u = 0]
    and [w = 0] after [beam_boundaries], hence also in the state each pass
    of the convergence loop ends with; the wall, corner and smoothing steps
    leave both arrays as they are at every node inside the beam, and so do
    the two relaxation sweeps. *)
Theorem obstacle_invariant (s : state) (i j : Z) :
  is_inside_beam i j = true →
  (rd (u (beam_boundaries s)) i j = 0%float
   ∧ rd (w (beam_boundaries s)) i j = 0%float)
  ∧ (rd (u (iteration s).1.1) i j = 0%float
     ∧ rd (w (iteration s).1.1) i j = 0%float)
  ∧ keeps (i, j) s (beam_walls s)
  ∧ keeps (i, j) s (beam_corners s)
  ∧ keeps (i, j) s (beam_smoothing s)
  ∧ keeps (i, j) s (relax_stream_function s)
  ∧ keeps (i, j) s (relax_vorticity s).
Proof.
  intros Hin.
  pose proof (beam_boundaries_inside s i j Hin) as [Hu Hw].
  pose proof (beam_boundaries_inside
                (relax_vorticity (relax_stream_function (beam_boundaries s)))
                i j Hin) as [Hu' Hw'].
  split; [unfold rd; rewrite Hu, Hw; split; reflexivity|].
  split; [rewrite iteration_state; unfold rd; rewrite Hu', Hw'; split; reflexivity|].
  split; [by apply (beam_walls_inside s (i, j))|].
  split; [by apply (beam_corners_inside s (i, j))|].
  split; [by apply (beam_smoothing_inside s (i, j))|].
  split; [by apply (relax_stream_function_inside s (i, j))|].
  by apply (relax_vorticity_inside s (i, j)).
Qed.

Lemma obstacle_invariant_witness :
  is_inside_beam 14 3 = true
  ∧ rd (u (beam_boundaries initial_state)) 14 3 = 0%float
  ∧ rd (w (beam_boundaries initial_state)) 14 3 = 0%float.
Proof.
  exact (conj eq_refl (proj1 (obstacle_invariant initial_state 14 3 eq_refl))).
Defined.

(** ** Domain-edge initialisation *)

Lemma rd_insert (a : gmap (Z * Z) float) (i j i' j' : Z) (v : float) :
  rd (<[(i, j) := v]> a) i' j'
  = if decide ((i, j) = (i', j')) then v else rd a i' j'.
Proof.
  unfold rd. destruct (decide _) as [->|Hne].
  - by rewrite lookup_insert_eq.
  - by rewrite lookup_insert_ne.
Qed.

Lemma rd_Some (a : gmap (Z * Z) float) (i j : Z) (v : float) :
  a !! (i, j) = Some v → rd a i j = v.
Proof. unfold rd. by intros ->. Qed.

Lemma profile_outside (i j : Z) :
  is_inside_beam i j = false → profile i j = (double_of_int j * V0)%float.
Proof. unfold profile. by intros ->. Qed.

Lemma shear_set_u (s : state) (a b : Z) (v : float) :
  shear_profile s → v = profile a b → shear_profile (set_u s a b v).
Proof.
  intros Hs -> i j Hg. destruct (Hs i j Hg) as [Hw Hu]. simpl.
  split; [exact Hw|]. rewrite rd_insert.
  destruct (decide _) as [Heq|_]; [|exact Hu]. by injection Heq as -> ->.
Qed.

Lemma shear_set_w (s : state) (a b : Z) :
  shear_profile s → shear_profile (set_w s a b 0%float).
Proof.
  intros Hs i j Hg. destruct (Hs i j Hg) as [Hw Hu]. simpl.
  split; [|exact Hu]. rewrite rd_insert. by destruct (decide _).
Qed.

(** The first double loop of [borders] installs the profile. *)
Lemma borders_fill (s : state) :
  shear_profile
    (for_range 0 Nxmax (λ i, for_range 0 Nymax (λ j s,
       if is_inside_beam i j then
         set_w (set_u s i j 0%float) i j 0%float
       else
         set_u (set_w s i j 0%float) i j (double_of_int j * V0)%float)) s).
Proof.
  intros i j [Hi Hj].
  apply (for_range2_all
           (λ i j s, rd (w s) i j = 0%float ∧ rd (u s) i j = profile i j));
    [| |exact Hi|exact Hj].
  - intros a b s' _ _. unfold profile.
    destruct (is_inside_beam a b); simpl; rewrite !rd_insert;
      destruct (decide _); try congruence; split; reflexivity.
  - intros a b a' b' s' _ _ Hne [Hw Hu].
    destruct (is_inside_beam a b); simpl; rewrite !rd_insert;
      destruct (decide _); try congruence; split; assumption.
Qed.

Lemma borders_shear_profile (s : state) : shear_profile (borders s).
Proof.
  unfold borders.
  apply for_range_inv; [apply for_range_inv; [apply for_range_inv;
    [apply for_range_inv; [apply borders_fill|]|]|]|].
  - (* free surface *)
    intros i s' Hi Hs'.
    destruct (negb (is_inside_beam i Nymax)) eqn:E; [|exact Hs'].
    assert (shear_profile
              (set_u s' i Nymax (rd (u s') i (Nymax - 1) + V0 * h)%float)) as Hs''.
    { apply shear_set_u; [exact Hs'|].
      rewrite (proj2 (Hs' i (Nymax - 1) ltac:(geom))).
      rewrite !profile_outside by (apply outside_spec; geom).
      vm_compute. reflexivity. }
    destruct (1 <? Nymax); [by apply shear_set_w|exact Hs''].
  - (* inlet *)
    intros j s' Hj Hs'.
    destruct (negb (is_inside_beam 0 j) && negb (is_inside_beam 1 j)) eqn:E;
      [|exact Hs'].
    apply shear_set_w, shear_set_u; [exact Hs'|].
    rewrite (proj2 (Hs' 0 j ltac:(geom))).
    by rewrite !profile_outside by (apply outside_spec; geom).
  - (* centre line *)
    intros i s' Hi Hs'.
    destruct (negb (is_inside_beam i 0)) eqn:E; [|exact Hs'].
    apply shear_set_w, shear_set_u; [exact Hs'|].
    rewrite profile_outside by (by apply negb_true_iff).
    vm_compute. reflexivity.
  - (* outlet *)
    intros j s' Hj Hs'.
    destruct (negb (is_inside_beam Nxmax j)
              && negb (is_inside_beam (Nxmax - 1) j)) eqn:E; [|exact Hs'].
    cbv zeta. apply shear_set_u.
    + rewrite (proj1 (Hs' (Nxmax - 1) j ltac:(geom))). by apply shear_set_w.
    + simpl. rewrite (proj2 (Hs' (Nxmax - 1) j ltac:(geom))).
      by rewrite !profile_outside by (apply outside_spec; geom).
Qed.

(** C10. After [borders] (run on the fields [reset_fields] has cleared, or
    on any others), the vorticity is [0] at every grid node, the stream
    function is [0] at every node inside the beam and [j * V0] at every
    other grid node; the free-surface, inlet and outlet loops write values
    that agree with that profile. *)
Theorem borders_installs_profile (s : state) (i j : Z) :
  on_grid i j →
  rd (w (borders (reset_fields s))) i j = 0%float
  ∧ (is_inside_beam i j = true → rd (u (borders (reset_fields s))) i j = 0%float)
  ∧ (is_inside_beam i j = false →
     rd (u (borders (reset_fields s))) i j = (double_of_int j * V0)%float).
Proof.
  intros Hg.
  destruct (borders_shear_profile (reset_fields s) i j Hg) as [Hw Hu].
  split; [exact Hw|]. unfold profile in Hu.
  split; intros E; rewrite E in Hu; exact Hu.
Qed.

Lemma borders_installs_profile_witness :
  on_grid 160 30
  ∧ rd (w (borders (reset_fields initial_state))) 160 30 = 0%float
  ∧ (is_inside_beam 160 30 = true →
     rd (u (borders (reset_fields initial_state))) 160 30 = 0%float)
  ∧ (is_inside_beam 160 30 = false →
     rd (u (borders (reset_fields initial_state))) 160 30
     = (double_of_int 30 * V0)%float).
Proof.
  assert (on_grid 160 30) as Hg by (unfold on_grid, Nxmax, Nymax; lia).
  exact (conj Hg (borders_installs_profile initial_state 160 30 Hg)).
Defined.

(** ** What the steps leave unchanged *)

Lemma same_scalars_set_u' s s' i j v :
  same_scalars s s' → same_scalars s (set_u s' i j v).
Proof. intros. eapply same_scalars_trans; [eassumption|apply same_scalars_set_u]. Qed.

Lemma same_scalars_set_w' s s' i j v :
  same_scalars s s' → same_scalars s (set_w s' i j v).
Proof. intros. eapply same_scalars_trans; [eassumption|apply same_scalars_set_w]. Qed.

Lemma same_scalars_for_range' lo hi (body : Z → state → state) s s' :
  same_scalars s s' → (∀ i s, lo ≤ i ≤ hi → same_scalars s (body i s)) →
  same_scalars s (for_range lo hi body s').
Proof.
  intros. eapply same_scalars_trans; [eassumption|by apply same_scalars_for_range].
Qed.

Ltac scalars_steps :=
  repeat match goal with
  | |- same_scalars ?s ?s => apply same_scalars_refl
  | |- same_scalars _ (set_u _ _ _ _) => apply same_scalars_set_u'
  | |- same_scalars _ (set_w _ _ _ _) => apply same_scalars_set_w'
  | |- same_scalars _ (for_range _ _ _ _) =>
      apply same_scalars_for_range'; [|intros ? ? ?]
  | |- same_scalars _ (if ?c then _ else _) => destruct c
  | |- same_scalars _ (let '(_, _) := ?e in _) => destruct e
  | |- same_scalars _ _ => progress cbv beta zeta
  end.

Lemma beam_zero_scalars s : same_scalars s (beam_zero s).
Proof. unfold beam_zero. scalars_steps. Qed.

Lemma beam_walls_scalars s : same_scalars s (beam_walls s).
Proof. unfold beam_walls. scalars_steps. Qed.

Lemma beam_corners_scalars s : same_scalars s (beam_corners s).
Proof. unfold beam_corners. scalars_steps. Qed.

Lemma beam_smoothing_scalars s : same_scalars s (beam_smoothing s).
Proof. unfold beam_smoothing, smooth_node. scalars_steps. Qed.

Lemma beam_boundaries_scalars s : same_scalars s (beam_boundaries s).
Proof.
  unfold beam_boundaries.
  eapply same_scalars_trans; [apply beam_zero_scalars|].
  eapply same_scalars_trans; [apply beam_walls_scalars|].
  eapply same_scalars_trans; [apply beam_corners_scalars|].
  apply beam_smoothing_scalars.
Qed.

Lemma relax_stream_function_scalars s : same_scalars s (relax_stream_function s).
Proof. unfold relax_stream_function, relax_stream_node. scalars_steps. Qed.

Lemma relax_vorticity_scalars s : same_scalars s (relax_vorticity s).
Proof. unfold relax_vorticity, relax_vorticity_node. scalars_steps. Qed.

Lemma iteration_scalars s : same_scalars s (iteration s).1.1.
Proof.
  rewrite iteration_state.
  eapply same_scalars_trans; [apply beam_boundaries_scalars|].
  eapply same_scalars_trans; [apply relax_stream_function_scalars|].
  eapply same_scalars_trans; [apply relax_vorticity_scalars|].
  apply beam_boundaries_scalars.
Qed.

Lemma reset_fields_scalars s : same_scalars s (reset_fields s).
Proof. unfold reset_fields. scalars_steps. Qed.

Lemma borders_scalars s : same_scalars s (borders s).
Proof. unfold borders. scalars_steps. Qed.

Lemma same_u_refl s : same_u s s.
Proof. reflexivity. Qed.

Lemma same_u_trans s1 s2 s3 : same_u s1 s2 → same_u s2 s3 → same_u s1 s3.
Proof. unfold same_u. congruence. Qed.

Lemma same_u_set_w' s s' i j v : same_u s s' → same_u s (set_w s' i j v).
Proof. intros E. exact E. Qed.

Lemma same_u_for_range' lo hi (body : Z → state → state) s s' :
  same_u s s' → (∀ i s, lo ≤ i ≤ hi → same_u s (body i s)) →
  same_u s (for_range lo hi body s').
Proof.
  intros E Hstep. eapply same_u_trans; [exact E|].
  apply (for_range_inv (same_u s')); [apply same_u_refl|].
  intros i x Hi Hx. eapply same_u_trans; [exact Hx|by apply Hstep].
Qed.

Ltac same_u_steps :=
  repeat match goal with
  | |- same_u ?s ?s => apply same_u_refl
  | |- same_u _ (set_w _ _ _ _) => apply same_u_set_w'
  | |- same_u _ (for_range _ _ _ _) => apply same_u_for_range'; [|intros ? ? ?]
  | |- same_u _ (if ?c then _ else _) => destruct c
  | |- same_u _ (let '(_, _) := ?e in _) => destruct e
  | |- same_u _ _ => progress cbv beta zeta
  end.

Lemma beam_walls_same_u s : same_u s (beam_walls s).
Proof. unfold beam_walls. same_u_steps. Qed.

Lemma beam_corners_same_u s : same_u s (beam_corners s).
Proof. unfold beam_corners. same_u_steps. Qed.

Lemma beam_smoothing_same_u s : same_u s (beam_smoothing s).
Proof. unfold beam_smoothing, smooth_node. same_u_steps. Qed.

Lemma relax_vorticity_same_u s : same_u s (relax_vorticity s).
Proof. unfold relax_vorticity, relax_vorticity_node. same_u_steps. Qed.

(** ** Reynolds configuration *)

Lemma omega_table_steps (r : float) :
  ((r <=? 0.5)%float = true → omega_table r = 0.1%float)
  ∧ ((0.5 <? r)%float = true → (r <=? 1.0)%float = true →
     omega_table r = 0.08%float)
  ∧ ((1.0 <? r)%float = true → (r <=? 2.0)%float = true →
     omega_table r = 0.04%float)
  ∧ ((2.0 <? r)%float = true → (r <=? 5.0)%float = true →
     omega_table r = 0.012%float)
  ∧ ((5.0 <? r)%float = true → (r <=? 10.0)%float = true →
     omega_table r = 0.008%float)
  ∧ ((10.0 <? r)%float = true → omega_table r = 0.005%float).
Proof.
  unfold omega_table. repeat split.
  - by intros ->.
  - intros E1 E2. by rewrite (FloatOrder.ltb_leb_false _ _ E1), E2.
  - intros E1 E2.
    rewrite (FloatOrder.ltb_leb_false _ _ E1), E2.
    destruct (r <=? 0.5)%float eqn:E;
      [by pose proof (FloatOrder.ltb_leb_trans _ _ _ E1 E)|reflexivity].
  - intros E1 E2.
    rewrite (FloatOrder.ltb_leb_false _ _ E1), E2.
    destruct (r <=? 0.5)%float eqn:E;
      [by pose proof (FloatOrder.ltb_leb_trans _ _ _ E1 E)|].
    destruct (r <=? 1.0)%float eqn:E';
      [by pose proof (FloatOrder.ltb_leb_trans _ _ _ E1 E')|reflexivity].
  - intros E1 E2.
    rewrite (FloatOrder.ltb_leb_false _ _ E1), E2.
    destruct (r <=? 0.5)%float eqn:E;
      [by pose proof (FloatOrder.ltb_leb_trans _ _ _ E1 E)|].
    destruct (r <=? 1.0)%float eqn:E';
      [by pose proof (FloatOrder.ltb_leb_trans _ _ _ E1 E')|].
    destruct (r <=? 2.0)%float eqn:E'';
      [by pose proof (FloatOrder.ltb_leb_trans _ _ _ E1 E'')|reflexivity].
  - intros E1.
    rewrite (FloatOrder.ltb_leb_false _ _ E1).
    destruct (r <=? 0.5)%float eqn:E;
      [by pose proof (FloatOrder.ltb_leb_trans _ _ _ E1 E)|].
    destruct (r <=? 1.0)%float eqn:E';
      [by pose proof (FloatOrder.ltb_leb_trans _ _ _ E1 E')|].
    destruct (r <=? 2.0)%float eqn:E'';
      [by pose proof (FloatOrder.ltb_leb_trans _ _ _ E1 E'')|].
    destruct (r <=? 5.0)%float eqn:E''';
      [by pose proof (FloatOrder.ltb_leb_trans _ _ _ E1 E''')|reflexivity].
Qed.

Lemma omega_table_antitone (r1 r2 : float) :
  (r1 <=? r2)%float = true → (omega_table r2 <=? omega_table r1)%float = true.
Proof.
  intros E. unfold omega_table.
  destruct (r2 <=? 0.5)%float eqn:A.
  { by rewrite (FloatOrder.leb_trans _ _ _ E A). }
  destruct (r2 <=? 1.0)%float eqn:B.
  { rewrite (FloatOrder.leb_trans _ _ _ E B). by destruct (r1 <=? 0.5)%float. }
  destruct (r2 <=? 2.0)%float eqn:C.
  { rewrite (FloatOrder.leb_trans _ _ _ E C).
    by destruct (r1 <=? 0.5)%float, (r1 <=? 1.0)%float. }
  destruct (r2 <=? 5.0)%float eqn:D.
  { rewrite (FloatOrder.leb_trans _ _ _ E D).
    by destruct (r1 <=? 0.5)%float, (r1 <=? 1.0)%float, (r1 <=? 2.0)%float. }
  destruct (r2 <=? 10.0)%float eqn:F.
  { rewrite (FloatOrder.leb_trans _ _ _ E F).
    by destruct (r1 <=? 0.5)%float, (r1 <=? 1.0)%float, (r1 <=? 2.0)%float,
                (r1 <=? 5.0)%float. }
  by destruct (r1 <=? 0.5)%float, (r1 <=? 1.0)%float, (r1 <=? 2.0)%float,
              (r1 <=? 5.0)%float, (r1 <=? 10.0)%float.
Qed.

(** C8, as the code has it. [configure_reynolds] sets [nu = V0 * h / Re],
    the relaxation factor of the step table and the target itself, whatever
    the state it is called in, and touches nothing else; the table is the
    one the specification gives and never increases with the target. The
    mesh Reynolds number [V0 * h / nu] computed by [relax_until_converge]
    is the target itself for each of the four configured targets. *)
Theorem configure_reynolds_deterministic (re : float) (s1 s2 : state) :
  (nu (configure_reynolds re s1) = (V0 * h / re)%float
   ∧ omega (configure_reynolds re s1) = omega_table re
   ∧ R_target (configure_reynolds re s1) = re)
  ∧ (nu (configure_reynolds re s1) = nu (configure_reynolds re s2)
     ∧ omega (configure_reynolds re s1) = omega (configure_reynolds re s2))
  ∧ (u (configure_reynolds re s1) = u s1 ∧ w (configure_reynolds re s1) = w s1)
  ∧ (((re <=? 0.5)%float = true → omega_table re = 0.1%float)
     ∧ ((0.5 <? re)%float = true → (re <=? 1.0)%float = true →
        omega_table re = 0.08%float)
     ∧ ((1.0 <? re)%float = true → (re <=? 2.0)%float = true →
        omega_table re = 0.04%float)
     ∧ ((2.0 <? re)%float = true → (re <=? 5.0)%float = true →
        omega_table re = 0.012%float)
     ∧ ((5.0 <? re)%float = true → (re <=? 10.0)%float = true →
        omega_table re = 0.008%float)
     ∧ ((10.0 <? re)%float = true → omega_table re = 0.005%float))
  ∧ (∀ r1 r2 : float, (r1 <=? r2)%float = true →
       (omega_table r2 <=? omega_table r1)%float = true)
  ∧ (re ∈ reynolds_values →
     R (mesh_reynolds (configure_reynolds re s1)) = re).
Proof.
  split; [by repeat split|]. split; [by split|]. split; [by split|].
  split; [apply omega_table_steps|]. split; [apply omega_table_antitone|].
  unfold reynolds_values. rewrite !elem_of_cons, elem_of_nil.
  intros [->|[->|[->|[->|[]]]]]; vm_compute; reflexivity.
Qed.

Lemma configure_reynolds_deterministic_witness :
  5.0%float ∈ reynolds_values
  ∧ R (mesh_reynolds (configure_reynolds 5.0 initial_state)) = 5.0%float.
Proof.
  assert (5.0%float ∈ reynolds_values) as Hin
    by (unfold reynolds_values; rewrite !elem_of_cons; tauto).
  split; [exact Hin|].
  exact (proj2 (proj2 (proj2 (proj2 (proj2
           (configure_reynolds_deterministic 5.0 initial_state initial_state)))))
         Hin).
Defined.

(** Against C8 as the specification states it: for the target [49.0] the mesh Reynolds
    number the program computes is not [49.0]. *)
Lemma mesh_reynolds_not_exact :
  R (mesh_reynolds (configure_reynolds 49.0 initial_state)) ≠ 49.0%float.
Proof.
  intros E.
  assert ((R (mesh_reynolds (configure_reynolds 49.0 initial_state)) =? 49.0)%float
          = true) as F by (rewrite E; reflexivity).
  vm_compute in F. discriminate F.
Qed.

(** ** Corner treatment *)

Lemma rd_keeps (k : Z * Z) (s s' : state) :
  keeps k s s' →
  rd (u s') k.1 k.2 = rd (u s) k.1 k.2 ∧ rd (w s') k.1 k.2 = rd (w s) k.1 k.2.
Proof. destruct k as [i j]. unfold rd. simpl. by intros [-> ->]. Qed.

Lemma corner_blend_table (r a b : float) :
  ((r <? 5.0)%float = true → corner_blend r a b = (0.5 * (a + b))%float)
  ∧ ((5.0 <=? r)%float = true → (abs a <? abs b)%float = true →
     corner_blend r a b = (0.7 * a + 0.3 * b)%float)
  ∧ ((5.0 <=? r)%float = true → (abs b <? abs a)%float = true →
     corner_blend r a b = (0.3 * a + 0.7 * b)%float).
Proof.
  unfold corner_blend. repeat split.
  - intros E. by rewrite (FloatOrder.ltb_leb_false _ _ E).
  - by intros -> ->.
  - intros -> E. by rewrite (FloatOrder.ltb_asym _ _ E).
Qed.

Lemma beam_corners_values (s : state) :
  rd (w (beam_corners s)) (IL - 1) (H + 1) = left_corner_blend s
  ∧ rd (w (beam_corners s)) (IL + T + 1) (H + 1) = right_corner_blend s.
Proof.
  unfold beam_corners, left_corner_blend, right_corner_blend.
  change ((0 <? IL) && (H + 1 <=? Nymax)) with true.
  change ((IL + T + 1 <=? Nxmax) && (H + 1 <=? Nymax)) with true.
  cbv iota zeta. simpl. rewrite !rd_insert.
  split.
  - destruct (decide _) as [Heq|_]; [discriminate Heq|].
    destruct (decide _) as [_|Hne]; [reflexivity|by destruct Hne].
  - destruct (decide _) as [_|Hne]; [reflexivity|by destruct Hne].
Qed.

(** The smoothing pass only writes in the 3x3 block around the upper left
    corner. *)
Lemma beam_smoothing_far (s : state) (k : Z * Z) :
  ¬ (IL - 2 ≤ k.1 ≤ IL ∧ H ≤ k.2 ≤ H + 2) → keeps k s (beam_smoothing s).
Proof.
  destruct k as [i j]. simpl. intros Hfar. unfold beam_smoothing, smooth_node.
  keeps_steps; geom.
Qed.

Lemma beam_smoothing_off (s : state) :
  (5.0 <=? R_target s)%float = false → beam_smoothing s = s.
Proof. unfold beam_smoothing. by intros ->. Qed.

(** Outside the beam the stream function is not touched by the
    enforcement up to PASO 3. *)
Lemma beam_steps_u_outside (s : state) (i j : Z) :
  is_inside_beam i j = false →
  rd (u (beam_walls (beam_zero s))) i j = rd (u s) i j.
Proof.
  intros Hout. rewrite (beam_walls_same_u (beam_zero s)).
  apply (rd_keeps (i, j) s (beam_zero s)). by apply beam_zero_outside.
Qed.

Lemma beam_steps_corner_values (s : state) :
  rd (w (beam_corners (beam_walls (beam_zero s)))) (IL - 1) (H + 1)
  = left_corner_blend s
  ∧ rd (w (beam_corners (beam_walls (beam_zero s)))) (IL + T + 1) (H + 1)
    = right_corner_blend s.
Proof.
  destruct (beam_corners_values (beam_walls (beam_zero s))) as [-> ->].
  unfold left_corner_blend, right_corner_blend.
  rewrite !beam_steps_u_outside by reflexivity.
  destruct (beam_walls_scalars (beam_zero s)) as (_ & _ & -> & _).
  destruct (beam_zero_scalars s) as (_ & _ & -> & _).
  split; reflexivity.
Qed.

Lemma beam_boundaries_right_corner (s : state) :
  rd (w (beam_boundaries s)) (IL + T + 1) (H + 1) = right_corner_blend s.
Proof.
  destruct (beam_steps_corner_values s) as [_ <-].
  unfold beam_boundaries.
  apply (rd_keeps (IL + T + 1, H + 1) _ _).
  apply beam_smoothing_far. simpl. unfold IL, T, H. lia.
Qed.

(** ** Re-enforcement *)

Lemma state_eq (s1 s2 : state) :
  u s2 = u s1 → w s2 = w s1 → same_scalars s1 s2 → s2 = s1.
Proof.
  destruct s1, s2. unfold same_scalars. simpl.
  intros -> -> (-> & -> & -> & -> & -> & -> & ->). reflexivity.
Qed.

Lemma set_u_id (s : state) (i j : Z) (v : float) :
  u s !! (i, j) = Some v → set_u s i j v = s.
Proof.
  intros E. apply state_eq; simpl; [by apply insert_id|reflexivity|].
  apply same_scalars_set_u.
Qed.

Lemma set_w_id (s : state) (i j : Z) (v : float) :
  w s !! (i, j) = Some v → set_w s i j v = s.
Proof.
  intros E. apply state_eq; simpl; [reflexivity|by apply insert_id|].
  apply same_scalars_set_w.
Qed.

(** A loop that assigns to [w], at a key that identifies the pass, a value
    read off [u]. *)
Lemma wall_loop (lo hi : Z) (ki kj : Z → Z)
    (f : Z → gmap (Z * Z) float → float) (s : state) :
  (∀ a b, lo ≤ a ≤ hi → lo ≤ b ≤ hi → (ki a, kj a) = (ki b, kj b) → a = b) →
  (∀ j, lo ≤ j ≤ hi →
     w (for_range lo hi (λ j s, set_w s (ki j) (kj j) (f j (u s))) s)
       !! (ki j, kj j) = Some (f j (u s)))
  ∧ (∀ k, (∀ j, lo ≤ j ≤ hi → (ki j, kj j) ≠ k) →
       w (for_range lo hi (λ j s, set_w s (ki j) (kj j) (f j (u s))) s) !! k
       = w s !! k).
Proof.
  intros Hinj. split.
  - intros j Hj.
    assert (u (for_range lo hi (λ j s, set_w s (ki j) (kj j) (f j (u s))) s) = u s
            ∧ ∀ j, lo ≤ j < hi + 1 →
                w (for_range lo hi (λ j s, set_w s (ki j) (kj j) (f j (u s))) s)
                  !! (ki j, kj j) = Some (f j (u s))) as [_ Hall];
      [|apply Hall; lia].
    apply (for_range_ind
             (λ k x, u x = u s
                     ∧ ∀ j, lo ≤ j < k → w x !! (ki j, kj j) = Some (f j (u s))));
      [lia|split; [reflexivity|intros; lia]|].
    intros k x Hk [Hu Hw]. simpl. split; [exact Hu|].
    intros j' Hj'. destruct (decide (j' = k)) as [->|Hne].
    + rewrite lookup_insert_eq, Hu. reflexivity.
    + rewrite lookup_insert_ne; [apply Hw; lia|].
      intros Heq. apply Hne. symmetry. apply Hinj; [lia|lia|exact Heq].
  - intros k Hk.
    apply (for_range_inv (λ x, w x !! k = w s !! k)); [reflexivity|].
    intros j x Hj Hx. simpl. rewrite lookup_insert_ne; [exact Hx|by apply Hk].
Qed.

Lemma beam_walls_unfold (s : state) :
  beam_walls s
  = for_range IL (Z.min (IL + T) Nxmax) (λ i s,
      set_w s i (H + 1) (wall_vorticity (rd (u s) i (H + 2))))
      (for_range 1 (Z.min H (Nymax - 1)) (λ j s,
         set_w s (IL + T + 1) j (wall_vorticity (rd (u s) (IL + T + 2) j)))
         (for_range 1 (Z.min H (Nymax - 1)) (λ j s,
            set_w s (IL - 1) j (wall_vorticity (rd (u s) (IL - 2) j))) s)).
Proof. reflexivity. Qed.

Lemma beam_walls_values (s : state) :
  (∀ j, 1 ≤ j ≤ H →
     w (beam_walls s) !! (IL - 1, j)
     = Some (wall_vorticity (rd (u s) (IL - 2) j)))
  ∧ (∀ j, 1 ≤ j ≤ H →
       w (beam_walls s) !! (IL + T + 1, j)
       = Some (wall_vorticity (rd (u s) (IL + T + 2) j)))
  ∧ (∀ i, IL ≤ i ≤ IL + T →
       w (beam_walls s) !! (i, H + 1)
       = Some (wall_vorticity (rd (u s) i (H + 2)))).
Proof.
  rewrite beam_walls_unfold.
  set (front := for_range 1 (Z.min H (Nymax - 1)) (λ j s,
         set_w s (IL - 1) j (wall_vorticity (rd (u s) (IL - 2) j))) s).
  set (back := for_range 1 (Z.min H (Nymax - 1)) (λ j s,
         set_w s (IL + T + 1) j (wall_vorticity (rd (u s) (IL + T + 2) j))) front).
  assert (u front = u s) as Hfront.
  { unfold front. apply (same_u_for_range' _ _ _ s s); [reflexivity|].
    intros. reflexivity. }
  assert (u back = u s) as Hback.
  { rewrite <- Hfront. unfold back.
    apply (same_u_for_range' _ _ _ front front); [reflexivity|].
    intros. reflexivity. }
  destruct (wall_loop 1 (Z.min H (Nymax - 1)) (λ _, IL - 1) (λ j, j)
              (λ j a, wall_vorticity (rd a (IL - 2) j)) s) as [F1 _];
    [intros a b _ _ Heq; by injection Heq|].
  destruct (wall_loop 1 (Z.min H (Nymax - 1)) (λ _, IL + T + 1) (λ j, j)
              (λ j a, wall_vorticity (rd a (IL + T + 2) j)) front) as [B1 B2];
    [intros a b _ _ Heq; by injection Heq|].
  destruct (wall_loop IL (Z.min (IL + T) Nxmax) (λ i, i) (λ _, H + 1)
              (λ i a, wall_vorticity (rd a i (H + 2))) back) as [T1 T2];
    [intros a b _ _ Heq; by injection Heq|].
  cbv beta in F1, B1, B2, T1, T2. fold front in F1, B1, B2. fold back in B1, B2, T1, T2.
  split; [|split].
  - intros j Hj. rewrite T2 by (intros; geom). rewrite B2 by (intros; geom).
    apply F1. geom.
  - intros j Hj. rewrite T2 by (intros; geom). rewrite <- Hfront.
    apply B1. geom.
  - intros i Hi. rewrite <- Hback. apply T1. geom.
Qed.

Lemma beam_corners_unfold (s : state) :
  beam_corners s
  = set_w (set_w s (IL - 1) (H + 1) (left_corner_blend s))
          (IL + T + 1) (H + 1) (right_corner_blend s).
Proof. reflexivity. Qed.

Lemma beam_steps_enforced (s : state) :
  enforced (beam_corners (beam_walls (beam_zero s))).
Proof.
  set (z := beam_zero s). set (v := beam_walls z).
  assert (u v = u z) as Huv by apply beam_walls_same_u.
  assert (u (beam_corners v) = u v) as Huc by apply beam_corners_same_u.
  destruct (beam_corners_scalars v) as (_ & _ & HR & _).
  assert (left_corner_blend (beam_corners v) = left_corner_blend v) as Hl.
  { unfold left_corner_blend. by rewrite Huc, HR. }
  assert (right_corner_blend (beam_corners v) = right_corner_blend v) as Hr.
  { unfold right_corner_blend. by rewrite Huc, HR. }
  destruct (beam_walls_values z) as (Hf & Hb & Ht). fold v in Hf, Hb, Ht.
  unfold enforced. rewrite Hl, Hr, Huc, Huv. clear Hl Hr HR.
  rewrite beam_corners_unfold. simpl.
  split; [|split; [|split; [|split; [|split]]]].
  - intros i j Hin.
    destruct (beam_zero_inside s i j Hin) as [Hu Hw]. fold z in Hu, Hw.
    split; [exact Hu|].
    rewrite !lookup_insert_ne by geom.
    destruct (beam_walls_inside z (i, j) Hin) as [_ Hk]. fold v in Hk.
    rewrite Hk. exact Hw.
  - intros j Hj. rewrite !lookup_insert_ne by geom. by apply Hf.
  - intros j Hj. rewrite !lookup_insert_ne by geom. by apply Hb.
  - intros i Hi. rewrite !lookup_insert_ne by geom. by apply Ht.
  - rewrite lookup_insert_ne by geom. by rewrite lookup_insert_eq.
  - by rewrite lookup_insert_eq.
Qed.

Lemma enforced_fixed (t : state) :
  enforced t → beam_corners (beam_walls (beam_zero t)) = t.
Proof.
  intros (Hz & Hf & Hb & Ht & Hl & Hr).
  assert (beam_zero t = t) as ->.
  { unfold beam_zero.
    apply (for_range_inv (λ x, x = t)); [reflexivity|]. intros i x Hi ->.
    apply (for_range_inv (λ x, x = t)); [reflexivity|]. intros j x Hj ->.
    destruct (Hz i j) as [Hu Hw]; [apply inside_spec; geom|].
    rewrite (set_u_id _ _ _ _ Hu). by apply set_w_id. }
  assert (beam_walls t = t) as ->.
  { rewrite beam_walls_unfold.
    assert (for_range 1 (Z.min H (Nymax - 1)) (λ j s,
              set_w s (IL - 1) j (wall_vorticity (rd (u s) (IL - 2) j))) t = t)
      as ->.
    { apply (for_range_inv (λ x, x = t)); [reflexivity|]. intros j x Hj ->.
      apply set_w_id, Hf. geom. }
    assert (for_range 1 (Z.min H (Nymax - 1)) (λ j s,
              set_w s (IL + T + 1) j
                    (wall_vorticity (rd (u s) (IL + T + 2) j))) t = t) as ->.
    { apply (for_range_inv (λ x, x = t)); [reflexivity|]. intros j x Hj ->.
      apply set_w_id, Hb. geom. }
    apply (for_range_inv (λ x, x = t)); [reflexivity|]. intros i x Hi ->.
    apply set_w_id, Ht. geom. }
  rewrite beam_corners_unfold.
  rewrite (set_w_id _ _ _ _ Hl). by apply set_w_id.
Qed.

Lemma beam_boundaries_enforced (s : state) :
  (5.0 <=? R_target s)%float = false → enforced (beam_boundaries s).
Proof.
  intros Hoff. unfold beam_boundaries.
  rewrite beam_smoothing_off; [apply beam_steps_enforced|].
  destruct (beam_corners_scalars (beam_walls (beam_zero s))) as (_ & _ & -> & _).
  destruct (beam_walls_scalars (beam_zero s)) as (_ & _ & -> & _).
  destruct (beam_zero_scalars s) as (_ & _ & -> & _).
  exact Hoff.
Qed.

Lemma enforced_beam_boundaries (t : state) :
  enforced t → (5.0 <=? R_target t)%float = false → beam_boundaries t = t.
Proof.
  intros He Hoff. unfold beam_boundaries.
  rewrite (enforced_fixed t He). by apply beam_smoothing_off.
Qed.

(** C7, as the code has it. While the smoothing pass is off, that is,
    unless [R_target >= 5.0], a second call of [beam_boundaries] right after
    the first changes nothing. *)
Theorem beam_boundaries_idempotent (s : state) :
  (5.0 <=? R_target s)%float = false →
  beam_boundaries (beam_boundaries s) = beam_boundaries s.
Proof.
  intros Hoff. apply enforced_beam_boundaries.
  - by apply beam_boundaries_enforced.
  - destruct (beam_boundaries_scalars s) as (_ & _ & -> & _). exact Hoff.
Qed.

Lemma beam_boundaries_idempotent_witness :
  (5.0 <=? R_target (configure_reynolds 2.0 initial_state))%float = false
  ∧ beam_boundaries (beam_boundaries (configure_reynolds 2.0 initial_state))
    = beam_boundaries (configure_reynolds 2.0 initial_state).
Proof.
  exact (conj eq_refl
           (beam_boundaries_idempotent (configure_reynolds 2.0 initial_state)
                                       eq_refl)).
Defined.

(** Against C7 as the specification states it: with the smoothing pass on, the second call
    blends the spike once more. *)
Lemma beam_boundaries_not_idempotent :
  rd (w (beam_boundaries spike_state)) 8 10 = 60.0%float
  ∧ rd (w (beam_boundaries (beam_boundaries spike_state))) 8 10 = 36.0%float
  ∧ beam_boundaries (beam_boundaries spike_state) ≠ beam_boundaries spike_state.
Proof.
  assert (rd (w (beam_boundaries spike_state)) 8 10 = 60.0%float) as E1
    by (vm_compute; reflexivity).
  assert (rd (w (beam_boundaries (beam_boundaries spike_state))) 8 10
          = 36.0%float) as E2 by (vm_compute; reflexivity).
  split; [exact E1|]. split; [exact E2|].
  intros E. rewrite E, E1 in E2.
  assert ((60.0 =? 36.0)%float = true) as F by (rewrite E2; reflexivity).
  vm_compute in F. discriminate F.
Qed.

(** ** One pass of the convergence loop *)

(** Two nested loops visit the pairs of their ranges in row order. *)
Lemma for_range2_foldl {A : Type} (ilo ihi jlo jhi : Z)
    (body : Z → Z → A → A) (a : A) :
  for_range ilo ihi (λ i, for_range jlo jhi (body i)) a
  = foldl (λ a p, body p.1 p.2 a) a
          (i ← seqZ ilo (ihi - ilo + 1); j ← seqZ jlo (jhi - jlo + 1); [(i, j)]).
Proof.
  rewrite for_range_foldl. generalize (seqZ ilo (ihi - ilo + 1)) as rows.
  intros rows. revert a. induction rows as [|i rows IH]; intros a; [reflexivity|].
  simpl. rewrite foldl_app, <- IH. f_equal.
  rewrite for_range_foldl. generalize (seqZ jlo (jhi - jlo + 1)) as cols.
  intros cols. revert a. induction cols as [|j cols IHc]; intros a; [reflexivity|].
  simpl. apply IHc.
Qed.

Lemma foldl_skip {A B : Type} (t : B → bool) (f : A → B → A) (l : list B) (a : A) :
  foldl (λ a x, if t x then a else f a x) a l
  = foldl f a (filter (λ x, t x = false) l).
Proof.
  revert a. induction l as [|x l IH]; intros a; [reflexivity|].
  simpl. destruct (t x) eqn:E.
  - rewrite filter_cons_False by congruence. apply IH.
  - rewrite filter_cons_True by assumption. simpl. apply IH.
Qed.

Lemma foldl_pair {A B C : Type} (f : A → C → A) (g : B → C → B)
    (l : list C) (a : A) (b : B) :
  foldl (λ acc x, (f acc.1 x, g acc.2 x)) (a, b) l = (foldl f a l, foldl g b l).
Proof.
  revert a b. induction l as [|x l IH]; intros a b; [reflexivity|].
  simpl. apply IH.
Qed.

Lemma foldl_ext_in {A B : Type} (f g : A → B → A) (l : list B) (a : A) :
  (∀ a x, x ∈ l → f a x = g a x) → foldl f a l = foldl g a l.
Proof.
  revert a. induction l as [|x l IH]; intros a Hfg; [reflexivity|].
  simpl. rewrite Hfg by (apply elem_of_cons; by left).
  apply IH. intros b y Hy. apply Hfg. apply elem_of_cons. by right.
Qed.

Lemma interior_nodes_spec (p : Z * Z) :
  p ∈ interior_nodes
  ↔ is_inside_beam p.1 p.2 = false ∧ 1 ≤ p.1 < Nxmax ∧ 1 ≤ p.2 < Nymax.
Proof.
  unfold interior_nodes. rewrite list_elem_of_filter, list_elem_of_bind.
  split.
  - intros (Hout & i & Hp & Hi). apply list_elem_of_bind in Hp.
    destruct Hp as (j & Hp & Hj). apply list_elem_of_singleton in Hp. subst p.
    apply elem_of_seqZ in Hi, Hj. simpl in *. split; [exact Hout|]. lia.
  - intros (Hout & Hi & Hj). split; [exact Hout|].
    exists p.1. split; [|apply elem_of_seqZ; lia].
    apply list_elem_of_bind. exists p.2.
    split; [destruct p; apply list_elem_of_singleton; reflexivity|].
    apply elem_of_seqZ. lia.
Qed.

Lemma snapshot_spec (a : gmap (Z * Z) float) (i j : Z) :
  on_grid i j → rd (snapshot a) i j = rd a i j.
Proof.
  intros [Hi Hj]. apply rd_Some. unfold snapshot.
  apply (for_range2_all (λ i j (old : gmap (Z * Z) float),
                           old !! (i, j) = Some (rd a i j)));
    [| |exact Hi|exact Hj].
  - intros. by rewrite lookup_insert_eq.
  - intros i1 j1 i2 j2 old _ _ Hne Hold. by rewrite lookup_insert_ne by congruence.
Qed.

Lemma max_differences_spec (u_old w_old : gmap (Z * Z) float) (s : state) :
  max_differences u_old w_old s
  = (foldl (λ m p, fmax m (abs (rd (u s) p.1 p.2 - rd u_old p.1 p.2)))
           0%float interior_nodes,
     foldl (λ m p, fmax m (abs (rd (w s) p.1 p.2 - rd w_old p.1 p.2)))
           0%float interior_nodes).
Proof.
  unfold max_differences.
  rewrite (for_range2_foldl 1 (Nxmax - 1) 1 (Nymax - 1)
             (λ i j (acc : float * float),
                if is_inside_beam i j then acc
                else (fmax acc.1 (abs (rd (u s) i j - rd u_old i j)),
                      fmax acc.2 (abs (rd (w s) i j - rd w_old i j))))).
  rewrite (foldl_skip (λ p : Z * Z, is_inside_beam p.1 p.2)
             (λ (acc : float * float) p,
                (fmax acc.1 (abs (rd (u s) p.1 p.2 - rd u_old p.1 p.2)),
                 fmax acc.2 (abs (rd (w s) p.1 p.2 - rd w_old p.1 p.2))))).
  apply (foldl_pair
           (λ m (p : Z * Z), fmax m (abs (rd (u s) p.1 p.2 - rd u_old p.1 p.2)))
           (λ m (p : Z * Z), fmax m (abs (rd (w s) p.1 p.2 - rd w_old p.1 p.2)))).
Qed.

Lemma max_change_snapshot (a b : gmap (Z * Z) float) :
  foldl (λ m p, fmax m (abs (rd b p.1 p.2 - rd (snapshot a) p.1 p.2)))
        0%float interior_nodes
  = max_change a b.
Proof.
  unfold max_change. apply foldl_ext_in. intros m p Hp.
  apply interior_nodes_spec in Hp. rewrite snapshot_spec; [reflexivity|].
  unfold on_grid. lia.
Qed.

(** C2, as the code has it. A pass of the loop first applies
    [beam_boundaries], then takes the snapshot of both fields, runs the
    stream-function sweep and the vorticity sweep, applies
    [beam_boundaries] again, and takes for each field the largest absolute
    change against that snapshot over the interior nodes outside the
    beam. *)
Theorem iteration_order (s : state) :
  iteration s
  = (beam_boundaries
       (relax_vorticity (relax_stream_function (beam_boundaries s))),
     max_change (u (beam_boundaries s))
       (u (beam_boundaries
             (relax_vorticity (relax_stream_function (beam_boundaries s))))),
     max_change (w (beam_boundaries s))
       (w (beam_boundaries
             (relax_vorticity (relax_stream_function (beam_boundaries s)))))).
Proof.
  unfold iteration. rewrite max_differences_spec, !max_change_snapshot.
  reflexivity.
Qed.

Lemma ltb_neq {A : Type} (f : A → float) (x y : A) :
  (f x <? f y)%float = true → x ≠ y.
Proof. intros E ->. by rewrite FloatOrder.ltb_irrefl in E. Qed.

(** Against C2 as the specification states it: in the first pass of the run at [Re = 0.5]
    the change of the vorticity against a snapshot taken before the
    enforcement is larger than the one the program computes. *)
Lemma iteration_not_snapshot_first :
  ((iteration (prepare_run 0.5 initial_state)).2
   <? (iteration_snapshot_first (prepare_run 0.5 initial_state)).2)%float = true
  ∧ iteration (prepare_run 0.5 initial_state)
    ≠ iteration_snapshot_first (prepare_run 0.5 initial_state).
Proof.
  assert (((iteration (prepare_run 0.5 initial_state)).2
           <? (iteration_snapshot_first (prepare_run 0.5 initial_state)).2)%float
          = true) as E by (vm_compute; reflexivity).
  split; [exact E|].
  exact (@ltb_neq (state * float * float) snd
           (iteration (prepare_run 0.5 initial_state))
           (iteration_snapshot_first (prepare_run 0.5 initial_state)) E).
Qed.

(** ** The convergence loop *)

Lemma relax_loop_unfold (fuel : nat) (max_iterations : Z) (effective_tol : float)
    (iter : Z) (s : state) :
  relax_loop (S fuel) max_iterations effective_tol iter s
  = let '(s, max_diff_u, max_diff_w) := iteration s in
    let iter := iter + 1 in
    if diverging (R_target s) max_diff_u max_diff_w then
      Some (Return_false s)
    else if (max_diff_u <? effective_tol)%float
            && (max_diff_w <? effective_tol)%float then
      Some (Loop_done iter max_diff_u max_diff_w s)
    else
      let '(s, stop) :=
        if (max_diff_u <? effective_tol)%float && (50000 <? iter)
        then stagnation_check max_diff_w s else (s, false) in
      if stop then Some (Loop_done iter max_diff_u max_diff_w s)
      else if iter <? max_iterations then
        relax_loop fuel max_iterations effective_tol iter s
      else Some (Loop_done iter max_diff_u max_diff_w s).
Proof. reflexivity. Qed.

Lemma relax_loop_next (fuel : nat) (max_iterations : Z) (effective_tol : float)
    (iter iter' : Z) (s s' : state) :
  loop_next max_iterations effective_tol iter s = Some (iter', s') →
  relax_loop (S fuel) max_iterations effective_tol iter s
  = relax_loop fuel max_iterations effective_tol iter' s'.
Proof.
  rewrite relax_loop_unfold. unfold loop_next.
  destruct (iteration s) as [[s1 du] dw]. cbv zeta.
  destruct (diverging (R_target s1) du dw); [discriminate|].
  destruct ((du <? effective_tol)%float && (dw <? effective_tol)%float);
    [discriminate|].
  destruct (if (du <? effective_tol)%float && (50000 <? iter + 1)
            then stagnation_check dw s1 else (s1, false)) as [s2 stop].
  destruct stop; [discriminate|].
  destruct (iter + 1 <? max_iterations); [|discriminate].
  intros E. injection E as <- <-. reflexivity.
Qed.

Lemma relax_loop_reaches (max_iterations : Z) (effective_tol : float)
    (fuel : nat) (iter : Z) (s : state) (fuel' : nat) (iter' : Z) (s' : state) :
  loop_reaches max_iterations effective_tol fuel iter s fuel' iter' s' →
  relax_loop fuel max_iterations effective_tol iter s
  = relax_loop fuel' max_iterations effective_tol iter' s'.
Proof.
  induction 1 as [|fuel iter s iter1 s1 fuel' iter' s' Hnext _ IH]; [reflexivity|].
  rewrite (relax_loop_next _ _ _ _ _ _ _ Hnext). exact IH.
Qed.

Lemma relax_loop_diverging (fuel : nat) (max_iterations : Z)
    (effective_tol : float) (iter : Z) (s : state) :
  diverging (R_target s) (iteration s).1.2 (iteration s).2 = true →
  relax_loop (S fuel) max_iterations effective_tol iter s
  = Some (Return_false (iteration s).1.1).
Proof.
  rewrite relax_loop_unfold.
  destruct (iteration_scalars s) as (_ & _ & HR & _). revert HR.
  destruct (iteration s) as [[s1 du] dw]. simpl. by intros -> ->.
Qed.

Lemma stagnation_check_scalars (max_diff_w : float) (s : state) :
  R_target (stagnation_check max_diff_w s).1 = R_target s
  ∧ exports (stagnation_check max_diff_w s).1 = exports s.
Proof. by split. Qed.

Lemma loop_next_scalars (max_iterations : Z) (effective_tol : float)
    (iter iter' : Z) (s s' : state) :
  loop_next max_iterations effective_tol iter s = Some (iter', s') →
  R_target s' = R_target s ∧ exports s' = exports s ∧ iter' = iter + 1
  ∧ iter' < max_iterations.
Proof.
  unfold loop_next.
  destruct (iteration_scalars s) as (_ & _ & HR & _ & _ & _ & He). revert HR He.
  destruct (iteration s) as [[s1 du] dw]. simpl. intros HR He.
  destruct (diverging (R_target s1) du dw); [discriminate|].
  destruct ((du <? effective_tol)%float && (dw <? effective_tol)%float);
    [discriminate|].
  destruct ((du <? effective_tol)%float && (50000 <? iter + 1)).
  - pose proof (stagnation_check_scalars dw s1) as [HR2 He2]. revert HR2 He2.
    destruct (stagnation_check dw s1) as [s2 stop]. simpl. intros HR2 He2.
    destruct stop; [discriminate|].
    destruct (iter + 1 <? max_iterations) eqn:Hlt; [|discriminate].
    intros E. injection E as <- <-. apply Z.ltb_lt in Hlt.
    repeat split; [congruence|congruence|exact Hlt].
  - destruct (iter + 1 <? max_iterations) eqn:Hlt; [|discriminate].
    intros E. injection E as <- <-. apply Z.ltb_lt in Hlt. by repeat split.
Qed.

Lemma loop_reaches_scalars (max_iterations : Z) (effective_tol : float)
    (fuel : nat) (iter : Z) (s : state) (fuel' : nat) (iter' : Z) (s' : state) :
  loop_reaches max_iterations effective_tol fuel iter s fuel' iter' s' →
  R_target s' = R_target s ∧ exports s' = exports s.
Proof.
  induction 1 as [|fuel iter s iter1 s1 fuel' iter' s' Hnext _ IH]; [by split|].
  destruct (loop_next_scalars _ _ _ _ _ _ Hnext) as (HR & He & _).
  destruct IH as [-> ->]. by split.
Qed.

(** The loop always comes to an end within its fuel. *)
Lemma relax_loop_total (max_iterations : Z) (effective_tol : float)
    (fuel : nat) (iter : Z) (s : state) :
  1 ≤ Z.of_nat fuel → max_iterations - iter ≤ Z.of_nat fuel →
  is_Some (relax_loop fuel max_iterations effective_tol iter s).
Proof.
  revert iter s. induction fuel as [|fuel IH]; intros iter s H1 H2; [lia|].
  rewrite relax_loop_unfold.
  destruct (iteration s) as [[s1 du] dw]. cbv zeta.
  destruct (diverging (R_target s1) du dw); [by eexists|].
  destruct ((du <? effective_tol)%float && (dw <? effective_tol)%float);
    [by eexists|].
  destruct (if (du <? effective_tol)%float && (50000 <? iter + 1)
            then stagnation_check dw s1 else (s1, false)) as [s2 stop].
  destruct stop; [by eexists|].
  destruct (iter + 1 <? max_iterations) eqn:Hlt; [|by eexists].
  apply Z.ltb_lt in Hlt. apply IH; lia.
Qed.

Lemma relax_until_converge_total (max_iterations : Z) (s : state) :
  is_Some (relax_until_converge max_iterations s).
Proof.
  unfold relax_until_converge. apply fmap_is_Some, relax_loop_total; lia.
Qed.

Lemma run_simulation_total (reynolds : float) (s : state) :
  is_Some (run_simulation reynolds s).
Proof. unfold run_simulation. apply fmap_is_Some, relax_until_converge_total. Qed.

Lemma configure_reynolds_fields (reynolds : float) (s : state) :
  R_target (configure_reynolds reynolds s) = reynolds
  ∧ last_w_error (configure_reynolds reynolds s) = last_w_error s
  ∧ stagnant_count (configure_reynolds reynolds s) = stagnant_count s
  ∧ exports (configure_reynolds reynolds s) = exports s.
Proof. by repeat split. Qed.

Lemma prepare_run_scalars (reynolds : float) (s : state) :
  R_target (prepare_run reynolds s) = reynolds
  ∧ last_w_error (prepare_run reynolds s) = last_w_error s
  ∧ stagnant_count (prepare_run reynolds s) = stagnant_count s
  ∧ exports (prepare_run reynolds s) = exports s.
Proof.
  unfold prepare_run.
  destruct (borders_scalars (configure_reynolds reynolds (reset_fields s)))
    as (_ & _ & -> & _ & -> & -> & ->).
  destruct (reset_fields_scalars s) as (_ & _ & _ & _ & Hl & Hc & He).
  revert Hl Hc He. generalize (reset_fields s). intros s0 Hl Hc He.
  destruct (configure_reynolds_fields reynolds s0) as (-> & -> & -> & ->).
  repeat split; assumption.
Qed.

Lemma diverging_spec (r_target max_diff_u max_diff_w : float) :
  diverging r_target max_diff_u max_diff_w = true
  ↔ is_nan max_diff_u = true ∨ is_nan max_diff_w = true
    ∨ (divergence_threshold r_target <? max_diff_u)%float = true
    ∨ (divergence_threshold r_target <? max_diff_w)%float = true.
Proof. unfold diverging. rewrite !orb_true_iff. tauto. Qed.

Lemma mesh_reynolds_fields (s : state) :
  R_target (mesh_reynolds s) = R_target s ∧ exports (mesh_reynolds s) = exports s
  ∧ last_w_error (mesh_reynolds s) = last_w_error s
  ∧ stagnant_count (mesh_reynolds s) = stagnant_count s.
Proof. by repeat split. Qed.

Lemma relax_until_converge_diverged (max_iterations : Z) (s s1 : state) :
  relax_loop (S (Z.to_nat max_iterations)) max_iterations
    (effective_tolerance (R_target (mesh_reynolds s))) 0 (mesh_reynolds s)
  = Some (Return_false s1) →
  relax_until_converge max_iterations s = Some (false, s1).
Proof. unfold relax_until_converge. by intros ->. Qed.

Lemma run_simulation_failed (reynolds : float) (s s1 : state) :
  relax_until_converge default_max_iterations (prepare_run reynolds s)
  = Some (false, s1) →
  run_simulation reynolds s = Some (false, s1).
Proof. unfold run_simulation. by intros ->. Qed.

Lemma run_sweep_failed (reynolds : float) (rest : list float) (n : Z)
    (s s1 : state) :
  run_simulation reynolds s = Some (false, s1) →
  run_sweep (reynolds :: rest) n s = run_sweep rest n s1.
Proof. intros E. simpl. by rewrite E. Qed.

Lemma run_sweep_cons (reynolds : float) (rest : list float) (n : Z)
    (s : state) (r : bool * state) :
  run_simulation reynolds s = Some r →
  run_sweep (reynolds :: rest) n s
  = run_sweep rest (if r.1 then n + 1 else n) r.2.
Proof. intros E. simpl. by rewrite E. Qed.

(** The sweep of [main] runs every target and returns; a run adds at most
    one to the number of successful simulations. *)
Lemma run_sweep_returns (targets : list float) (n : Z) (s : state) :
  ∃ n' s', run_sweep targets n s = Some (n', s')
           ∧ n ≤ n' ≤ n + Z.of_nat (length targets).
Proof.
  revert n s. induction targets as [|re rest IH]; intros n s.
  - exists n, s. split; [reflexivity|]. simpl. lia.
  - destruct (run_simulation_total re s) as [r Hrun].
    destruct (IH (if r.1 then n + 1 else n) r.2) as (n' & s' & Hrest & Hn).
    exists n', s'. rewrite (run_sweep_cons _ _ _ _ _ Hrun).
    split; [exact Hrest|]. clear Hrest Hrun.
    destruct r as [[] s1]; cbn [fst snd] in *; simpl length; lia.
Qed.

(** The loop is its reduction followed by [pass_tail]. *)
Lemma relax_loop_pass_tail (fuel : nat) (max_iterations : Z)
    (effective_tol : float) (iter : Z) (s : state) :
  relax_loop (S fuel) max_iterations effective_tol iter s
  = match pass_tail max_iterations effective_tol iter
            (iteration s).1.1 (iteration s).1.2 (iteration s).2 with
    | inl e => Some e
    | inr (iter', s') => relax_loop fuel max_iterations effective_tol iter' s'
    end.
Proof.
  rewrite relax_loop_unfold. unfold pass_tail.
  destruct (iteration s) as [[s1 du] dw]. cbn [fst snd]. cbv zeta.
  destruct (diverging (R_target s1) du dw); [reflexivity|].
  destruct ((du <? effective_tol)%float && (dw <? effective_tol)%float);
    [reflexivity|].
  destruct (if (du <? effective_tol)%float && (50000 <? iter + 1)
            then stagnation_check dw s1 else (s1, false)) as [s2 stop].
  destruct stop; [reflexivity|].
  destruct (iter + 1 <? max_iterations); reflexivity.
Qed.

Lemma pass_tail_diverging (max_iterations : Z) (effective_tol : float)
    (iter : Z) (s : state) (max_diff_u max_diff_w : float) :
  diverging (R_target s) max_diff_u max_diff_w = true →
  pass_tail max_iterations effective_tol iter s max_diff_u max_diff_w
  = inl (Return_false s).
Proof. unfold pass_tail. cbv zeta. by intros ->. Qed.

(** C4. The divergence test of the loop fires on a change norm that is NaN
    or above the divergence threshold ([50.0] from [Re = 5.0] on, [1000.0]
    below): whatever the two norms a pass hands to it, the loop is then left
    by [return false], and every pass of the loop goes through this test.
    The reduction itself never yields NaN, so in a run it is a norm above
    the threshold that fires it. Whenever a pass of a run ends with such a
    norm, [relax_until_converge] returns [false] with the state of that
    pass; [run_simulation] returns [false] with that same state, nothing
    normalised and nothing exported; and the sweep of [main] goes on: it
    runs the next target from that state and returns once every remaining
    target was run, the failed run not counted. *)
Theorem divergence_aborts_run (reynolds : float) (s : state)
    (fuel : nat) (iter : Z) (s' : state) (next : float) (rest : list float)
    (n : Z) :
  loop_reaches default_max_iterations
    (effective_tolerance (R_target (mesh_reynolds (prepare_run reynolds s))))
    (S (Z.to_nat default_max_iterations)) 0
    (mesh_reynolds (prepare_run reynolds s)) (S fuel) iter s' →
  ((if (5.0 <=? reynolds)%float then 50.0 else 1000.0)
   <? (iteration s').1.2)%float = true
  ∨ ((if (5.0 <=? reynolds)%float then 50.0 else 1000.0)
     <? (iteration s').2)%float = true →
  (∀ (max_iterations : Z) (effective_tol : float) (it : Z) (s1 : state)
     (max_diff_u max_diff_w : float),
     is_nan max_diff_u = true ∨ is_nan max_diff_w = true
     ∨ ((if (5.0 <=? R_target s1)%float then 50.0 else 1000.0)
        <? max_diff_u)%float = true
     ∨ ((if (5.0 <=? R_target s1)%float then 50.0 else 1000.0)
        <? max_diff_w)%float = true →
     pass_tail max_iterations effective_tol it s1 max_diff_u max_diff_w
     = inl (Return_false s1)
     ∧ loop_result max_iterations effective_tol (Return_false s1) = (false, s1))
  ∧ (∀ (fuel0 : nat) (max_iterations : Z) (effective_tol : float) (it : Z)
       (s0 : state),
       relax_loop (S fuel0) max_iterations effective_tol it s0
       = match pass_tail max_iterations effective_tol it
                 (iteration s0).1.1 (iteration s0).1.2 (iteration s0).2 with
         | inl e => Some e
         | inr (it', s1) =>
           relax_loop fuel0 max_iterations effective_tol it' s1
         end)
  ∧ relax_until_converge default_max_iterations (prepare_run reynolds s)
    = Some (false, (iteration s').1.1)
  ∧ run_simulation reynolds s = Some (false, (iteration s').1.1)
  ∧ exports (iteration s').1.1 = exports s
  ∧ (∃ r, run_simulation next (iteration s').1.1 = Some r
          ∧ run_sweep (reynolds :: next :: rest) n s
            = run_sweep rest (if r.1 then n + 1 else n) r.2)
  ∧ run_sweep [reynolds] n s = Some (n, (iteration s').1.1)
  ∧ (∃ n' s_end, run_sweep (reynolds :: rest) n s = Some (n', s_end)
                 ∧ n ≤ n' ≤ n + Z.of_nat (length rest)).
Proof.
  intros Hreach Hdiv.
  split.
  { intros max_iterations effective_tol it s1 du dw Hfire.
    split; [|reflexivity].
    apply pass_tail_diverging, diverging_spec. exact Hfire. }
  split; [intros; apply relax_loop_pass_tail|].
  destruct (loop_reaches_scalars _ _ _ _ _ _ _ _ Hreach) as [HR He].
  destruct (mesh_reynolds_fields (prepare_run reynolds s)) as (HR1 & He1 & _).
  destruct (prepare_run_scalars reynolds s) as (HR0 & _ & _ & He0).
  rewrite HR1, HR0 in HR. rewrite He1, He0 in He.
  assert (relax_until_converge default_max_iterations (prepare_run reynolds s)
          = Some (false, (iteration s').1.1)) as Hloop.
  { apply relax_until_converge_diverged.
    rewrite (relax_loop_reaches _ _ _ _ _ _ _ _ Hreach).
    apply relax_loop_diverging, diverging_spec. rewrite HR.
    right. right. exact Hdiv. }
  pose proof (run_simulation_failed _ _ _ Hloop) as Hrun.
  split; [exact Hloop|]. split; [exact Hrun|].
  split.
  { destruct (iteration_scalars s') as (_ & _ & _ & _ & _ & _ & ->). exact He. }
  clear Hloop Hreach Hdiv HR He HR1 He1 HR0 He0.
  revert Hrun. generalize (iteration s').1.1 as s1. intros s1 Hrun.
  split; [|split].
  - destruct (run_simulation_total next s1) as [r Hnext].
    exists r. split; [exact Hnext|].
    rewrite (run_sweep_failed _ _ _ _ _ Hrun).
    exact (run_sweep_cons _ _ _ _ _ Hnext).
  - rewrite (run_sweep_failed _ _ _ _ _ Hrun). reflexivity.
  - rewrite (run_sweep_failed _ _ _ _ _ Hrun). apply run_sweep_returns.
Qed.

(** The run at [Re = 1e6] leaves its loop in the first pass, the vorticity
    norm above [50.0]; a NaN norm handed to the test fires it as well. *)
Lemma divergence_aborts_run_witness :
  ((if (5.0 <=? 1e6)%float then 50.0 else 1000.0)
   <? (iteration (mesh_reynolds (prepare_run 1e6 initial_state))).2)%float = true
  ∧ run_simulation 1e6 initial_state
    = Some (false, (iteration (mesh_reynolds (prepare_run 1e6 initial_state))).1.1)
  ∧ pass_tail default_max_iterations tol 0 initial_state nan 0
    = inl (Return_false initial_state).
Proof.
  assert (((if (5.0 <=? 1e6)%float then 50.0 else 1000.0)
           <? (iteration (mesh_reynolds (prepare_run 1e6 initial_state))).2)%float
          = true) as Hdiv by (vm_compute; reflexivity).
  pose proof (divergence_aborts_run 1e6 initial_state
                (Z.to_nat default_max_iterations) 0
                (mesh_reynolds (prepare_run 1e6 initial_state)) 1e6 [] 0
                (reaches_here _ _ _ _ _) (or_intror Hdiv)) as Hall.
  split; [exact Hdiv|].
  split; [exact (proj1 (proj2 (proj2 (proj2 Hall))))|].
  exact (proj1 (proj1 Hall default_max_iterations tol 0 initial_state nan 0%float
                  (or_introl eq_refl))).
Defined.

(** ** The vorticity sweep *)

Lemma stability_factor_table (r : float) :
  ((r <=? 1.5)%float = true → stability_factor r = 1.0%float)
  ∧ ((1.5 <? r)%float = true → (r <=? 2.0)%float = true →
     stability_factor r = 0.8%float)
  ∧ ((2.0 <? r)%float = true → (r <? 5.0)%float = true →
     stability_factor r = 0.7%float)
  ∧ ((5.0 <=? r)%float = true → stability_factor r = 0.4%float).
Proof.
  unfold stability_factor. repeat split.
  - intros E.
    destruct (5.0 <=? r)%float eqn:E5;
      [by pose proof (FloatOrder.leb_trans _ _ _ E5 E)|].
    rewrite (FloatOrder.leb_ltb_false _ _ E).
    destruct (2.0 <? r)%float eqn:E2;
      [by pose proof (FloatOrder.ltb_leb_trans _ _ _ E2 E)|reflexivity].
  - intros E1 E2.
    destruct (5.0 <=? r)%float eqn:E5;
      [by pose proof (FloatOrder.leb_trans _ _ _ E5 E2)|].
    by rewrite (FloatOrder.leb_ltb_false _ _ E2), E1.
  - intros E1 E2. by rewrite (FloatOrder.ltb_leb_false _ _ E2), E1.
  - by intros ->.
Qed.

Lemma stability_factor_antitone (r1 r2 : float) :
  (r1 <=? r2)%float = true →
  (stability_factor r2 <=? stability_factor r1)%float = true.
Proof.
  intros E. unfold stability_factor.
  destruct (5.0 <=? r1)%float eqn:A1.
  { by rewrite (FloatOrder.leb_trans _ _ _ A1 E). }
  destruct (2.0 <? r1)%float eqn:B1.
  { rewrite (FloatOrder.ltb_leb_trans _ _ _ B1 E). by destruct (5.0 <=? r2)%float. }
  destruct (1.5 <? r1)%float eqn:C1.
  { rewrite (FloatOrder.ltb_leb_trans _ _ _ C1 E).
    by destruct (5.0 <=? r2)%float, (2.0 <? r2)%float. }
  by destruct (5.0 <=? r2)%float, (2.0 <? r2)%float, (1.5 <? r2)%float.
Qed.

Lemma stability_factor_below_one (r : float) :
  (1.5 <? r)%float = true → (stability_factor r <? 1.0)%float = true.
Proof.
  intros E. unfold stability_factor. rewrite E.
  by destruct (5.0 <=? r)%float, (2.0 <? r)%float.
Qed.

Lemma edge_adjacent_test (i j : Z) :
  (i =? 1) || (i =? Nxmax - 1) || (j =? 1) || (j =? Nymax - 1) = true
  ↔ edge_adjacent i j.
Proof. unfold edge_adjacent. rewrite !orb_true_iff, !Z.eqb_eq. tauto. Qed.

Lemma relax_vorticity_foldl (s : state) :
  relax_vorticity s
  = foldl (λ s p, relax_vorticity_node p.1 p.2 s) s interior_nodes.
Proof.
  unfold relax_vorticity.
  rewrite (for_range2_foldl 1 (Nxmax - 1) 1 (Nymax - 1) relax_vorticity_node).
  rewrite (foldl_ext_in _
             (λ a (p : Z * Z),
                if is_inside_beam p.1 p.2 then a
                else relax_vorticity_node p.1 p.2 a)).
  - apply (foldl_skip (λ p : Z * Z, is_inside_beam p.1 p.2)
             (λ a p, relax_vorticity_node p.1 p.2 a)).
  - intros a p _. unfold relax_vorticity_node.
    by destruct (is_inside_beam p.1 p.2).
Qed.

(** C3. The vorticity sweep updates the interior nodes outside the beam
    one after the other. At a node outside the beam that is not next to the edge of the
    domain the vorticity sweep performs [w += omega * (w* - w)] with
    [w* = 0.25 * (a1 - s * (R / 4) * (a2 - a3))]; next to the edge it uses
    [w* = 0.25 * a1]. The factor [s] is [1.0] up to [1.5], [0.8] up to
    [2.0], [0.7] below [5.0] and [0.4] from [5.0] on: below one above [1.5]
    and never increasing with the target Reynolds number. *)
Theorem vorticity_update (s : state) (i j : Z) :
  is_inside_beam i j = false →
  relax_vorticity s
  = foldl (λ s p, relax_vorticity_node p.1 p.2 s) s interior_nodes
  ∧ (¬ edge_adjacent i j →
   relax_vorticity_node i j s
   = set_w s i j
       (rd (w s) i j
        + omega s
          * (0.25 * (four_neighbours (w s) i j
                     - stability_factor (R_target s) * (R s / 4.0)
                       * (cross_a2 s i j - cross_a3 s i j))
             - rd (w s) i j))%float)
  ∧ (edge_adjacent i j →
     relax_vorticity_node i j s
     = set_w s i j
         (rd (w s) i j
          + omega s * (0.25 * four_neighbours (w s) i j - rd (w s) i j))%float)
  ∧ (∀ r : float,
       ((r <=? 1.5)%float = true → stability_factor r = 1.0%float)
       ∧ ((1.5 <? r)%float = true → (r <=? 2.0)%float = true →
          stability_factor r = 0.8%float)
       ∧ ((2.0 <? r)%float = true → (r <? 5.0)%float = true →
          stability_factor r = 0.7%float)
       ∧ ((5.0 <=? r)%float = true → stability_factor r = 0.4%float)
       ∧ ((1.5 <? r)%float = true → (stability_factor r <? 1.0)%float = true))
  ∧ (∀ r1 r2 : float, (r1 <=? r2)%float = true →
       (stability_factor r2 <=? stability_factor r1)%float = true).
Proof.
  intros Hout. split; [apply relax_vorticity_foldl|].
  unfold relax_vorticity_node. rewrite Hout.
  split; [|split; [|split]].
  - intros Hedge. apply (not_iff_compat (edge_adjacent_test i j)) in Hedge.
    apply not_true_is_false in Hedge. rewrite Hedge. reflexivity.
  - intros Hedge. apply edge_adjacent_test in Hedge. rewrite Hedge. reflexivity.
  - intros r. destruct (stability_factor_table r) as (T1 & T2 & T3 & T4).
    repeat split; try assumption. apply stability_factor_below_one.
  - apply stability_factor_antitone.
Qed.

Lemma vorticity_update_witness :
  is_inside_beam 50 15 = false
  ∧ relax_vorticity_node 50 15 initial_state
    = set_w initial_state 50 15
        (rd (w initial_state) 50 15
         + omega initial_state
           * (0.25 * (four_neighbours (w initial_state) 50 15
                      - stability_factor (R_target initial_state)
                        * (R initial_state / 4.0)
                        * (cross_a2 initial_state 50 15
                           - cross_a3 initial_state 50 15))
              - rd (w initial_state) 50 15))%float.
Proof.
  assert (¬ edge_adjacent 50 15) as Hne
    by (unfold edge_adjacent, Nxmax, Nymax; lia).
  exact (conj eq_refl
           (proj1 (proj2 (vorticity_update initial_state 50 15 eq_refl)) Hne)).
Defined.

(** ** The smoothing pass *)

(** What the pass does at a node it treats. *)
Lemma smooth_node_blend (ii jj : Z) (s : state) :
  0 < ii < Nxmax → 0 < jj < Nymax → is_inside_beam ii jj = false →
  (2.0 <? abs (rd (w s) ii jj))%float = true →
  0 < (neighbour_sum (w s) ii jj).2 →
  smooth_node ii jj s
  = set_w s ii jj
      (0.6 * rd (w s) ii jj
       + 0.4 * ((neighbour_sum (w s) ii jj).1
                / double_of_int (neighbour_sum (w s) ii jj).2))%float.
Proof.
  intros Hi Hj Hout Hspike Hcount. unfold smooth_node.
  rewrite Hout, Hspike.
  destruct (neighbour_sum (w s) ii jj) as [smooth_w count]. simpl in *.
  replace (0 <? ii) with true by (symmetry; apply Z.ltb_lt; lia).
  replace (ii <? Nxmax) with true by (symmetry; apply Z.ltb_lt; lia).
  replace (0 <? jj) with true by (symmetry; apply Z.ltb_lt; lia).
  replace (jj <? Nymax) with true by (symmetry; apply Z.ltb_lt; lia).
  replace (0 <? count) with true by (symmetry; apply Z.ltb_lt; lia).
  reflexivity.
Qed.

(** C6, where the code departs from it. The smoothing pass of
    [beam_boundaries] leaves both arrays as they are at every node of the
    3x3 block around the upper right corner. In the state the run at
    [Re = 5.0] enters its loop with, the blend at the right corner is a
    spike (magnitude above [2.0]) and [beam_boundaries] returns it
    unsmoothed, whereas the blend at the left corner is smoothed; a pass
    over both blocks would have changed the right corner too. *)
Theorem smoothing_skips_right_corner :
  (∀ (s : state) (i j : Z),
     IL + T ≤ i ≤ IL + T + 2 → H ≤ j ≤ H + 2 →
     keeps (i, j) s (beam_smoothing s))
  ∧ (5.0 <=? R_target run5_state)%float = true
  ∧ (2.0 <? abs (right_corner_blend run5_state))%float = true
  ∧ rd (w (beam_boundaries run5_state)) (IL + T + 1) (H + 1)
    = right_corner_blend run5_state
  ∧ (rd (w (beam_boundaries run5_state)) (IL - 1) (H + 1)
     =? left_corner_blend run5_state)%float = false
  ∧ (rd (w (beam_smoothing_both_corners
              (beam_corners (beam_walls (beam_zero run5_state)))))
        (IL + T + 1) (H + 1)
     =? rd (w (beam_boundaries run5_state)) (IL + T + 1) (H + 1))%float = false.
Proof.
  split.
  { intros s i j Hi Hj. apply beam_smoothing_far. simpl.
    unfold IL, T, H in *. lia. }
  split; [vm_compute; reflexivity|].
  split; [vm_compute; reflexivity|].
  split; [apply beam_boundaries_right_corner|].
  split; vm_compute; reflexivity.
Qed.

(** ** The corner blends and the smoothing pass *)

(** With the target at [5.0] or above the smoothing pass is the body of its
    double loop at the nine nodes of the block around the upper left
    corner, column by column. *)
Lemma beam_smoothing_on (s : state) :
  (5.0 <=? R_target s)%float = true →
  beam_smoothing s
  = smooth_node IL (H + 2) (smooth_node IL (H + 1) (smooth_node IL H
      (smooth_node (IL - 1) (H + 2) (smooth_node (IL - 1) (H + 1)
        (smooth_node (IL - 1) H
          (smooth_node (IL - 2) (H + 2) (smooth_node (IL - 2) (H + 1)
            (smooth_node (IL - 2) H s)))))))).
Proof.
  intros E. unfold beam_smoothing. rewrite E.
  rewrite (for_range2_foldl (-1) 1 (-1) 1
             (λ di dj, smooth_node (IL - 1 + di) (H + 1 + dj))).
  reflexivity.
Qed.

Lemma smooth_node_other (ii jj : Z) (s : state) (k : Z * Z) :
  k ≠ (ii, jj) → w (smooth_node ii jj s) !! k = w s !! k.
Proof.
  intros Hk. unfold smooth_node.
  destruct ((0 <? ii) && (ii <? Nxmax) && (0 <? jj) && (jj <? Nymax)
            && negb (is_inside_beam ii jj)); [|reflexivity].
  destruct (2.0 <? abs (rd (w s) ii jj))%float; [|reflexivity].
  destruct (neighbour_sum (w s) ii jj) as [smooth_w count].
  destruct (0 <? count); [|reflexivity].
  unfold set_w. cbn [w]. by apply lookup_insert_ne.
Qed.

(** The inner double loop at the upper left corner: seven of its eight
    neighbours lie outside the beam, added up column by column. *)
Lemma neighbour_sum_left_corner (wf : gmap (Z * Z) float) :
  neighbour_sum wf (IL - 1) (H + 1)
  = ((0 + rd wf (IL - 2) H + rd wf (IL - 2) (H + 1) + rd wf (IL - 2) (H + 2)
      + rd wf (IL - 1) H + rd wf (IL - 1) (H + 2)
      + rd wf IL (H + 1) + rd wf IL (H + 2))%float, 7).
Proof.
  unfold neighbour_sum.
  rewrite (for_range2_foldl (-1) 1 (-1) 1
             (λ ddi ddj (acc : float * Z),
                if (0 <=? IL - 1 + ddi) && (IL - 1 + ddi <=? Nxmax)
                   && (0 <=? H + 1 + ddj) && (H + 1 + ddj <=? Nymax)
                   && negb (is_inside_beam (IL - 1 + ddi) (H + 1 + ddj))
                   && negb ((ddi =? 0) && (ddj =? 0))
                then ((acc.1 + rd wf (IL - 1 + ddi) (H + 1 + ddj))%float,
                      acc.2 + 1)
                else acc)).
  reflexivity.
Qed.

Lemma smooth_node_left_corner (s : state) :
  rd (w (smooth_node (IL - 1) (H + 1) s)) (IL - 1) (H + 1)
  = if (2.0 <? abs (rd (w s) (IL - 1) (H + 1)))%float then
      (0.6 * rd (w s) (IL - 1) (H + 1)
       + 0.4 * ((0 + rd (w s) (IL - 2) H + rd (w s) (IL - 2) (H + 1)
                 + rd (w s) (IL - 2) (H + 2)
                 + rd (w s) (IL - 1) H + rd (w s) (IL - 1) (H + 2)
                 + rd (w s) IL (H + 1) + rd (w s) IL (H + 2)) / 7))%float
    else rd (w s) (IL - 1) (H + 1).
Proof.
  destruct (2.0 <? abs (rd (w s) (IL - 1) (H + 1)))%float eqn:Hspike.
  - rewrite smooth_node_blend;
      [|unfold IL, Nxmax; lia|unfold H, Nymax; lia|reflexivity|exact Hspike
       |rewrite neighbour_sum_left_corner; cbn [snd]; lia].
    rewrite neighbour_sum_left_corner. cbn [fst snd].
    unfold set_w. cbn [w]. apply rd_Some. rewrite lookup_insert_eq.
    reflexivity.
  - unfold smooth_node. rewrite Hspike.
    by destruct ((0 <? IL - 1) && (IL - 1 <? Nxmax) && (0 <? H + 1)
                 && (H + 1 <? Nymax) && negb (is_inside_beam (IL - 1) (H + 1))).
Qed.

(** C5, as the code has it. PASO 3 of the enforcement assigns to each top
    corner the blend of the two single-face estimates [-2 * u / h^2], read
    two nodes past the corner horizontally and vertically: [0.5 * (v + h)]
    when the target is below [5.0]; from [5.0] on, [0.7] on the estimate of
    smaller absolute value and [0.3] on the other. With the target below
    [5.0] both corners hold their blend when [beam_boundaries] returns.
    From [5.0] on the smoothing pass follows: at the upper left corner a
    blend of absolute value above [2.0] is replaced by [0.6] times the
    blend plus [0.4] times the mean, over the seven neighbours outside the
    beam, of the vorticity they hold when the pass reaches the corner; a
    blend that is not above [2.0] stays. *)
Theorem corner_treatment (s : state) :
  let left_v := ((-2.0) * rd (u s) (IL - 2) (H + 1) / (h * h))%float in
  let left_h := ((-2.0) * rd (u s) (IL - 1) (H + 2) / (h * h))%float in
  let right_v := ((-2.0) * rd (u s) (IL + T + 2) (H + 1) / (h * h))%float in
  let right_h := ((-2.0) * rd (u s) (IL + T + 1) (H + 2) / (h * h))%float in
  let paso3 := beam_corners (beam_walls (beam_zero s)) in
  let at_corner :=
    smooth_node (IL - 1) H
      (smooth_node (IL - 2) (H + 2) (smooth_node (IL - 2) (H + 1)
        (smooth_node (IL - 2) H paso3))) in
  (rd (w paso3) (IL - 1) (H + 1) = corner_blend (R_target s) left_v left_h
   ∧ rd (w paso3) (IL + T + 1) (H + 1)
     = corner_blend (R_target s) right_v right_h)
  ∧ ((5.0 <=? R_target s)%float = false →
     rd (w (beam_boundaries s)) (IL - 1) (H + 1)
     = (0.5 * (left_v + left_h))%float
     ∧ rd (w (beam_boundaries s)) (IL + T + 1) (H + 1)
       = (0.5 * (right_v + right_h))%float)
  ∧ ((5.0 <=? R_target s)%float = true →
     rd (w (beam_boundaries s)) (IL - 1) (H + 1)
     = if (2.0 <? abs (corner_blend (R_target s) left_v left_h))%float then
         (0.6 * corner_blend (R_target s) left_v left_h
          + 0.4 * ((0 + rd (w at_corner) (IL - 2) H
                    + rd (w at_corner) (IL - 2) (H + 1)
                    + rd (w at_corner) (IL - 2) (H + 2)
                    + rd (w at_corner) (IL - 1) H
                    + rd (w at_corner) (IL - 1) (H + 2)
                    + rd (w at_corner) IL (H + 1)
                    + rd (w at_corner) IL (H + 2)) / 7))%float
       else corner_blend (R_target s) left_v left_h)
  ∧ (∀ r a b : float,
       ((r <? 5.0)%float = true → corner_blend r a b = (0.5 * (a + b))%float)
       ∧ ((5.0 <=? r)%float = true → (abs a <? abs b)%float = true →
          corner_blend r a b = (0.7 * a + 0.3 * b)%float)
       ∧ ((5.0 <=? r)%float = true → (abs b <? abs a)%float = true →
          corner_blend r a b = (0.3 * a + 0.7 * b)%float)).
Proof.
  intros left_v left_h right_v right_h paso3 at_corner.
  pose proof (beam_steps_corner_values s) as [Hl Hr].
  change (left_corner_blend s) with (corner_blend (R_target s) left_v left_h) in Hl.
  change (right_corner_blend s)
    with (corner_blend (R_target s) right_v right_h) in Hr.
  fold paso3 in Hl, Hr.
  assert (HR : R_target paso3 = R_target s).
  { unfold paso3.
    destruct (beam_corners_scalars (beam_walls (beam_zero s))) as (_ & _ & -> & _).
    destruct (beam_walls_scalars (beam_zero s)) as (_ & _ & -> & _).
    destruct (beam_zero_scalars s) as (_ & _ & -> & _). reflexivity. }
  split; [split; assumption|]. split; [|split].
  - intros Hoff. unfold beam_boundaries. fold paso3.
    rewrite beam_smoothing_off by (rewrite HR; exact Hoff).
    rewrite Hl, Hr. unfold corner_blend. rewrite Hoff. split; reflexivity.
  - intros Hon. unfold beam_boundaries. fold paso3.
    rewrite beam_smoothing_on by (rewrite HR; exact Hon). fold at_corner.
    assert (Hkeep : rd (w at_corner) (IL - 1) (H + 1)
                    = corner_blend (R_target s) left_v left_h).
    { rewrite <- Hl. unfold at_corner, rd.
      rewrite !smooth_node_other by (unfold IL, H; intros [= ?]; lia).
      reflexivity. }
    unfold rd at 1.
    rewrite !smooth_node_other by (unfold IL, H; intros [= ?]; lia).
    fold (rd (w (smooth_node (IL - 1) (H + 1) at_corner)) (IL - 1) (H + 1)).
    rewrite smooth_node_left_corner, Hkeep. reflexivity.
  - apply corner_blend_table.
Qed.

(** The state the run at [Re = 5.0] enters its loop with: the blend at the
    upper left corner is a spike, and the smoothing pass replaces it. *)
Lemma corner_treatment_witness :
  (5.0 <=? R_target run5_state)%float = true
  ∧ (2.0 <? abs (corner_blend (R_target run5_state)
                   ((-2.0) * rd (u run5_state) (IL - 2) (H + 1) / (h * h))
                   ((-2.0) * rd (u run5_state) (IL - 1) (H + 2) / (h * h))))%float
    = true
  ∧ rd (w (beam_boundaries run5_state)) (IL - 1) (H + 1)
    = (-13.051809523809524)%float.
Proof.
  assert (Hon : (5.0 <=? R_target run5_state)%float = true)
    by (vm_compute; reflexivity).
  split; [exact Hon|]. split; [vm_compute; reflexivity|].
  rewrite (proj1 (proj2 (proj2 (corner_treatment run5_state))) Hon).
  vm_compute. reflexivity.
Defined.

(** Against C5 as the specification states it: in the state the run at
    [Re = 5.0] enters its loop with, the vorticity [beam_boundaries] leaves
    at the upper left corner is neither of the two [0.7]/[0.3] blends of the
    single-face estimates [-18] and [-20]. *)
Lemma corner_blend_not_final :
  (5.0 <=? R_target run5_state)%float = true
  ∧ ((-2.0) * rd (u run5_state) (IL - 2) (H + 1) / (h * h))%float = (-18)%float
  ∧ ((-2.0) * rd (u run5_state) (IL - 1) (H + 2) / (h * h))%float = (-20)%float
  ∧ rd (w (beam_boundaries run5_state)) (IL - 1) (H + 1)
    = (-13.051809523809524)%float
  ∧ rd (w (beam_boundaries run5_state)) (IL - 1) (H + 1)
    ≠ (0.7 * (-18) + 0.3 * (-20))%float
  ∧ rd (w (beam_boundaries run5_state)) (IL - 1) (H + 1)
    ≠ (0.3 * (-18) + 0.7 * (-20))%float.
Proof.
  assert (rd (w (beam_boundaries run5_state)) (IL - 1) (H + 1)
          = (-13.051809523809524)%float) as E by (vm_compute; reflexivity).
  split; [vm_compute; reflexivity|].
  split; [vm_compute; reflexivity|].
  split; [vm_compute; reflexivity|].
  split; [exact E|].
  rewrite E. split; intros F.
  - assert (((-13.051809523809524) =? (0.7 * (-18) + 0.3 * (-20)))%float = true)
      as G by (rewrite <- F; reflexivity).
    vm_compute in G. discriminate G.
  - assert (((-13.051809523809524) =? (0.3 * (-18) + 0.7 * (-20)))%float = true)
      as G by (rewrite <- F; reflexivity).
    vm_compute in G. discriminate G.
Qed.

(** ** The change norms are never NaN

    [std::max(acc, x)] keeps [acc] when [x] is NaN, so a reduction that
    starts from [0.0] never yields NaN: of the four tests of the divergence
    check only the two comparisons with the threshold can succeed. *)

Lemma fmax_not_nan (a b : float) :
  is_nan a = false → is_nan (fmax a b) = false.
Proof.
  intros Ha. unfold fmax. destruct (a <? b)%float eqn:E; [|exact Ha].
  exact (FloatOrder.ltb_not_nan_r _ _ E).
Qed.

Lemma foldl_fmax_not_nan {B : Type} (g : B → float) (l : list B) (a : float) :
  is_nan a = false → is_nan (foldl (λ m p, fmax m (g p)) a l) = false.
Proof.
  revert a. induction l as [|p l IH]; intros a Ha; [exact Ha|].
  simpl. apply IH. by apply fmax_not_nan.
Qed.

Lemma iteration_norms_not_nan (s : state) :
  is_nan (iteration s).1.2 = false ∧ is_nan (iteration s).2 = false.
Proof.
  unfold iteration. rewrite max_differences_spec. cbn [fst snd].
  split; apply foldl_fmax_not_nan; reflexivity.
Qed.

Lemma nan_tests_never_fire (s : state) (r_target : float) :
  diverging r_target (iteration s).1.2 (iteration s).2
  = (divergence_threshold r_target <? (iteration s).1.2)%float
    || (divergence_threshold r_target <? (iteration s).2)%float.
Proof.
  unfold diverging. destruct (iteration_norms_not_nan s) as [-> ->]. reflexivity.
Qed.

(** * Further properties of the code *)

(** ** How the convergence loop is left *)

Lemma relax_loop_last (fuel : nat) (max_iterations : Z) (effective_tol : float)
    (iter : Z) (s : state) :
  loop_next max_iterations effective_tol iter s = None →
  relax_loop (S fuel) max_iterations effective_tol iter s
  = Some (final_exit effective_tol iter s).
Proof.
  rewrite relax_loop_unfold. unfold loop_next, final_exit.
  destruct (iteration s) as [[s1 du] dw]. cbv zeta.
  destruct (diverging (R_target s1) du dw); [reflexivity|].
  destruct ((du <? effective_tol)%float && (dw <? effective_tol)%float);
    [reflexivity|].
  destruct (if (du <? effective_tol)%float && (50000 <? iter + 1)
            then stagnation_check dw s1 else (s1, false)) as [s2 stop].
  destruct stop; [reflexivity|].
  destruct (iter + 1 <? max_iterations); [discriminate|reflexivity].
Qed.

(** Whatever the loop returns is the exit of its last pass. *)
Lemma relax_loop_exit (max_iterations : Z) (effective_tol : float)
    (fuel : nat) (iter : Z) (s : state) (r : loop_exit) :
  relax_loop fuel max_iterations effective_tol iter s = Some r →
  ∃ fuel' iter' s0,
    loop_reaches max_iterations effective_tol fuel iter s (S fuel') iter' s0
    ∧ loop_next max_iterations effective_tol iter' s0 = None
    ∧ r = final_exit effective_tol iter' s0.
Proof.
  revert iter s. induction fuel as [|fuel IH]; intros iter s Hr; [discriminate|].
  destruct (loop_next max_iterations effective_tol iter s) as [[iter1 s1]|] eqn:Hn.
  - rewrite (relax_loop_next _ _ _ _ _ _ _ Hn) in Hr.
    destruct (IH _ _ Hr) as (fuel' & iter' & s0 & Hreach & Hlast & ->).
    exists fuel', iter', s0. split; [|split; [exact Hlast|reflexivity]].
    exact (reaches_next _ _ _ _ _ _ _ _ _ _ Hn Hreach).
  - rewrite (relax_loop_last _ _ _ _ _ Hn) in Hr. apply (inj Some) in Hr.
    subst r.
    exists fuel, iter, s. split; [apply reaches_here|]. split; [exact Hn|reflexivity].
Qed.

(** [relax_until_converge] always returns, and what it returns is read off
    its last pass. *)
Lemma relax_until_converge_last_pass (max_iterations : Z) (s : state) :
  ∃ fuel' iter' s0,
    loop_reaches max_iterations
      (effective_tolerance (R_target (mesh_reynolds s)))
      (S (Z.to_nat max_iterations)) 0 (mesh_reynolds s) (S fuel') iter' s0
    ∧ loop_next max_iterations
        (effective_tolerance (R_target (mesh_reynolds s))) iter' s0 = None
    ∧ relax_until_converge max_iterations s
      = Some (loop_result max_iterations
                (effective_tolerance (R_target (mesh_reynolds s)))
                (final_exit (effective_tolerance (R_target (mesh_reynolds s)))
                            iter' s0)).
Proof.
  destruct (relax_loop_total max_iterations
              (effective_tolerance (R_target (mesh_reynolds s)))
              (S (Z.to_nat max_iterations)) 0 (mesh_reynolds s)) as [r Hr];
    [lia|lia|].
  destruct (relax_loop_exit _ _ _ _ _ _ Hr) as (fuel' & iter' & s0 & Hreach & Hlast & ->).
  exists fuel', iter', s0. split; [exact Hreach|]. split; [exact Hlast|].
  unfold relax_until_converge. rewrite Hr. reflexivity.
Qed.

Lemma loop_result_state (max_iterations : Z) (effective_tol : float)
    (r : loop_exit) :
  (loop_result max_iterations effective_tol r).2 = exit_state r.
Proof.
  destruct r as [s|iter du dw s]; [reflexivity|]. simpl.
  destruct (max_iterations <=? iter); [|reflexivity].
  by destruct (_ <? _)%float.
Qed.

(** The counter of a pass the loop comes to. *)
Lemma loop_reaches_counter (max_iterations : Z) (effective_tol : float)
    (fuel : nat) (iter : Z) (s : state) (fuel' : nat) (iter' : Z) (s' : state) :
  loop_reaches max_iterations effective_tol fuel iter s fuel' iter' s' →
  iter' = iter ∨ (iter < iter' < max_iterations).
Proof.
  induction 1 as [|fuel iter s iter1 s1 fuel' iter' s' Hnext _ IH]; [by left|].
  destruct (loop_next_scalars _ _ _ _ _ _ Hnext) as (_ & _ & -> & Hlt).
  right. lia.
Qed.

(** The arrays of the state a pass hands on are those its [iteration]
    produced; the partial-convergence block only touches the two
    counters. *)
Lemma stagnation_check_arrays (max_diff_w : float) (s : state) :
  u (stagnation_check max_diff_w s).1 = u s
  ∧ w (stagnation_check max_diff_w s).1 = w s.
Proof. by split. Qed.

Lemma loop_next_arrays (max_iterations : Z) (effective_tol : float)
    (iter iter' : Z) (s s' : state) :
  loop_next max_iterations effective_tol iter s = Some (iter', s') →
  u s' = u (iteration s).1.1 ∧ w s' = w (iteration s).1.1.
Proof.
  unfold loop_next. destruct (iteration s) as [[s1 du] dw]. cbv zeta.
  cbn [fst snd].
  destruct (diverging (R_target s1) du dw); [discriminate|].
  destruct ((du <? effective_tol)%float && (dw <? effective_tol)%float);
    [discriminate|].
  destruct ((du <? effective_tol)%float && (50000 <? iter + 1)).
  - pose proof (stagnation_check_arrays dw s1) as [Hu Hw]. revert Hu Hw.
    destruct (stagnation_check dw s1) as [s2 stop]. cbn [fst]. intros Hu Hw.
    destruct stop; [discriminate|].
    destruct (iter + 1 <? max_iterations); [|discriminate].
    intros E. injection E as _ <-. by split.
  - destruct (iter + 1 <? max_iterations); [|discriminate].
    intros E. injection E as _ <-. by split.
Qed.

Lemma final_exit_arrays (effective_tol : float) (iter : Z) (s : state) :
  u (exit_state (final_exit effective_tol iter s)) = u (iteration s).1.1
  ∧ w (exit_state (final_exit effective_tol iter s)) = w (iteration s).1.1.
Proof.
  unfold final_exit. destruct (iteration s) as [[s1 du] dw]. cbv zeta.
  cbn [fst snd].
  destruct (diverging (R_target s1) du dw); [by split|].
  destruct ((du <? effective_tol)%float && (dw <? effective_tol)%float);
    [by split|].
  destruct ((du <? effective_tol)%float && (50000 <? iter + 1));
    [apply stagnation_check_arrays|by split].
Qed.

Lemma final_exit_scalars (effective_tol : float) (iter : Z) (s : state) :
  R_target (exit_state (final_exit effective_tol iter s)) = R_target s
  ∧ exports (exit_state (final_exit effective_tol iter s)) = exports s.
Proof.
  unfold final_exit.
  destruct (iteration_scalars s) as (_ & _ & HR & _ & _ & _ & He). revert HR He.
  destruct (iteration s) as [[s1 du] dw]. cbv zeta. cbn [fst snd]. intros HR He.
  destruct (diverging (R_target s1) du dw); [by split|].
  destruct ((du <? effective_tol)%float && (dw <? effective_tol)%float);
    [by split|].
  destruct ((du <? effective_tol)%float && (50000 <? iter + 1)); by split.
Qed.

(** ** Tolerance, acceptance and divergence thresholds *)

Lemma fltb_trans (x y z : float) :
  (x <? y)%float = true → (y <? z)%float = true → (x <? z)%float = true.
Proof.
  rewrite !FloatOrder.ltb_code. intros E1 E2.
  exact (FloatOrder.SFcompare_trans _ _ _ _ _ E1 E2 eq_refl eq_refl).
Qed.

Lemma tolerance_positive (r : float) :
  (0 <? effective_tolerance r)%float = true.
Proof.
  unfold effective_tolerance.
  destruct (5.0 <=? r)%float, (2.0 <? r)%float, (1.5 <? r)%float;
    vm_compute; reflexivity.
Qed.

Lemma tolerance_below_acceptance (r : float) :
  (effective_tolerance r <? acceptance_threshold r)%float = true.
Proof.
  unfold acceptance_threshold, effective_tolerance.
  destruct (5.0 <=? r)%float, (2.0 <? r)%float, (1.5 <? r)%float;
    vm_compute; reflexivity.
Qed.

Lemma acceptance_below_divergence (r : float) :
  (acceptance_threshold r <? divergence_threshold r)%float = true.
Proof.
  unfold acceptance_threshold, effective_tolerance, divergence_threshold.
  destruct (5.0 <=? r)%float, (2.0 <? r)%float, (1.5 <? r)%float;
    vm_compute; reflexivity.
Qed.

(** X1. Whatever the target Reynolds number (NaN included), the thresholds
    of the convergence loop are ordered: the tolerance is positive, below
    the acceptance threshold used at the iteration cap, which is below the
    divergence threshold. A change that passes the convergence test thus
    passes the acceptance test and never triggers the divergence test. *)
Theorem thresholds_ordered (r max_diff : float) :
  (0 <? effective_tolerance r)%float = true
  ∧ (effective_tolerance r <? acceptance_threshold r)%float = true
  ∧ (acceptance_threshold r <? divergence_threshold r)%float = true
  ∧ ((max_diff <? effective_tolerance r)%float = true →
     (max_diff <? acceptance_threshold r)%float = true
     ∧ (divergence_threshold r <? max_diff)%float = false).
Proof.
  split; [apply tolerance_positive|].
  split; [apply tolerance_below_acceptance|].
  split; [apply acceptance_below_divergence|].
  intros E.
  pose proof (fltb_trans _ _ _ E (tolerance_below_acceptance r)) as E1.
  split; [exact E1|].
  apply FloatOrder.ltb_asym.
  exact (fltb_trans _ _ _ E1 (acceptance_below_divergence r)).
Qed.

Lemma thresholds_ordered_witness :
  (1e-9 <? effective_tolerance 5.0)%float = true
  ∧ (1e-9 <? acceptance_threshold 5.0)%float = true
  ∧ (divergence_threshold 5.0 <? 1e-9)%float = false.
Proof.
  exact (conj eq_refl
           (proj2 (proj2 (proj2 (thresholds_ordered 5.0 1e-9))) eq_refl)).
Defined.

(** ** Termination and verdict of [relax_until_converge] *)

(** The verdict of one final pass, on the values the pass produced. *)
Lemma last_pass_verdict (max_iterations : Z) (r : float) (iter : Z)
    (s1 : state) (du dw : float) (b : bool) :
  R_target s1 = r →
  (let '(s, max_diff_u, max_diff_w) := (s1, du, dw) in
   let iter := iter + 1 in
   if diverging (R_target s) max_diff_u max_diff_w then None
   else if (max_diff_u <? effective_tolerance r)%float
           && (max_diff_w <? effective_tolerance r)%float then None
   else
     let '(s, stop) :=
       if (max_diff_u <? effective_tolerance r)%float && (50000 <? iter)
       then stagnation_check max_diff_w s else (s, false) in
     if stop then None
     else if iter <? max_iterations then Some (iter, s) else None) = None →
  (loop_result max_iterations (effective_tolerance r)
     (let '(s, max_diff_u, max_diff_w) := (s1, du, dw) in
      let iter := iter + 1 in
      if diverging (R_target s) max_diff_u max_diff_w then Return_false s
      else if (max_diff_u <? effective_tolerance r)%float
              && (max_diff_w <? effective_tolerance r)%float then
        Loop_done iter max_diff_u max_diff_w s
      else
        Loop_done iter max_diff_u max_diff_w
          (if (max_diff_u <? effective_tolerance r)%float && (50000 <? iter)
           then stagnation_check max_diff_w s else (s, false)).1)).1 = b →
  (b = true →
   diverging r du dw = false ∧ (du <? acceptance_threshold r)%float = true)
  ∧ (b = false →
     diverging r du dw = true
     ∨ (max_iterations ≤ iter + 1
        ∧ (du <? acceptance_threshold r)%float = false)).
Proof.
  intros HR. cbv zeta. cbn [fst snd]. rewrite HR.
  destruct (diverging r du dw) eqn:Hdiv.
  { intros _ <-. simpl. split; [discriminate|]. intros _. by left. }
  assert (∀ s2 : state, R_target s2 = r →
            (loop_result max_iterations (effective_tolerance r)
               (Loop_done (iter + 1) du dw s2)).1
            = if max_iterations <=? iter + 1
              then (du <? acceptance_threshold r)%float else true) as Hres.
  { intros s2 H2. unfold loop_result, acceptance_threshold. rewrite H2.
    destruct (max_iterations <=? iter + 1); [|reflexivity].
    by destruct (5.0 <=? r)%float; destruct (_ <? _)%float. }
  destruct (du <? effective_tolerance r)%float eqn:Hu.
  - (* the stream function has converged *)
    pose proof (fltb_trans _ _ _ Hu (tolerance_below_acceptance r)) as Hacc.
    assert ((loop_result max_iterations (effective_tolerance r)
               (Loop_done (iter + 1) du dw s1)).1 = true) as Hok.
    { rewrite (Hres s1 HR), Hacc. by destruct (max_iterations <=? iter + 1). }
    destruct (dw <? effective_tolerance r)%float; simpl andb; cbv iota.
    + intros _ Hb. rewrite Hok in Hb. subst b.
      split; [by split|discriminate].
    + destruct (50000 <? iter + 1).
      * intros _.
        rewrite (Hres (stagnation_check dw s1).1
                   (eq_trans (proj1 (stagnation_check_scalars dw s1)) HR)), Hacc.
        destruct (max_iterations <=? iter + 1); intros <-;
          (split; [by split|discriminate]).
      * intros _ Hb. cbn [fst] in Hb. rewrite Hok in Hb. subst b.
        split; [by split|discriminate].
  - simpl andb. cbv iota. cbn [fst].
    destruct (iter + 1 <? max_iterations) eqn:Hlt; [discriminate|].
    intros _. rewrite (Hres s1 HR).
    apply Z.ltb_ge in Hlt.
    replace (max_iterations <=? iter + 1) with true
      by (symmetry; apply Z.leb_le; lia).
    destruct (du <? acceptance_threshold r)%float; intros <-.
    + split; [by split|discriminate].
    + split; [discriminate|]. intros _. right. by split.
Qed.

(** X2. [relax_until_converge] always returns: its loop is left after at
    least one pass, also when [max_iterations] is zero or negative, and
    after at most [max_iterations] passes otherwise; what it returns is the
    verdict on that last pass. *)
Theorem relax_until_converge_terminates (max_iterations : Z) (s : state) :
  ∃ fuel' iter' s0,
    loop_reaches max_iterations
      (effective_tolerance (R_target (mesh_reynolds s)))
      (S (Z.to_nat max_iterations)) 0 (mesh_reynolds s) (S fuel') iter' s0
    ∧ 0 ≤ iter' < Z.max 1 max_iterations
    ∧ relax_until_converge max_iterations s
      = Some (loop_result max_iterations
                (effective_tolerance (R_target (mesh_reynolds s)))
                (final_exit (effective_tolerance (R_target (mesh_reynolds s)))
                            iter' s0)).
Proof.
  destruct (relax_until_converge_last_pass max_iterations s)
    as (fuel' & iter' & s0 & Hreach & _ & Hres).
  exists fuel', iter', s0. split; [exact Hreach|]. split; [|exact Hres].
  destruct (loop_reaches_counter _ _ _ _ _ _ _ _ Hreach); lia.
Qed.

(** X3. The verdict of [relax_until_converge] is read off its last pass,
    the one pass the loop comes to that no further pass follows; the state
    returned holds the fields that pass produced. It returns [true] only if
    the divergence test did not fire in that pass and its change of the
    stream function is below the acceptance threshold; it returns [false]
    only if the divergence test fired in it, or the iteration cap was
    reached with that change not below the acceptance threshold. *)
Theorem relax_until_converge_verdict (max_iterations : Z) (s : state) :
  ∃ fuel' iter' s0 b s',
    loop_reaches max_iterations
      (effective_tolerance (R_target (mesh_reynolds s)))
      (S (Z.to_nat max_iterations)) 0 (mesh_reynolds s) (S fuel') iter' s0
    ∧ loop_next max_iterations
        (effective_tolerance (R_target (mesh_reynolds s))) iter' s0 = None
    ∧ relax_until_converge max_iterations s = Some (b, s')
    ∧ u s' = u (iteration s0).1.1 ∧ w s' = w (iteration s0).1.1
    ∧ (b = true →
       diverging (R_target s) (iteration s0).1.2 (iteration s0).2 = false
       ∧ ((iteration s0).1.2 <? acceptance_threshold (R_target s))%float = true)
    ∧ (b = false →
       diverging (R_target s) (iteration s0).1.2 (iteration s0).2 = true
       ∨ (max_iterations ≤ iter' + 1
          ∧ ((iteration s0).1.2 <? acceptance_threshold (R_target s))%float
            = false)).
Proof.
  destruct (relax_until_converge_last_pass max_iterations s)
    as (fuel' & iter' & s0 & Hreach & Hlast & Hres).
  destruct (loop_reaches_scalars _ _ _ _ _ _ _ _ Hreach) as [HR0 _].
  destruct (iteration_scalars s0) as (_ & _ & HR1 & _).
  rewrite HR0 in HR1. clear HR0.
  pose proof (loop_result_state max_iterations
                (effective_tolerance (R_target (mesh_reynolds s)))
                (final_exit (effective_tolerance (R_target (mesh_reynolds s)))
                            iter' s0)) as Hstate.
  destruct (final_exit_arrays
              (effective_tolerance (R_target (mesh_reynolds s))) iter' s0)
    as [Hu Hw].
  rewrite <- Hstate in Hu, Hw. clear Hstate.
  revert Hreach Hlast Hres HR1 Hu Hw.
  destruct (mesh_reynolds_fields s) as (-> & _).
  intros Hreach Hlast Hres HR1 Hu Hw.
  remember (loop_result max_iterations (effective_tolerance (R_target s))
              (final_exit (effective_tolerance (R_target s)) iter' s0))
    as p eqn:Hp.
  destruct p as [b s']. exists fuel', iter', s0, b, s'.
  split; [exact Hreach|]. split; [exact Hlast|]. split; [exact Hres|].
  split; [exact Hu|]. split; [exact Hw|].
  apply (f_equal fst) in Hp. cbn [fst] in Hp. symmetry in Hp.
  unfold loop_next in Hlast. unfold final_exit in Hp.
  revert Hlast Hp HR1. clear Hu Hw.
  destruct (iteration s0) as [[s1 du] dw]. cbn [fst snd].
  intros Hlast Hp HR1.
  exact (last_pass_verdict max_iterations (R_target s) iter' s1 du dw b
           HR1 Hlast Hp).
Qed.

(** ** Footprints *)

Ltac geom' :=
  unfold domain_edge, interior, beam_surface, smoothing_block in *; geom.

Lemma beam_walls_off_surface (s : state) (i j : Z) :
  ¬ beam_surface i j → keeps (i, j) s (beam_walls s).
Proof. intros Hoff. unfold beam_walls. keeps_steps; geom'. Qed.

Lemma beam_corners_off_surface (s : state) (i j : Z) :
  ¬ beam_surface i j → keeps (i, j) s (beam_corners s).
Proof. intros Hoff. unfold beam_corners. keeps_steps; geom'. Qed.

Lemma beam_boundaries_u_outside (s : state) (i j : Z) :
  is_inside_beam i j = false →
  u (beam_boundaries s) !! (i, j) = u s !! (i, j).
Proof.
  intros Hout. unfold beam_boundaries.
  rewrite (beam_smoothing_same_u _), (beam_corners_same_u _),
    (beam_walls_same_u _).
  by apply (beam_zero_outside s (i, j)).
Qed.

Lemma beam_steps_w_off_surface (s : state) (i j : Z) :
  is_inside_beam i j = false → ¬ beam_surface i j →
  w (beam_corners (beam_walls (beam_zero s))) !! (i, j) = w s !! (i, j).
Proof.
  intros Hout Hoff.
  destruct (beam_corners_off_surface (beam_walls (beam_zero s)) i j Hoff)
    as [_ ->].
  destruct (beam_walls_off_surface (beam_zero s) i j Hoff) as [_ ->].
  by apply (beam_zero_outside s (i, j)).
Qed.

(** X4. The footprint of [beam_boundaries]. Outside the beam it never
    changes the stream function; it changes the vorticity only at the nodes
    next to the three exposed faces (the two corner nodes included) and,
    when [R_target >= 5.0], in the 3x3 block around the upper left
    corner. *)
Theorem beam_boundaries_footprint (s : state) (i j : Z) :
  is_inside_beam i j = false →
  u (beam_boundaries s) !! (i, j) = u s !! (i, j)
  ∧ (¬ beam_surface i j →
     ¬ smoothing_block i j ∨ (5.0 <=? R_target s)%float = false →
     w (beam_boundaries s) !! (i, j) = w s !! (i, j)).
Proof.
  intros Hout. split; [by apply beam_boundaries_u_outside|].
  intros Hoff [Hfar|Hre].
  - unfold beam_boundaries.
    destruct (beam_smoothing_far (beam_corners (beam_walls (beam_zero s)))
                (i, j) Hfar) as [_ ->].
    by apply beam_steps_w_off_surface.
  - unfold beam_boundaries. rewrite beam_smoothing_off.
    + by apply beam_steps_w_off_surface.
    + destruct (beam_corners_scalars (beam_walls (beam_zero s)))
        as (_ & _ & -> & _).
      destruct (beam_walls_scalars (beam_zero s)) as (_ & _ & -> & _).
      destruct (beam_zero_scalars s) as (_ & _ & -> & _).
      exact Hre.
Qed.

Lemma beam_boundaries_footprint_witness :
  is_inside_beam 50 15 = false
  ∧ u (beam_boundaries initial_state) !! (50, 15) = u initial_state !! (50, 15).
Proof.
  exact (conj eq_refl
           (proj1 (beam_boundaries_footprint initial_state 50 15 eq_refl))).
Defined.

Lemma same_w_refl s : same_w s s.
Proof. reflexivity. Qed.

Lemma same_w_set_u' s s' i j v : same_w s s' → same_w s (set_u s' i j v).
Proof. intros E. exact E. Qed.

Lemma same_w_for_range' lo hi (body : Z → state → state) s s' :
  same_w s s' → (∀ i s, lo ≤ i ≤ hi → same_w s (body i s)) →
  same_w s (for_range lo hi body s').
Proof.
  intros E Hstep.
  apply (for_range_inv (same_w s)); [exact E|].
  intros i x Hi Hx. unfold same_w in *. rewrite <- Hx. by apply Hstep.
Qed.

Ltac same_w_steps :=
  repeat match goal with
  | |- same_w ?s ?s => apply same_w_refl
  | |- same_w _ (set_u _ _ _ _) => apply same_w_set_u'
  | |- same_w _ (for_range _ _ _ _) => apply same_w_for_range'; [|intros ? ? ?]
  | |- same_w _ (if ?c then _ else _) => destruct c
  | |- same_w _ _ => progress cbv beta zeta
  end.

Lemma relax_stream_function_same_w s : same_w s (relax_stream_function s).
Proof. unfold relax_stream_function, relax_stream_node. same_w_steps. Qed.

Lemma relax_stream_function_off_interior (s : state) (i j : Z) :
  ¬ interior i j → keeps (i, j) s (relax_stream_function s).
Proof.
  intros Hoff. unfold relax_stream_function, relax_stream_node.
  keeps_steps; geom'.
Qed.

Lemma relax_vorticity_off_interior (s : state) (i j : Z) :
  ¬ interior i j → keeps (i, j) s (relax_vorticity s).
Proof.
  intros Hoff. unfold relax_vorticity, relax_vorticity_node.
  keeps_steps; geom'.
Qed.

(** X5. The footprint of the two sweeps. The stream-function sweep never
    changes the vorticity and the vorticity sweep never changes the stream
    function; neither changes anything at a node that is not strictly
    inside the domain. *)
Theorem sweeps_footprint (s : state) (i j : Z) :
  ¬ interior i j →
  keeps (i, j) s (relax_stream_function s)
  ∧ keeps (i, j) s (relax_vorticity s)
  ∧ w (relax_stream_function s) = w s
  ∧ u (relax_vorticity s) = u s.
Proof.
  intros Hoff.
  split; [by apply relax_stream_function_off_interior|].
  split; [by apply relax_vorticity_off_interior|].
  split; [apply relax_stream_function_same_w|apply relax_vorticity_same_u].
Qed.

Lemma sweeps_footprint_witness :
  ¬ interior 0 5
  ∧ keeps (0, 5) initial_state (relax_stream_function initial_state).
Proof.
  assert (¬ interior 0 5) as Hoff by (unfold interior; lia).
  exact (conj Hoff (proj1 (sweeps_footprint initial_state 0 5 Hoff))).
Defined.

(** ** Loops that update every node once *)

(** A loop whose pass [i] turns [P i] into [Q i] and leaves every other
    [P i'] and [Q i'] alone turns [P] into [Q] on its whole range. *)
Lemma for_range_all_pre {A : Type} (P Q : Z → A → Prop) lo hi
    (body : Z → A → A) (a : A) :
  (∀ i, lo ≤ i ≤ hi → P i a) →
  (∀ i a, lo ≤ i ≤ hi → P i a → Q i (body i a)) →
  (∀ i i' a, lo ≤ i ≤ hi → i' ≠ i → P i' a → P i' (body i a)) →
  (∀ i i' a, lo ≤ i ≤ hi → i' ≠ i → Q i' a → Q i' (body i a)) →
  ∀ i, lo ≤ i ≤ hi → Q i (for_range lo hi body a).
Proof.
  intros Hpre Hset HkeepP HkeepQ i Hi.
  assert ((∀ i, lo ≤ i < hi + 1 → Q i (for_range lo hi body a))
          ∧ (∀ i, hi + 1 ≤ i ≤ hi → P i (for_range lo hi body a))) as [Hall _];
    [|apply Hall; lia].
  apply (for_range_ind
           (λ k b, (∀ i, lo ≤ i < k → Q i b) ∧ (∀ i, k ≤ i ≤ hi → P i b)));
    [lia|split; [intros; lia|intros; apply Hpre; lia]|].
  intros k b Hk [HQ HP]. split.
  - intros i' Hi'. destruct (decide (i' = k)) as [->|Hne].
    + apply Hset; [exact Hk|]. apply HP. lia.
    + apply HkeepQ; [exact Hk|exact Hne|]. apply HQ. lia.
  - intros i' Hi'. apply HkeepP; [exact Hk|lia|]. apply HP. lia.
Qed.

Lemma for_range2_all_pre {A : Type} (P Q : Z → Z → A → Prop)
    ilo ihi jlo jhi (body : Z → Z → A → A) (a : A) :
  (∀ i j, ilo ≤ i ≤ ihi → jlo ≤ j ≤ jhi → P i j a) →
  (∀ i j a, ilo ≤ i ≤ ihi → jlo ≤ j ≤ jhi → P i j a → Q i j (body i j a)) →
  (∀ i j i' j' a, ilo ≤ i ≤ ihi → jlo ≤ j ≤ jhi → (i', j') ≠ (i, j) →
     P i' j' a → P i' j' (body i j a)) →
  (∀ i j i' j' a, ilo ≤ i ≤ ihi → jlo ≤ j ≤ jhi → (i', j') ≠ (i, j) →
     Q i' j' a → Q i' j' (body i j a)) →
  ∀ i j, ilo ≤ i ≤ ihi → jlo ≤ j ≤ jhi →
    Q i j (for_range ilo ihi (λ i, for_range jlo jhi (body i)) a).
Proof.
  intros Hpre Hset HkeepP HkeepQ i j Hi Hj.
  apply (for_range_all_pre
           (λ i b, ∀ j, jlo ≤ j ≤ jhi → P i j b)
           (λ i b, ∀ j, jlo ≤ j ≤ jhi → Q i j b) ilo ihi); [| | | |exact Hi|exact Hj].
  - intros i1 Hi1 j1 Hj1. by apply Hpre.
  - clear i j Hi Hj. intros i b Hi Hrow j Hj.
    apply (for_range_all_pre (λ j c, P i j c) (λ j c, Q i j c) jlo jhi);
      [exact Hrow| | | |exact Hj].
    + intros j1 c Hj1. by apply Hset.
    + intros j1 j2 c Hj1 Hne. apply HkeepP; [done..|congruence].
    + intros j1 j2 c Hj1 Hne. apply HkeepQ; [done..|congruence].
  - clear i j Hi Hj. intros i i' b Hi Hne Hrow j Hj.
    apply (for_range_inv (λ c, P i' j c)); [by apply Hrow|].
    intros j1 c Hj1. apply HkeepP; [done..|congruence].
  - clear i j Hi Hj. intros i i' b Hi Hne Hrow j Hj.
    apply (for_range_inv (λ c, Q i' j c)); [by apply Hrow|].
    intros j1 c Hj1. apply HkeepQ; [done..|congruence].
Qed.

(** ** [normalize] and [reset_fields] *)

Lemma normalize_scalars s : same_scalars s (normalize s).
Proof. unfold normalize. scalars_steps. Qed.

Lemma normalize_same_w s : same_w s (normalize s).
Proof. unfold normalize. same_w_steps. Qed.

Lemma normalize_node (s : state) (i j : Z) :
  on_grid i j →
  u (normalize s) !! (i, j) = Some (rd (u s) i j / (V0 * h))%float.
Proof.
  intros [Hi Hj]. unfold normalize.
  apply (for_range2_all_pre
           (λ i j x, u x !! (i, j) = u s !! (i, j))
           (λ i j x, u x !! (i, j) = Some (rd (u s) i j / (V0 * h))%float));
    [| | | |exact Hi|exact Hj].
  - reflexivity.
  - intros a b x _ _ Hx. simpl. rewrite lookup_insert_eq.
    unfold rd. by rewrite Hx.
  - intros a b a' b' x _ _ Hne Hx. simpl.
    by rewrite lookup_insert_ne by congruence.
  - intros a b a' b' x _ _ Hne Hx. simpl.
    by rewrite lookup_insert_ne by congruence.
Qed.

Lemma normalize_off_grid (s : state) (i j : Z) :
  ¬ on_grid i j → keeps (i, j) s (normalize s).
Proof. intros Hoff. unfold normalize. keeps_steps; geom. Qed.

(** X6. [normalize] divides the stream function by [V0 * h] exactly once
    at every grid node, each node by its own value before the call, and
    touches neither the vorticity nor anything else. *)
Theorem normalize_divides_once (s : state) (i j : Z) :
  on_grid i j →
  rd (u (normalize s)) i j = (rd (u s) i j / (V0 * h))%float
  ∧ w (normalize s) = w s
  ∧ same_scalars s (normalize s).
Proof.
  intros Hg. split; [apply rd_Some; by apply normalize_node|].
  split; [apply normalize_same_w|apply normalize_scalars].
Qed.

Lemma normalize_divides_once_witness :
  on_grid 160 30
  ∧ rd (u (normalize initial_state)) 160 30
    = (rd (u initial_state) 160 30 / (V0 * h))%float.
Proof.
  assert (on_grid 160 30) as Hg by (unfold on_grid, Nxmax, Nymax; lia).
  exact (conj Hg (proj1 (normalize_divides_once initial_state 160 30 Hg))).
Defined.

Lemma reset_fields_node (s : state) (i j : Z) :
  on_grid i j →
  u (reset_fields s) !! (i, j) = Some 0%float
  ∧ w (reset_fields s) !! (i, j) = Some 0%float.
Proof.
  intros [Hi Hj]. unfold reset_fields.
  apply (for_range2_all
           (λ i j s, u s !! (i, j) = Some 0%float ∧ w s !! (i, j) = Some 0%float));
    [| |exact Hi|exact Hj].
  - intros. simpl. by rewrite !lookup_insert_eq.
  - intros a b a' b' s' _ _ Hne [? ?]. simpl.
    by rewrite !lookup_insert_ne by congruence.
Qed.

Lemma reset_fields_off_grid (s : state) (i j : Z) :
  ¬ on_grid i j → keeps (i, j) s (reset_fields s).
Proof. intros Hoff. unfold reset_fields. keeps_steps; geom. Qed.

(** X7. [reset_fields] leaves both fields at [0.0] on the whole grid,
    corner node [(Nxmax, Nymax)] included, and changes nothing else: not
    the Reynolds parameters, the export log or the two stagnation
    counters. *)
Theorem reset_fields_clears (s : state) (i j : Z) :
  on_grid i j →
  rd (u (reset_fields s)) i j = 0%float
  ∧ rd (w (reset_fields s)) i j = 0%float
  ∧ same_scalars s (reset_fields s).
Proof.
  intros Hg. destruct (reset_fields_node s i j Hg) as [Hu Hw].
  split; [by apply rd_Some|]. split; [by apply rd_Some|].
  apply reset_fields_scalars.
Qed.

Lemma reset_fields_clears_witness :
  on_grid 160 30 ∧ rd (u (reset_fields spike_state)) 160 30 = 0%float.
Proof.
  assert (on_grid 160 30) as Hg by (unfold on_grid, Nxmax, Nymax; lia).
  exact (conj Hg (proj1 (reset_fields_clears spike_state 160 30 Hg))).
Defined.

(** ** What the convergence loop never writes *)

Lemma iteration_keeps_off_interior (s : state) (i j : Z) :
  ¬ interior i j → is_inside_beam i j = false →
  keeps (i, j) s (iteration s).1.1.
Proof.
  intros Hoff Hout. rewrite iteration_state.
  assert (¬ beam_surface i j) as Hs by geom'.
  assert (¬ smoothing_block i j) as Hb by geom'.
  assert (∀ x, keeps (i, j) x (beam_boundaries x)) as Hbb.
  { intros x. split; [by apply beam_boundaries_u_outside|].
    unfold beam_boundaries.
    destruct (beam_smoothing_far (beam_corners (beam_walls (beam_zero x)))
                (i, j) Hb) as [_ ->].
    by apply beam_steps_w_off_surface. }
  eapply keeps_trans; [apply Hbb|].
  eapply keeps_trans; [by apply relax_stream_function_off_interior|].
  eapply keeps_trans; [by apply relax_vorticity_off_interior|].
  apply Hbb.
Qed.

Lemma loop_reaches_keeps (k : Z * Z) (max_iterations : Z) (effective_tol : float)
    (fuel : nat) (iter : Z) (s : state) (fuel' : nat) (iter' : Z) (s' : state) :
  (∀ x, keeps k x (iteration x).1.1) →
  loop_reaches max_iterations effective_tol fuel iter s fuel' iter' s' →
  keeps k s s'.
Proof.
  intros Hpass.
  induction 1 as [|fuel iter s iter1 s1 fuel' iter' s' Hnext _ IH];
    [apply keeps_refl|].
  destruct (loop_next_arrays _ _ _ _ _ _ Hnext) as [Hu Hw].
  eapply keeps_trans; [|exact IH].
  destruct (Hpass s) as [Hu' Hw']. split; congruence.
Qed.

(** A property of the arrays that every pass keeps is kept by
    [relax_until_converge]. *)
Lemma relax_until_converge_keeps (k : Z * Z) (max_iterations : Z) (s : state) :
  (∀ x, keeps k x (iteration x).1.1) →
  ∃ r, relax_until_converge max_iterations s = Some r ∧ keeps k s r.2.
Proof.
  intros Hpass.
  destruct (relax_until_converge_last_pass max_iterations s)
    as (fuel' & iter' & s0 & Hreach & _ & Hres).
  eexists. split; [exact Hres|].
  rewrite loop_result_state.
  pose proof (loop_reaches_keeps k _ _ _ _ _ _ _ _ Hpass Hreach) as [Hu Hw].
  destruct (final_exit_arrays
              (effective_tolerance (R_target (mesh_reynolds s))) iter' s0)
    as [Hu1 Hw1].
  destruct (Hpass s0) as [Hu2 Hw2].
  split; [rewrite Hu1, Hu2, Hu|rewrite Hw1, Hw2, Hw]; reflexivity.
Qed.

(** X8. The convergence loop never changes either field on the edge of the
    domain outside the beam: whatever the verdict and the number of passes,
    the inlet column, the outlet column, the top row and the centre line
    hold at the exit of [relax_until_converge] what they held at its
    entry. *)
Theorem convergence_loop_keeps_edge (max_iterations : Z) (s : state) (i j : Z) :
  domain_edge i j → is_inside_beam i j = false →
  ∃ r, relax_until_converge max_iterations s = Some r ∧ keeps (i, j) s r.2.
Proof.
  intros Hedge Hout. apply relax_until_converge_keeps.
  intros x. apply iteration_keeps_off_interior; [geom'|exact Hout].
Qed.

Lemma convergence_loop_keeps_edge_witness :
  domain_edge 160 12 ∧ is_inside_beam 160 12 = false
  ∧ ∃ r, relax_until_converge 3 spike_state = Some r
         ∧ keeps (160, 12) spike_state r.2.
Proof.
  assert (domain_edge 160 12) as He by (unfold domain_edge, Nxmax; lia).
  exact (conj He (conj eq_refl
           (convergence_loop_keeps_edge 3 spike_state 160 12 He eq_refl))).
Defined.

(** ** The fields a run ends with *)

Lemma float_eq_on_range (f g : Z → float) (lo len : Z) :
  forallb (λ j, PrimFloat.Leibniz.eqb (f j) (g j)) (seqZ lo len) = true →
  ∀ j, lo ≤ j < lo + len → f j = g j.
Proof.
  intros Hall j Hj. rewrite forallb_forall in Hall.
  apply FloatAxioms.Leibniz.eqb_spec, Hall.
  apply list_elem_of_In, elem_of_seqZ. exact Hj.
Qed.

Lemma profile_normalized (j : Z) :
  0 ≤ j ≤ Nymax →
  (double_of_int j * V0 / (V0 * h))%float = (double_of_int j * V0)%float.
Proof.
  intros Hj.
  apply (float_eq_on_range (λ j, (double_of_int j * V0 / (V0 * h))%float)
           (λ j, (double_of_int j * V0)%float) 0 (Nymax + 1));
    [vm_compute; reflexivity|lia].
Qed.

Lemma finish_run_true (reynolds : float) (s : state) :
  finish_run reynolds (true, s)
  = (true, export_velocity_field reynolds
             (export_vorticity reynolds
                (export_streamfunction reynolds (normalize s)))).
Proof. reflexivity. Qed.

Lemma finish_run_false (reynolds : float) (s : state) :
  finish_run reynolds (false, s) = (false, s).
Proof. reflexivity. Qed.

Lemma finish_run_fields (reynolds : float) (r : bool * state) :
  (finish_run reynolds r).1 = r.1
  ∧ u (finish_run reynolds r).2 = (if r.1 then u (normalize r.2) else u r.2)
  ∧ w (finish_run reynolds r).2 = w r.2
  ∧ exports (finish_run reynolds r).2
    = exports r.2 ++ (if r.1 then run_files reynolds else []).
Proof.
  destruct r as [[] s]; cbn [fst snd].
  - rewrite finish_run_true. cbn [fst snd].
    destruct (normalize_scalars s) as (_ & _ & _ & _ & _ & _ & He).
    pose proof (normalize_same_w s) as Hw. unfold same_w in Hw.
    revert He Hw. generalize (normalize s). intros x He Hw.
    unfold export_velocity_field, export_vorticity, export_streamfunction,
      run_files.
    simpl. rewrite He, Hw, <- !app_assoc. by repeat split.
  - rewrite finish_run_false. cbn [fst snd]. rewrite app_nil_r. by repeat split.
Qed.

(** X9. The boundary conditions [borders] installs survive a whole run. In
    the state [run_simulation] ends with, successful or not, every grid
    node on the edge of the domain outside the beam still holds the inflow
    shear profile [u = j * V0] and zero vorticity. *)
Theorem run_keeps_boundary_conditions (reynolds : float) (s : state) (i j : Z) :
  on_grid i j → domain_edge i j → is_inside_beam i j = false →
  ∃ r, run_simulation reynolds s = Some r
       ∧ rd (u r.2) i j = (double_of_int j * V0)%float
       ∧ rd (w r.2) i j = 0%float.
Proof.
  intros Hg Hedge Hout.
  destruct (relax_until_converge_keeps (i, j) default_max_iterations
              (prepare_run reynolds s)) as (r0 & Hloop & Hkeep).
  { intros x. apply iteration_keeps_off_interior; [geom'|exact Hout]. }
  destruct (borders_shear_profile (configure_reynolds reynolds (reset_fields s))
              i j Hg) as [Hw Hu].
  rewrite (profile_outside _ _ Hout) in Hu.
  apply (rd_keeps (i, j)) in Hkeep. cbn [fst snd] in Hkeep.
  destruct Hkeep as [Hu0 Hw0].
  fold (prepare_run reynolds s) in Hu, Hw. rewrite Hu in Hu0. rewrite Hw in Hw0.
  exists (finish_run reynolds r0). unfold run_simulation. rewrite Hloop.
  split; [reflexivity|].
  destruct (finish_run_fields reynolds r0) as (_ & Hfu & Hfw & _).
  rewrite Hfu, Hfw. split; [|exact Hw0].
  destruct r0 as [[] s1]; cbn [fst snd] in *; [|exact Hu0].
  rewrite (rd_Some _ _ _ _ (normalize_node s1 i j Hg)), Hu0.
  apply profile_normalized. unfold on_grid in Hg. lia.
Qed.

Lemma run_keeps_boundary_conditions_witness :
  on_grid 0 17 ∧ domain_edge 0 17 ∧ is_inside_beam 0 17 = false
  ∧ ∃ r, run_simulation 1e6 initial_state = Some r
         ∧ rd (u r.2) 0 17 = (double_of_int 17 * V0)%float
         ∧ rd (w r.2) 0 17 = 0%float.
Proof.
  assert (on_grid 0 17) as Hg by (unfold on_grid, Nxmax, Nymax; lia).
  assert (domain_edge 0 17) as He by (unfold domain_edge; lia).
  exact (conj Hg (conj He (conj eq_refl
           (run_keeps_boundary_conditions 1e6 initial_state 0 17 Hg He eq_refl)))).
Defined.

Lemma relax_until_converge_ends_enforced (max_iterations : Z) (s : state) :
  ∃ r, relax_until_converge max_iterations s = Some r
       ∧ ∀ i j, is_inside_beam i j = true →
           u r.2 !! (i, j) = Some 0%float ∧ w r.2 !! (i, j) = Some 0%float.
Proof.
  destruct (relax_until_converge_last_pass max_iterations s)
    as (fuel' & iter' & s0 & _ & _ & Hloop).
  eexists. split; [exact Hloop|]. intros i j Hin.
  rewrite loop_result_state.
  destruct (final_exit_arrays
              (effective_tolerance (R_target (mesh_reynolds s))) iter' s0)
    as [-> ->].
  rewrite iteration_state. by apply beam_boundaries_inside.
Qed.

(** X10. In the state [run_simulation] ends with, successful or not, both
    fields are exactly [0.0] at every node inside the beam: the last pass
    of the loop ends with the enforcement and [normalize] divides zero. *)
Theorem run_zero_inside_beam (reynolds : float) (s : state) (i j : Z) :
  is_inside_beam i j = true →
  ∃ r, run_simulation reynolds s = Some r
       ∧ rd (u r.2) i j = 0%float ∧ rd (w r.2) i j = 0%float.
Proof.
  intros Hin.
  destruct (relax_until_converge_ends_enforced default_max_iterations
              (prepare_run reynolds s)) as (r0 & Hloop & Hzero).
  destruct (Hzero i j Hin) as [Hu Hw]. clear Hzero.
  exists (finish_run reynolds r0). unfold run_simulation. rewrite Hloop.
  split; [reflexivity|].
  destruct (finish_run_fields reynolds r0) as (_ & Hfu & Hfw & _).
  rewrite Hfu, Hfw. split; [|by apply rd_Some].
  destruct r0 as [[] s1]; cbn [fst snd] in *; [|by apply rd_Some].
  assert (on_grid i j) as Hg by geom.
  rewrite (rd_Some _ _ _ _ (normalize_node s1 i j Hg)).
  rewrite (rd_Some _ _ _ _ Hu). vm_compute. reflexivity.
Qed.

Lemma run_zero_inside_beam_witness :
  is_inside_beam 14 3 = true
  ∧ ∃ r, run_simulation 1e6 initial_state = Some r
         ∧ rd (u r.2) 14 3 = 0%float ∧ rd (w r.2) 14 3 = 0%float.
Proof.
  exact (conj eq_refl (run_zero_inside_beam 1e6 initial_state 14 3 eq_refl)).
Defined.

(** ** The export log *)

Lemma relax_until_converge_exports (max_iterations : Z) (s : state) :
  ∃ r, relax_until_converge max_iterations s = Some r ∧ exports r.2 = exports s.
Proof.
  destruct (relax_until_converge_last_pass max_iterations s)
    as (fuel' & iter' & s0 & Hreach & _ & Hloop).
  eexists. split; [exact Hloop|].
  rewrite loop_result_state.
  destruct (final_exit_scalars
              (effective_tolerance (R_target (mesh_reynolds s))) iter' s0)
    as [_ ->].
  destruct (loop_reaches_scalars _ _ _ _ _ _ _ _ Hreach) as [_ ->].
  apply mesh_reynolds_fields.
Qed.

Lemma run_simulation_exports (reynolds : float) (s : state) :
  ∃ r, run_simulation reynolds s = Some r
       ∧ exports r.2 = exports s ++ (if r.1 then run_files reynolds else []).
Proof.
  destruct (relax_until_converge_exports default_max_iterations
              (prepare_run reynolds s)) as (r0 & Hloop & He).
  destruct (prepare_run_scalars reynolds s) as (_ & _ & _ & He0).
  rewrite He0 in He.
  exists (finish_run reynolds r0). unfold run_simulation. rewrite Hloop.
  split; [reflexivity|].
  destruct (finish_run_fields reynolds r0) as (-> & _ & _ & ->).
  by rewrite He.
Qed.

(** X11. [run_simulation] always returns, and the files it writes follow
    its verdict: when it returns [true] it has written exactly the
    stream-function, vorticity and velocity-field files of its Reynolds
    number, in that order; when it returns [false] it has written none. *)
Theorem run_simulation_writes_on_success (reynolds : float) (s : state) :
  ∃ r, run_simulation reynolds s = Some r
       ∧ (r.1 = true → exports r.2 = exports s ++ run_files reynolds)
       ∧ (r.1 = false → exports r.2 = exports s).
Proof.
  destruct (run_simulation_exports reynolds s) as (r & Hrun & He).
  exists r. split; [exact Hrun|].
  split; intros Hb; rewrite Hb in He; [exact He|by rewrite app_nil_r in He].
Qed.

(** X12. The sweep of [main] always returns, for every list of targets.
    The number of successful simulations it counts grows by at most one per
    target, and the export log grows by exactly three files per counted
    success. *)
Theorem run_sweep_accounts (targets : list float) (n : Z) (s : state) :
  ∃ n' s', run_sweep targets n s = Some (n', s')
           ∧ n ≤ n' ≤ n + Z.of_nat (length targets)
           ∧ Z.of_nat (length (exports s'))
             = Z.of_nat (length (exports s)) + 3 * (n' - n).
Proof.
  revert n s. induction targets as [|re rest IH]; intros n s.
  - exists n, s. simpl. split; [reflexivity|]. lia.
  - destruct (run_simulation_exports re s) as (r & Hrun & He).
    destruct (IH (if r.1 then n + 1 else n) r.2) as (n' & s' & Hrest & Hn & Hlen).
    exists n', s'. rewrite (run_sweep_cons _ _ _ _ _ Hrun).
    split; [exact Hrest|].
    rewrite Hlen, He, length_app. clear Hrest Hlen He Hrun.
    destruct r as [[] s1]; cbn [fst snd] in *; simpl length; lia.
Qed.

(** ** The stagnation counters under a small iteration cap *)

Lemma loop_next_statics (max_iterations : Z) (effective_tol : float)
    (iter iter' : Z) (s s' : state) :
  loop_next max_iterations effective_tol iter s = Some (iter', s') →
  iter + 1 ≤ 50000 →
  last_w_error s' = last_w_error s ∧ stagnant_count s' = stagnant_count s.
Proof.
  unfold loop_next.
  destruct (iteration_scalars s) as (_ & _ & _ & _ & Hl & Hc & _). revert Hl Hc.
  destruct (iteration s) as [[s1 du] dw]. cbv zeta. cbn [fst snd].
  intros Hl Hc Hnext Hcap. revert Hnext.
  destruct (diverging (R_target s1) du dw); [discriminate|].
  destruct ((du <? effective_tol)%float && (dw <? effective_tol)%float);
    [discriminate|].
  replace (50000 <? iter + 1) with false by (symmetry; apply Z.ltb_ge; lia).
  rewrite andb_false_r.
  destruct (iter + 1 <? max_iterations); [|discriminate].
  intros E. injection E as _ <-. by split.
Qed.

Lemma final_exit_statics (effective_tol : float) (iter : Z) (s : state) :
  iter + 1 ≤ 50000 →
  last_w_error (exit_state (final_exit effective_tol iter s)) = last_w_error s
  ∧ stagnant_count (exit_state (final_exit effective_tol iter s))
    = stagnant_count s.
Proof.
  intros Hcap. unfold final_exit.
  destruct (iteration_scalars s) as (_ & _ & _ & _ & Hl & Hc & _). revert Hl Hc.
  destruct (iteration s) as [[s1 du] dw]. cbv zeta. cbn [fst snd].
  intros Hl Hc.
  destruct (diverging (R_target s1) du dw); [by split|].
  destruct ((du <? effective_tol)%float && (dw <? effective_tol)%float);
    [by split|].
  replace (50000 <? iter + 1) with false by (symmetry; apply Z.ltb_ge; lia).
  rewrite andb_false_r. by split.
Qed.

Lemma loop_reaches_statics (max_iterations : Z) (effective_tol : float)
    (fuel : nat) (iter : Z) (s : state) (fuel' : nat) (iter' : Z) (s' : state) :
  loop_reaches max_iterations effective_tol fuel iter s fuel' iter' s' →
  max_iterations ≤ 50000 → iter + 1 ≤ 50000 →
  iter' + 1 ≤ 50000
  ∧ last_w_error s' = last_w_error s ∧ stagnant_count s' = stagnant_count s.
Proof.
  induction 1 as [|fuel iter s iter1 s1 fuel' iter' s' Hnext _ IH];
    intros Hmax Hcap; [by repeat split|].
  destruct (loop_next_statics _ _ _ _ _ _ Hnext Hcap) as [Hl Hc].
  destruct (loop_next_scalars _ _ _ _ _ _ Hnext) as (_ & _ & -> & Hlt).
  destruct (IH Hmax ltac:(lia)) as (Hi & -> & ->). by repeat split.
Qed.

(** ** NaN in the change norms *)

Lemma is_nan_spec (x : float) : is_nan x = true ↔ Prim2SF x = S754_nan.
Proof.
  unfold is_nan. rewrite FloatAxioms.eqb_spec. unfold SFeqb.
  destruct (Prim2SF x) as [sx|sx| |sx mx ex]; simpl;
    try destruct sx; simpl;
    rewrite ?Z.compare_refl; change (Pos.compare_cont Eq) with Pos.compare;
    rewrite ?Pos.compare_refl; split; (discriminate || reflexivity).
Qed.

Lemma nan_sub_l (a b : float) : is_nan a = true → is_nan (a - b)%float = true.
Proof.
  rewrite !is_nan_spec, sub_spec. intros ->. unfold SF64sub. simpl.
  by destruct (Prim2SF b).
Qed.

Lemma nan_abs (a : float) : is_nan a = true → is_nan (abs a) = true.
Proof. rewrite !is_nan_spec, abs_spec. by intros ->. Qed.

Lemma ltb_nan_r (m x : float) : is_nan x = true → (m <? x)%float = false.
Proof.
  rewrite is_nan_spec, ltb_spec. intros ->. unfold SFltb.
  by destruct (Prim2SF m).
Qed.

Lemma foldl_fmax_all_nan {B : Type} (g : B → float) (l : list B) (a : float) :
  (∀ p, p ∈ l → is_nan (g p) = true) → foldl (λ m p, fmax m (g p)) a l = a.
Proof.
  revert a. induction l as [|p l IH]; intros a Hall; [reflexivity|].
  simpl. unfold fmax at 2.
  rewrite (ltb_nan_r a (g p)) by (apply Hall, elem_of_cons; by left).
  apply IH. intros q Hq. apply Hall, elem_of_cons. by right.
Qed.

Lemma max_change_all_nan (old new : gmap (Z * Z) float) :
  (∀ p, p ∈ interior_nodes → is_nan (rd new p.1 p.2) = true) →
  max_change old new = 0%float.
Proof.
  intros Hall. unfold max_change.
  apply (foldl_fmax_all_nan (λ p, abs (rd new p.1 p.2 - rd old p.1 p.2)%float)).
  intros p Hp. by apply nan_abs, nan_sub_l, Hall.
Qed.

Lemma iteration_norms (s : state) :
  (iteration s).1.2 = max_change (u (beam_boundaries s)) (u (iteration s).1.1)
  ∧ (iteration s).2 = max_change (w (beam_boundaries s)) (w (iteration s).1.1).
Proof.
  rewrite iteration_state. unfold iteration.
  rewrite max_differences_spec, !max_change_snapshot. by split.
Qed.

Lemma all_nan_spec (s : state) :
  all_nan s = true →
  ∀ p, p ∈ interior_nodes →
    is_nan (rd (u s) p.1 p.2) = true ∧ is_nan (rd (w s) p.1 p.2) = true.
Proof.
  unfold all_nan. rewrite forallb_forall. intros Hall p Hp.
  apply andb_true_iff, Hall, list_elem_of_In, Hp.
Qed.

Lemma diverging_zero (r : float) : diverging r 0 0 = false.
Proof.
  unfold diverging, divergence_threshold.
  destruct (5.0 <=? r)%float; vm_compute; reflexivity.
Qed.

Lemma loop_result_done (max_iterations : Z) (r : float) (iter : Z)
    (du dw : float) (s : state) :
  R_target s = r →
  loop_result max_iterations (effective_tolerance r) (Loop_done iter du dw s)
  = (if max_iterations <=? iter
     then (du <? acceptance_threshold r)%float else true, s).
Proof.
  intros HR. unfold loop_result, acceptance_threshold. rewrite HR.
  destruct (max_iterations <=? iter); [|reflexivity].
  by destruct (5.0 <=? r)%float; destruct (_ <? _)%float.
Qed.

(** X14. The two change norms are never NaN, whatever the fields hold:
    [std::max(acc, x)] keeps [acc] when [x] is NaN and the reduction starts
    from [0.0]. Of the four tests of the divergence check, the two
    [std::isnan] tests therefore never succeed. *)
Theorem change_norms_never_nan (s : state) (r_target : float) :
  is_nan (iteration s).1.2 = false
  ∧ is_nan (iteration s).2 = false
  ∧ diverging r_target (iteration s).1.2 (iteration s).2
    = (divergence_threshold r_target <? (iteration s).1.2)%float
      || (divergence_threshold r_target <? (iteration s).2)%float.
Proof.
  destruct (iteration_norms_not_nan s) as [Hu Hw].
  split; [exact Hu|]. split; [exact Hw|].
  unfold diverging. rewrite Hu, Hw. reflexivity.
Qed.

(** X15. Fields that have turned into NaN are reported as converged. If a
    pass of the loop ends with both fields NaN at every interior node
    outside the beam, both change norms of that pass are [0.0] and
    [relax_until_converge] returns [true] with the state of that pass. *)
Theorem nan_fields_pass_as_converged (max_iterations : Z) (s : state)
    (fuel : nat) (iter : Z) (s0 : state) :
  loop_reaches max_iterations
    (effective_tolerance (R_target (mesh_reynolds s)))
    (S (Z.to_nat max_iterations)) 0 (mesh_reynolds s) (S fuel) iter s0 →
  all_nan (iteration s0).1.1 = true →
  (iteration s0).1.2 = 0%float ∧ (iteration s0).2 = 0%float
  ∧ relax_until_converge max_iterations s = Some (true, (iteration s0).1.1).
Proof.
  intros Hreach Hnan.
  pose proof (all_nan_spec _ Hnan) as Hall.
  destruct (iteration_norms s0) as [Hdu Hdw].
  rewrite max_change_all_nan in Hdu by (intros p Hp; apply (Hall p Hp)).
  rewrite max_change_all_nan in Hdw by (intros p Hp; apply (Hall p Hp)).
  split; [exact Hdu|]. split; [exact Hdw|].
  destruct (loop_reaches_scalars _ _ _ _ _ _ _ _ Hreach) as [HR0 _].
  destruct (iteration_scalars s0) as (_ & _ & HR1 & _).
  rewrite HR0 in HR1. clear HR0.
  unfold relax_until_converge.
  rewrite (relax_loop_reaches _ _ _ _ _ _ _ _ Hreach), relax_loop_unfold.
  revert Hdu Hdw HR1. clear Hnan Hall Hreach.
  generalize (R_target (mesh_reynolds s)) as r.
  destruct (iteration s0) as [[s1 du] dw]. cbn [fst snd].
  intros r -> -> HR1. cbv zeta. rewrite diverging_zero.
  rewrite (tolerance_positive r). cbn [andb fmap option_fmap option_map].
  rewrite (loop_result_done _ _ _ _ _ _ HR1).
  rewrite (fltb_trans _ _ _ (tolerance_positive r)
             (tolerance_below_acceptance r)).
  destruct (max_iterations <=? iter + 1); reflexivity.
Qed.

(** The seeded state reaches the hypothesis of the property above in its
    first pass. *)
Lemma nan_fields_pass_as_converged_witness :
  all_nan (iteration (mesh_reynolds nan_seeded_state)).1.1 = true
  ∧ relax_until_converge default_max_iterations nan_seeded_state
    = Some (true, (iteration (mesh_reynolds nan_seeded_state)).1.1).
Proof.
  assert (Hnan : all_nan (iteration (mesh_reynolds nan_seeded_state)).1.1 = true)
    by (vm_compute; reflexivity).
  split; [exact Hnan|].
  exact (proj2 (proj2 (nan_fields_pass_as_converged default_max_iterations
           nan_seeded_state (Z.to_nat default_max_iterations) 0
           (mesh_reynolds nan_seeded_state)
           (reaches_here _ _ _ _ _) Hnan))).
Defined.

(** ** The stream-function sweep in loop order *)

Lemma relax_stream_function_foldl (s : state) :
  relax_stream_function s
  = foldl (λ s p, relax_stream_node p.1 p.2 s) s interior_nodes.
Proof.
  unfold relax_stream_function.
  rewrite (for_range2_foldl 1 (Nxmax - 1) 1 (Nymax - 1) relax_stream_node).
  rewrite (foldl_ext_in _
             (λ a (p : Z * Z),
                if is_inside_beam p.1 p.2 then a
                else relax_stream_node p.1 p.2 a)).
  - apply (foldl_skip (λ p : Z * Z, is_inside_beam p.1 p.2)
             (λ a p, relax_stream_node p.1 p.2 a)).
  - intros a p _. unfold relax_stream_node.
    by destruct (is_inside_beam p.1 p.2).
Qed.

Lemma relax_stream_node_other (i j : Z) (s : state) (q : Z * Z) :
  q ≠ (i, j) → u (relax_stream_node i j s) !! q = u s !! q.
Proof.
  intros Hq. unfold relax_stream_node.
  destruct (is_inside_beam i j); [reflexivity|].
  cbv zeta. unfold set_u. cbn [u]. by apply lookup_insert_ne.
Qed.

Lemma relax_stream_node_w (i j : Z) (s : state) :
  w (relax_stream_node i j s) = w s ∧ omega (relax_stream_node i j s) = omega s.
Proof. unfold relax_stream_node. by destruct (is_inside_beam i j). Qed.

Lemma stream_nodes_other (l : list (Z * Z)) (s : state) (q : Z * Z) :
  q ∉ l →
  u (foldl (λ s p, relax_stream_node p.1 p.2 s) s l) !! q = u s !! q.
Proof.
  revert s. induction l as [|p l IH]; intros s Hq; [reflexivity|].
  apply not_elem_of_cons in Hq as [Hp Hl]. simpl. rewrite (IH _ Hl).
  apply relax_stream_node_other. by destruct p.
Qed.

Lemma stream_nodes_w (l : list (Z * Z)) (s : state) :
  w (foldl (λ s p, relax_stream_node p.1 p.2 s) s l) = w s
  ∧ omega (foldl (λ s p, relax_stream_node p.1 p.2 s) s l) = omega s.
Proof.
  revert s. induction l as [|p l IH]; intros s; [by split|].
  simpl. destruct (IH (relax_stream_node p.1 p.2 s)) as [-> ->].
  apply relax_stream_node_w.
Qed.

Lemma rd_lookup (a b : gmap (Z * Z) float) (i j : Z) :
  a !! (i, j) = b !! (i, j) → rd a i j = rd b i j.
Proof. unfold rd. by intros ->. Qed.

Lemma row_order_trans (p q r : Z * Z) :
  row_order p q = true → row_order q r = true → row_order p r = true.
Proof.
  unfold row_order.
  rewrite !orb_true_iff, !andb_true_iff, !Z.ltb_lt, !Z.eqb_eq. lia.
Qed.

Lemma row_order_asym (p q : Z * Z) :
  row_order p q = true → row_order q p = true → False.
Proof.
  unfold row_order.
  rewrite !orb_true_iff, !andb_true_iff, !Z.ltb_lt, !Z.eqb_eq. lia.
Qed.

Lemma ascending_from_all (l : list (Z * Z)) (p q : Z * Z) :
  ascending_from p l = true → q ∈ l → row_order p q = true.
Proof.
  revert p. induction l as [|r l IH]; intros p Hasc Hq.
  - by apply elem_of_nil in Hq.
  - simpl in Hasc. apply andb_true_iff in Hasc as [Hpr Hrl].
    apply elem_of_cons in Hq as [->|Hq]; [exact Hpr|].
    apply (row_order_trans p r q Hpr). by apply IH.
Qed.

Lemma ascending_split (l1 l2 : list (Z * Z)) (p q : Z * Z) :
  ascending (l1 ++ p :: l2) = true →
  (q ∈ l1 → row_order q p = true) ∧ (q ∈ l2 → row_order p q = true).
Proof.
  destruct l1 as [|r l1].
  - simpl. intros Hasc. split; [by intros ?%elem_of_nil|].
    by apply ascending_from_all.
  - simpl. revert r. induction l1 as [|r' l1 IH]; intros r Hasc.
    + simpl in Hasc. apply andb_true_iff in Hasc as [Hrp Hpl].
      split.
      * intros Hq%list_elem_of_singleton. by subst q.
      * by apply ascending_from_all.
    + simpl in Hasc. apply andb_true_iff in Hasc as [Hrr' Hrest].
      destruct (IH r' Hrest) as [Hbefore Hafter].
      split; [|exact Hafter].
      intros [->|Hq]%elem_of_cons; [|by apply Hbefore].
      apply (row_order_trans r r' p Hrr'). apply (ascending_from_all _ r' p Hrest).
      apply elem_of_app. right. apply elem_of_cons. by left.
Qed.

Lemma interior_nodes_ascending : ascending interior_nodes = true.
Proof. vm_compute. reflexivity. Qed.

(** X16. Run in loop order, the stream-function sweep is a Gauss-Seidel
    sweep in place: at an interior node outside the beam the new value is
    [u + omega * (0.25 * (E + W + N + S + h*h*w) - u)], where the east and
    north neighbours [u[i+1][j]], [u[i][j+1]] still hold their values from
    before the sweep and the west and south neighbours [u[i-1][j]],
    [u[i][j-1]] already hold their values from after it. *)
Theorem stream_sweep_in_place (s : state) (i j : Z) :
  interior i j → is_inside_beam i j = false →
  rd (u (relax_stream_function s)) i j
  = (rd (u s) i j
     + omega s
       * (0.25 * (rd (u s) (i + 1) j
                  + rd (u (relax_stream_function s)) (i - 1) j
                  + rd (u s) i (j + 1)
                  + rd (u (relax_stream_function s)) i (j - 1)
                  + h * h * rd (w s) i j)
          - rd (u s) i j))%float.
Proof.
  intros Hint Hout.
  assert (Hin : (i, j) ∈ interior_nodes)
    by (apply interior_nodes_spec; cbn [fst snd]; unfold interior in Hint;
        split; [exact Hout|lia]).
  rewrite relax_stream_function_foldl.
  pose proof interior_nodes_ascending as Hasc. revert Hasc.
  apply list_elem_of_split in Hin as (l1 & l2 & ->). intros Hasc.
  assert (Hord : ∀ q, (q ∈ l1 → row_order q (i, j) = true)
                      ∧ (q ∈ l2 → row_order (i, j) q = true))
    by (intros q; apply (ascending_split l1 l2 (i, j) q Hasc)).
  clear Hasc.
  assert (Hl1 : ∀ q, row_order q (i, j) = false → q ∉ l1)
    by (intros q Hq Hel; apply (Hord q) in Hel; congruence).
  assert (Hl2 : ∀ q, row_order (i, j) q = false → q ∉ l2)
    by (intros q Hq Hel; apply (Hord q) in Hel; congruence).
  clear Hord.
  assert (Hrow : ∀ a b c d : Z, row_order (a, b) (c, d) = false ↔ ¬ (a < c ∨ (a = c ∧ b < d))).
  { intros a b c d. unfold row_order. cbn [fst snd].
    rewrite <- not_true_iff_false, orb_true_iff, andb_true_iff, !Z.ltb_lt, Z.eqb_eq.
    reflexivity. }
  rewrite foldl_app. cbn [foldl fst snd].
  set (s1 := foldl (λ s p, relax_stream_node p.1 p.2 s) s l1).
  assert (Hafter : ∀ q, q ≠ (i, j) → row_order (i, j) q = false →
            u (foldl (λ s p, relax_stream_node p.1 p.2 s)
                 (relax_stream_node i j s1) l2) !! q = u s1 !! q).
  { intros q Hne Hq. rewrite (stream_nodes_other l2 _ q (Hl2 q Hq)).
    by apply relax_stream_node_other. }
  assert (Hbefore : ∀ q, row_order q (i, j) = false → u s1 !! q = u s !! q).
  { intros q Hq. apply stream_nodes_other, Hl1, Hq. }
  rewrite (rd_lookup _ (u (relax_stream_node i j s1)) i j)
    by (apply stream_nodes_other, Hl2, Hrow; lia).
  rewrite (rd_lookup _ (u s1) (i - 1) j)
    by (apply Hafter; [intros [= ?]; lia|apply Hrow; lia]).
  rewrite (rd_lookup _ (u s1) i (j - 1))
    by (apply Hafter; [intros [= ?]; lia|apply Hrow; lia]).
  rewrite <- (rd_lookup (u s1) (u s) i j) by (apply Hbefore, Hrow; lia).
  rewrite <- (rd_lookup (u s1) (u s) (i + 1) j) by (apply Hbefore, Hrow; lia).
  rewrite <- (rd_lookup (u s1) (u s) i (j + 1)) by (apply Hbefore, Hrow; lia).
  destruct (stream_nodes_w l1 s) as [Hw Hom]. fold s1 in Hw, Hom.
  rewrite <- Hw, <- Hom.
  unfold relax_stream_node. rewrite Hout. cbv zeta.
  unfold set_u, rd at 1. cbn [u]. rewrite lookup_insert_eq. reflexivity.
Qed.

Lemma stream_sweep_in_place_witness :
  interior 5 5 ∧ is_inside_beam 5 5 = false
  ∧ rd (u (relax_stream_function initial_state)) 5 5
    = (rd (u initial_state) 5 5
       + omega initial_state
         * (0.25 * (rd (u initial_state) 6 5
                    + rd (u (relax_stream_function initial_state)) 4 5
                    + rd (u initial_state) 5 6
                    + rd (u (relax_stream_function initial_state)) 5 4
                    + h * h * rd (w initial_state) 5 5)
            - rd (u initial_state) 5 5))%float.
Proof.
  assert (Hint : interior 5 5) by (unfold interior, Nxmax, Nymax; lia).
  split; [exact Hint|]. split; [reflexivity|].
  exact (stream_sweep_in_place initial_state 5 5 Hint eq_refl).
Defined.

(** ** The exported tables *)

Lemma foldl_append_rows {A B : Type} (g : B → A) (l : list B) (rows : list A) :
  foldl (λ rows p, rows ++ [g p]) rows l = rows ++ (g <$> l).
Proof.
  revert rows. induction l as [|p l IH]; intros rows.
  - simpl. by rewrite app_nil_r.
  - simpl. rewrite IH, <- app_assoc. reflexivity.
Qed.

Lemma field_rows_spec (a : gmap (Z * Z) float) :
  field_rows a
  = (λ p : Z * Z, ((double_of_int p.1 * h)%float, (double_of_int p.2 * h)%float,
                   rd a p.1 p.2)) <$> table_nodes.
Proof.
  unfold field_rows.
  rewrite (for_range2_foldl 0 (Nxmax - 1) 0 (Nymax - 1)
             (λ i j (rows : list (float * float * float)),
                rows ++ [((double_of_int i * h)%float,
                          (double_of_int j * h)%float, rd a i j)])).
  apply (foldl_append_rows
           (λ p : Z * Z, ((double_of_int p.1 * h)%float,
                          (double_of_int p.2 * h)%float, rd a p.1 p.2))).
Qed.

Lemma table_nodes_spec (p : Z * Z) :
  p ∈ table_nodes ↔ 0 ≤ p.1 < Nxmax ∧ 0 ≤ p.2 < Nymax.
Proof.
  unfold table_nodes. rewrite list_elem_of_bind. split.
  - intros (i & Hp & Hi). apply list_elem_of_bind in Hp.
    destruct Hp as (j & Hp & Hj). apply list_elem_of_singleton in Hp. subst p.
    apply elem_of_seqZ in Hi, Hj. cbn [fst snd]. lia.
  - intros (Hi & Hj). exists p.1. split; [|apply elem_of_seqZ; lia].
    apply list_elem_of_bind. exists p.2.
    split; [destruct p; apply list_elem_of_singleton; reflexivity|].
    apply elem_of_seqZ. lia.
Qed.

Lemma velocity_field_rows_spec (s : state) :
  velocity_field_rows s
  = (λ p : Z * Z, velocity_row (u s) p.1 p.2) <$> velocity_nodes.
Proof.
  unfold velocity_field_rows.
  rewrite (for_range2_foldl 1 (Nxmax - 2) 1 (Nymax - 2)
             (λ i j (rows : list (float * float * float * float * float)),
                if is_inside_beam i j then rows
                else rows ++ [velocity_row (u s) i j])).
  rewrite (foldl_skip (λ p : Z * Z, is_inside_beam p.1 p.2)
             (λ rows p, rows ++ [velocity_row (u s) p.1 p.2])).
  apply (foldl_append_rows (λ p : Z * Z, velocity_row (u s) p.1 p.2)).
Qed.

Lemma velocity_nodes_spec (p : Z * Z) :
  p ∈ velocity_nodes
  ↔ is_inside_beam p.1 p.2 = false ∧ 1 ≤ p.1 ≤ Nxmax - 2 ∧ 1 ≤ p.2 ≤ Nymax - 2.
Proof.
  unfold velocity_nodes. rewrite list_elem_of_filter, list_elem_of_bind.
  split.
  - intros (Hout & i & Hp & Hi). apply list_elem_of_bind in Hp.
    destruct Hp as (j & Hp & Hj). apply list_elem_of_singleton in Hp. subst p.
    apply elem_of_seqZ in Hi, Hj. cbn [fst snd] in *. split; [exact Hout|]. lia.
  - intros (Hout & Hi & Hj). split; [exact Hout|].
    exists p.1. split; [|apply elem_of_seqZ; lia].
    apply list_elem_of_bind. exists p.2.
    split; [destruct p; apply list_elem_of_singleton; reflexivity|].
    apply elem_of_seqZ. lia.
Qed.

(** X17. The tables of [export_streamfunction] and [export_vorticity] hold
    one line [x y value] for each node [0 <= i < Nxmax], [0 <= j < Nymax],
    column by column, with [x = i * h], [y = j * h] and the value read at
    [(i, j)]: [Nxmax * Nymax] lines each. The last column [i = Nxmax] and
    the top row [j = Nymax] of the grid, which [borders] and the sweeps
    use, are not in the tables. *)
Theorem field_tables_cover (s : state) :
  streamfunction_rows s
  = (λ p : Z * Z, ((double_of_int p.1 * h)%float, (double_of_int p.2 * h)%float,
                   rd (u s) p.1 p.2)) <$> table_nodes
  ∧ vorticity_rows s
    = (λ p : Z * Z, ((double_of_int p.1 * h)%float, (double_of_int p.2 * h)%float,
                     rd (w s) p.1 p.2)) <$> table_nodes
  ∧ (∀ p, p ∈ table_nodes ↔ 0 ≤ p.1 < Nxmax ∧ 0 ≤ p.2 < Nymax)
  ∧ length (streamfunction_rows s) = Z.to_nat (Nxmax * Nymax)
  ∧ length (vorticity_rows s) = Z.to_nat (Nxmax * Nymax)
  ∧ (∀ j, (Nxmax, j) ∉ table_nodes) ∧ (∀ i, (i, Nymax) ∉ table_nodes).
Proof.
  unfold streamfunction_rows, vorticity_rows. rewrite !field_rows_spec.
  split; [reflexivity|]. split; [reflexivity|].
  split; [exact table_nodes_spec|].
  rewrite !length_fmap.
  assert (Hlen : length table_nodes = Z.to_nat (Nxmax * Nymax))
    by (vm_compute; reflexivity).
  split; [exact Hlen|]. split; [exact Hlen|].
  split.
  - intros j Hin. apply table_nodes_spec in Hin. cbn [fst snd] in Hin. lia.
  - intros i Hin. apply table_nodes_spec in Hin. cbn [fst snd] in Hin. lia.
Qed.

(** X18. The table of [export_velocity_field] holds one line
    [x y vx vy v_mag] for each node [1 <= i <= Nxmax - 2],
    [1 <= j <= Nymax - 2] outside the beam, column by column, and none for
    a node inside the beam, with [x = i * h], [y = j * h],
    [vx = (u[i][j+1] - u[i][j-1]) / (2.0 * h)],
    [vy = -(u[i+1][j] - u[i-1][j]) / (2.0 * h)] and
    [v_mag = sqrt(vx*vx + vy*vy)]. The four values of [u] a line reads lie
    in the range [0 <= i < Nxmax], [0 <= j < Nymax] of the table of the
    stream function. *)
Theorem velocity_table_covers (s : state) :
  velocity_field_rows s
  = (λ p : Z * Z,
       let vx := ((rd (u s) p.1 (p.2 + 1) - rd (u s) p.1 (p.2 - 1))
                  / (2.0 * h))%float in
       let vy := (- (rd (u s) (p.1 + 1) p.2 - rd (u s) (p.1 - 1) p.2)
                  / (2.0 * h))%float in
       ((double_of_int p.1 * h)%float, (double_of_int p.2 * h)%float,
        vx, vy, sqrt (vx * vx + vy * vy)%float)) <$> velocity_nodes
  ∧ (∀ p, p ∈ velocity_nodes
          ↔ is_inside_beam p.1 p.2 = false
            ∧ 1 ≤ p.1 ≤ Nxmax - 2 ∧ 1 ≤ p.2 ≤ Nymax - 2)
  ∧ (∀ p, p ∈ velocity_nodes →
       (p.1, p.2 + 1) ∈ table_nodes ∧ (p.1, p.2 - 1) ∈ table_nodes
       ∧ (p.1 + 1, p.2) ∈ table_nodes ∧ (p.1 - 1, p.2) ∈ table_nodes)
  ∧ length (velocity_field_rows s) = 4352%nat.
Proof.
  rewrite velocity_field_rows_spec.
  split; [reflexivity|]. split; [exact velocity_nodes_spec|].
  split.
  - intros p Hp. apply velocity_nodes_spec in Hp as (_ & Hi & Hj).
    rewrite !table_nodes_spec. cbn [fst snd]. lia.
  - rewrite length_fmap. vm_compute. reflexivity.
Qed.

(** ** The neighbour count of the smoothing pass *)

Lemma foldl_count {B : Type} (t : B → bool) (g : B → float) (l : list B)
    (acc : float * Z) :
  (foldl (λ (acc : float * Z) p,
            if t p then ((acc.1 + g p)%float, acc.2 + 1) else acc) acc l).2
  = acc.2 + Z.of_nat (length (filter (λ p, t p = true) l)).
Proof.
  revert acc. induction l as [|p l IH]; intros acc; [simpl; lia|].
  simpl. rewrite IH. destruct (t p) eqn:E.
  - rewrite filter_cons_True by assumption. cbn [snd length]. lia.
  - rewrite filter_cons_False by congruence. reflexivity.
Qed.

Lemma neighbour_count (wf : gmap (Z * Z) float) (ii jj : Z) :
  (neighbour_sum wf ii jj).2
  = Z.of_nat (length (filter
      (λ d : Z * Z,
         (0 <=? ii + d.1) && (ii + d.1 <=? Nxmax)
         && (0 <=? jj + d.2) && (jj + d.2 <=? Nymax)
         && negb (is_inside_beam (ii + d.1) (jj + d.2))
         && negb ((d.1 =? 0) && (d.2 =? 0)) = true)
      [(-1, -1); (-1, 0); (-1, 1); (0, -1); (0, 0); (0, 1);
       (1, -1); (1, 0); (1, 1)])).
Proof.
  unfold neighbour_sum.
  rewrite (for_range2_foldl (-1) 1 (-1) 1
             (λ ddi ddj (acc : float * Z),
                if (0 <=? ii + ddi) && (ii + ddi <=? Nxmax)
                   && (0 <=? jj + ddj) && (jj + ddj <=? Nymax)
                   && negb (is_inside_beam (ii + ddi) (jj + ddj))
                   && negb ((ddi =? 0) && (ddj =? 0))
                then ((acc.1 + rd wf (ii + ddi) (jj + ddj))%float, acc.2 + 1)
                else acc)).
  apply (foldl_count
           (λ d : Z * Z,
              (0 <=? ii + d.1) && (ii + d.1 <=? Nxmax)
              && (0 <=? jj + d.2) && (jj + d.2 <=? Nymax)
              && negb (is_inside_beam (ii + d.1) (jj + d.2))
              && negb ((d.1 =? 0) && (d.2 =? 0)))
           (λ d : Z * Z, rd wf (ii + d.1) (jj + d.2))).
Qed.

(** X19. In the smoothing pass the guard [count > 0] never fails: a node
    the pass treats (inside the grid, outside the beam) has at least one
    and at most eight neighbours that count. A spike [|w| > 2.0] at such a node is therefore always
    replaced by [0.6 * w + 0.4 * (smooth_w / count)]. *)
Theorem smoothing_always_blends (s : state) (ii jj : Z) :
  0 < ii < Nxmax → 0 < jj < Nymax → is_inside_beam ii jj = false →
  0 < (neighbour_sum (w s) ii jj).2 ≤ 8
  ∧ ((2.0 <? abs (rd (w s) ii jj))%float = true →
     smooth_node ii jj s
     = set_w s ii jj
         (0.6 * rd (w s) ii jj
          + 0.4 * ((neighbour_sum (w s) ii jj).1
                   / double_of_int (neighbour_sum (w s) ii jj).2))%float).
Proof.
  intros Hi Hj Hout.
  assert (Hcount : 0 < (neighbour_sum (w s) ii jj).2 ≤ 8).
  { rewrite neighbour_count.
    set (t := λ d : Z * Z, _ = true).
    split.
    - assert (Hin : (0, 1) ∈ filter t
                [(-1, -1); (-1, 0); (-1, 1); (0, -1); (0, 0); (0, 1);
                 (1, -1); (1, 0); (1, 1)]).
      { apply list_elem_of_filter.
        split; [|apply list_elem_of_In; do 5 right; left; reflexivity].
        unfold t. cbn [fst snd]. rewrite Z.add_0_r.
        assert (Hup : is_inside_beam ii (jj + 1) = false).
        { unfold is_inside_beam in *.
          rewrite !andb_false_iff, !Z.leb_gt in *. lia. }
        rewrite Hup.
        rewrite !andb_true_iff, !Z.leb_le. unfold Nxmax, Nymax in *.
        repeat split; try lia. }
      destruct (filter t _); [by apply elem_of_nil in Hin|].
      cbn [length]. lia.
    - change [(-1, -1); (-1, 0); (-1, 1); (0, -1); (0, 0); (0, 1);
              (1, -1); (1, 0); (1, 1)]
        with ([(-1, -1); (-1, 0); (-1, 1); (0, -1)]
              ++ (0, 0) :: [(0, 1); (1, -1); (1, 0); (1, 1)]).
      rewrite filter_app, (filter_cons_False _ (0, 0)).
      + rewrite length_app.
        pose proof (length_filter t [(-1, -1); (-1, 0); (-1, 1); (0, -1)]).
        pose proof (length_filter t [(0, 1); (1, -1); (1, 0); (1, 1)]).
        cbn [length] in *. lia.
      + unfold t. cbn [fst snd]. rewrite Z.eqb_refl.
        rewrite !andb_true_iff. cbn [andb negb]. intros [_ ?]. discriminate. }
  split; [exact Hcount|].
  intros Hspike. apply smooth_node_blend; [exact Hi|exact Hj|exact Hout|exact Hspike|].
  apply Hcount.
Qed.

Lemma smoothing_always_blends_witness :
  0 < IL - 1 < Nxmax ∧ 0 < H + 1 < Nymax ∧ is_inside_beam (IL - 1) (H + 1) = false
  ∧ 0 < (neighbour_sum (w initial_state) (IL - 1) (H + 1)).2 ≤ 8.
Proof.
  assert (Hi : 0 < IL - 1 < Nxmax) by (unfold IL, Nxmax; lia).
  assert (Hj : 0 < H + 1 < Nymax) by (unfold H, Nymax; lia).
  split; [exact Hi|]. split; [exact Hj|]. split; [reflexivity|].
  exact (proj1 (smoothing_always_blends initial_state (IL - 1) (H + 1)
                  Hi Hj eq_refl)).
Defined.

(** ** The stagnation counters are not read under a small cap *)

Section blind.
Variables (last_w : float) (count : Z).

Lemma blind_for_range (lo hi : Z) (body : Z → state → state) :
  (∀ i s, body i (with_statics last_w count s)
          = with_statics last_w count (body i s)) →
  ∀ s, for_range lo hi body (with_statics last_w count s)
       = with_statics last_w count (for_range lo hi body s).
Proof.
  intros Hbody s. rewrite !for_range_foldl.
  generalize (seqZ lo (hi - lo + 1)). intros l. revert s.
  induction l as [|i l IH]; intros s; [reflexivity|].
  simpl. rewrite Hbody. apply IH.
Qed.

Lemma with_statics_fields (s : state) :
  u (with_statics last_w count s) = u s
  ∧ w (with_statics last_w count s) = w s
  ∧ R_target (with_statics last_w count s) = R_target s.
Proof. by repeat split. Qed.

Lemma mesh_reynolds_blind (s : state) :
  mesh_reynolds (with_statics last_w count s)
  = with_statics last_w count (mesh_reynolds s).
Proof. reflexivity. Qed.

Lemma beam_zero_blind (s : state) :
  beam_zero (with_statics last_w count s)
  = with_statics last_w count (beam_zero s).
Proof.
  unfold beam_zero. apply blind_for_range. intros i s1.
  apply blind_for_range. intros j s2. reflexivity.
Qed.

Lemma beam_walls_blind (s : state) :
  beam_walls (with_statics last_w count s)
  = with_statics last_w count (beam_walls s).
Proof.
  unfold beam_walls.
  destruct (0 <? IL), (IL + T + 1 <=? Nxmax), (H + 1 <=? Nymax); cbv zeta;
    rewrite ?blind_for_range by (intros; reflexivity); reflexivity.
Qed.

Lemma beam_corners_blind (s : state) :
  beam_corners (with_statics last_w count s)
  = with_statics last_w count (beam_corners s).
Proof.
  unfold beam_corners.
  destruct ((0 <? IL) && (H + 1 <=? Nymax)),
           ((IL + T + 1 <=? Nxmax) && (H + 1 <=? Nymax)); reflexivity.
Qed.

Lemma smooth_node_blind (ii jj : Z) (s : state) :
  smooth_node ii jj (with_statics last_w count s)
  = with_statics last_w count (smooth_node ii jj s).
Proof.
  unfold smooth_node.
  change (w (with_statics last_w count s)) with (w s).
  destruct ((0 <? ii) && (ii <? Nxmax) && (0 <? jj) && (jj <? Nymax)
            && negb (is_inside_beam ii jj)); [|reflexivity].
  destruct (2.0 <? abs (rd (w s) ii jj))%float; [|reflexivity].
  destruct (neighbour_sum (w s) ii jj) as [smooth_w n].
  destruct (0 <? n); reflexivity.
Qed.

Lemma beam_smoothing_blind (s : state) :
  beam_smoothing (with_statics last_w count s)
  = with_statics last_w count (beam_smoothing s).
Proof.
  unfold beam_smoothing.
  change (R_target (with_statics last_w count s)) with (R_target s).
  destruct (5.0 <=? R_target s)%float; [|reflexivity].
  destruct ((1 <? IL) && (H + 2 <=? Nymax)); [|reflexivity].
  apply blind_for_range. intros di s1. apply blind_for_range. intros dj s2.
  apply smooth_node_blind.
Qed.

Lemma beam_boundaries_blind (s : state) :
  beam_boundaries (with_statics last_w count s)
  = with_statics last_w count (beam_boundaries s).
Proof.
  unfold beam_boundaries.
  rewrite beam_zero_blind, beam_walls_blind, beam_corners_blind.
  apply beam_smoothing_blind.
Qed.

Lemma relax_stream_function_blind (s : state) :
  relax_stream_function (with_statics last_w count s)
  = with_statics last_w count (relax_stream_function s).
Proof.
  unfold relax_stream_function. apply blind_for_range. intros i s1.
  apply blind_for_range. intros j s2. unfold relax_stream_node.
  destruct (is_inside_beam i j); reflexivity.
Qed.

Lemma relax_vorticity_blind (s : state) :
  relax_vorticity (with_statics last_w count s)
  = with_statics last_w count (relax_vorticity s).
Proof.
  unfold relax_vorticity. apply blind_for_range. intros i s1.
  apply blind_for_range. intros j s2. unfold relax_vorticity_node.
  destruct (is_inside_beam i j); [reflexivity|].
  destruct ((i =? 1) || (i =? Nxmax - 1) || (j =? 1) || (j =? Nymax - 1));
    reflexivity.
Qed.

(** A pass computes the same fields and the same two norms whatever the
    two counters hold, and hands them on untouched. *)
Lemma iteration_blind (s : state) :
  iteration (with_statics last_w count s)
  = (with_statics last_w count (iteration s).1.1,
     (iteration s).1.2, (iteration s).2).
Proof.
  pose proof (iteration_state (with_statics last_w count s)) as H1.
  pose proof (iteration_norms (with_statics last_w count s)) as [H2 H3].
  revert H1 H2 H3.
  destruct (iteration (with_statics last_w count s)) as [[t du] dw].
  cbn [fst snd]. intros -> -> ->.
  pose proof (iteration_state s) as H1.
  pose proof (iteration_norms s) as [H2 H3].
  revert H1 H2 H3. destruct (iteration s) as [[t du] dw].
  cbn [fst snd]. intros -> -> ->.
  rewrite !beam_boundaries_blind, relax_stream_function_blind,
    relax_vorticity_blind, !beam_boundaries_blind.
  destruct (with_statics_fields (beam_boundaries s)) as (-> & -> & _).
  destruct (with_statics_fields
              (beam_boundaries
                 (relax_vorticity (relax_stream_function (beam_boundaries s)))))
    as (-> & -> & _).
  reflexivity.
Qed.

Lemma relax_loop_blind (max_iterations : Z) (effective_tol : float)
    (fuel : nat) (iter : Z) (s : state) :
  max_iterations ≤ 50000 → iter + 1 ≤ 50000 →
  relax_loop fuel max_iterations effective_tol iter
             (with_statics last_w count s)
  = exit_with_statics last_w count
      <$> relax_loop fuel max_iterations effective_tol iter s.
Proof.
  intros Hmax. revert iter s.
  induction fuel as [|fuel IH]; intros iter s Hcap; [reflexivity|].
  rewrite !relax_loop_unfold, iteration_blind.
  destruct (iteration s) as [[s1 du] dw]. cbn [fst snd]. cbv zeta.
  destruct (with_statics_fields s1) as (_ & _ & ->).
  destruct (diverging (R_target s1) du dw); [reflexivity|].
  destruct ((du <? effective_tol)%float && (dw <? effective_tol)%float);
    [reflexivity|].
  replace (50000 <? iter + 1) with false by (symmetry; apply Z.ltb_ge; lia).
  rewrite andb_false_r. cbv iota beta.
  destruct (iter + 1 <? max_iterations) eqn:Hlt; [|reflexivity].
  apply IH. apply Z.ltb_lt in Hlt. lia.
Qed.

Lemma loop_result_blind (max_iterations : Z) (effective_tol : float)
    (r : loop_exit) :
  loop_result max_iterations effective_tol (exit_with_statics last_w count r)
  = ((loop_result max_iterations effective_tol r).1,
     with_statics last_w count (loop_result max_iterations effective_tol r).2).
Proof.
  destruct r as [s|iter du dw s]; [reflexivity|].
  unfold loop_result, exit_with_statics.
  destruct (with_statics_fields s) as (_ & _ & ->).
  destruct (max_iterations <=? iter); [|reflexivity].
  destruct (5.0 <=? R_target s)%float; destruct (_ <? _)%float; reflexivity.
Qed.

Lemma relax_until_converge_blind (max_iterations : Z) (s : state)
    (r : bool * state) :
  max_iterations ≤ 50000 →
  relax_until_converge max_iterations s = Some r →
  relax_until_converge max_iterations (with_statics last_w count s)
  = Some (r.1, with_statics last_w count r.2).
Proof.
  intros Hmax. unfold relax_until_converge. cbv zeta.
  rewrite mesh_reynolds_blind.
  destruct (with_statics_fields (mesh_reynolds s)) as (_ & _ & ->).
  rewrite relax_loop_blind by lia.
  destruct (relax_loop _ _ _ _ _) as [e|]; [|discriminate].
  cbn [fmap option_fmap option_map]. intros Hr. apply (inj Some) in Hr. subst r.
  rewrite loop_result_blind. reflexivity.
Qed.

End blind.

(** X13. A call of [relax_until_converge] with an iteration cap of 50000 or
    less neither changes nor reads the two stagnation counters: it returns
    them as it found them, and with any other values in them it returns the
    same verdict and the same state, those values apart. The
    partial-convergence block is only entered from the pass numbered 50001
    on. *)
Theorem small_cap_keeps_stagnation_counters (max_iterations : Z) (s : state) :
  max_iterations ≤ 50000 →
  ∃ r, relax_until_converge max_iterations s = Some r
       ∧ last_w_error r.2 = last_w_error s
       ∧ stagnant_count r.2 = stagnant_count s
       ∧ ∀ (last_w : float) (count : Z),
           relax_until_converge max_iterations (with_statics last_w count s)
           = Some (r.1, with_statics last_w count r.2).
Proof.
  intros Hmax.
  destruct (relax_until_converge_last_pass max_iterations s)
    as (fuel' & iter' & s0 & Hreach & _ & Hloop).
  eexists. split; [exact Hloop|].
  split; [|split].
  - rewrite loop_result_state.
    destruct (loop_reaches_statics _ _ _ _ _ _ _ _ Hreach Hmax ltac:(lia))
      as (Hi & Hl & _).
    destruct (final_exit_statics
                (effective_tolerance (R_target (mesh_reynolds s))) iter' s0 Hi)
      as [-> _].
    rewrite Hl. by destruct (mesh_reynolds_fields s) as (_ & _ & -> & _).
  - rewrite loop_result_state.
    destruct (loop_reaches_statics _ _ _ _ _ _ _ _ Hreach Hmax ltac:(lia))
      as (Hi & _ & Hc).
    destruct (final_exit_statics
                (effective_tolerance (R_target (mesh_reynolds s))) iter' s0 Hi)
      as [_ ->].
    rewrite Hc. by destruct (mesh_reynolds_fields s) as (_ & _ & _ & ->).
  - intros last_w count.
    exact (relax_until_converge_blind last_w count max_iterations s _ Hmax Hloop).
Qed.

Lemma small_cap_keeps_stagnation_counters_witness :
  3 ≤ 50000
  ∧ ∃ r, relax_until_converge 3 (prepare_run 2.0 initial_state) = Some r
         ∧ last_w_error r.2 = last_w_error (prepare_run 2.0 initial_state)
         ∧ stagnant_count r.2 = stagnant_count (prepare_run 2.0 initial_state)
         ∧ ∀ (last_w : float) (count : Z),
             relax_until_converge 3
               (with_statics last_w count (prepare_run 2.0 initial_state))
             = Some (r.1, with_statics last_w count r.2).
Proof.
  assert (3 ≤ 50000) as Hle by lia.
  exact (conj Hle (small_cap_keeps_stagnation_counters 3
                     (prepare_run 2.0 initial_state) Hle)).
Defined.

(** ** Where the stagnation counters change *)

Lemma loop_next_statics_or_block (max_iterations : Z) (effective_tol : float)
    (iter iter' : Z) (s s' : state) :
  loop_next max_iterations effective_tol iter s = Some (iter', s') →
  (last_w_error s' = last_w_error s ∧ stagnant_count s' = stagnant_count s)
  ∨ enters_block effective_tol iter s = true.
Proof.
  unfold loop_next, enters_block.
  destruct (iteration_scalars s) as (_ & _ & _ & _ & Hl & Hc & _). revert Hl Hc.
  destruct (iteration s) as [[s1 du] dw]. cbv zeta. cbn [fst snd].
  intros Hl Hc.
  destruct (diverging (R_target s1) du dw); [discriminate|].
  destruct (du <? effective_tol)%float, (dw <? effective_tol)%float,
           (50000 <? iter + 1); cbn [andb negb]; try discriminate;
    try (by right);
    (destruct (iter + 1 <? max_iterations); [|discriminate];
     intros E; apply (inj Some) in E; apply pair_equal_spec in E as [_ <-];
     left; split; assumption).
Qed.

Lemma final_exit_statics_or_block (effective_tol : float) (iter : Z)
    (s : state) :
  (last_w_error (exit_state (final_exit effective_tol iter s)) = last_w_error s
   ∧ stagnant_count (exit_state (final_exit effective_tol iter s))
     = stagnant_count s)
  ∨ enters_block effective_tol iter s = true.
Proof.
  unfold final_exit, enters_block.
  destruct (iteration_scalars s) as (_ & _ & _ & _ & Hl & Hc & _). revert Hl Hc.
  destruct (iteration s) as [[s1 du] dw]. cbv zeta. cbn [fst snd].
  intros Hl Hc.
  destruct (diverging (R_target s1) du dw); [left; split; assumption|].
  destruct (du <? effective_tol)%float, (dw <? effective_tol)%float,
           (50000 <? iter + 1); cbn [andb negb exit_state fst];
    try (by right); left; split; assumption.
Qed.

Lemma loop_reaches_statics_or_block (max_iterations : Z) (effective_tol : float)
    (fuel : nat) (iter : Z) (s : state) (fuel' : nat) (iter' : Z) (s' : state) :
  loop_reaches max_iterations effective_tol fuel iter s fuel' iter' s' →
  (last_w_error s' = last_w_error s ∧ stagnant_count s' = stagnant_count s)
  ∨ ∃ fuel0 iter0 s0,
      loop_reaches max_iterations effective_tol fuel iter s (S fuel0) iter0 s0
      ∧ enters_block effective_tol iter0 s0 = true.
Proof.
  induction 1 as [|fuel iter s iter1 s1 fuel' iter' s' Hnext Hrest IH];
    [left; by split|].
  destruct (loop_next_statics_or_block _ _ _ _ _ _ Hnext) as [[Hl Hc]|Hblock].
  - destruct IH as [[-> ->]|(fuel0 & iter0 & s0 & Hreach & Hblock)].
    + left. by split.
    + right. exists fuel0, iter0, s0. split; [|exact Hblock].
      exact (reaches_next _ _ _ _ _ _ _ _ _ _ Hnext Hreach).
  - right. exists fuel, iter, s. split; [apply reaches_here|exact Hblock].
Qed.

Lemma finish_run_statics (reynolds : float) (r : bool * state) :
  last_w_error (finish_run reynolds r).2 = last_w_error r.2
  ∧ stagnant_count (finish_run reynolds r).2 = stagnant_count r.2.
Proof.
  destruct r as [[] s1]; [|by split].
  rewrite finish_run_true. cbn [snd].
  destruct (normalize_scalars s1) as (_ & _ & _ & _ & Hl & Hc & _).
  revert Hl Hc. generalize (normalize s1). intros s2 Hl Hc.
  split; [exact Hl|exact Hc].
Qed.

(** X20. Nothing resets the two [static] variables of
    [relax_until_converge] between runs: [run_simulation] enters its loop
    with the values they hold when it is called, and returns them
    unchanged unless some pass of its loop executed the partial-convergence
    block (a pass numbered above 50000 in which the stream function was
    converged and the vorticity was not). *)
Theorem statics_change_only_in_block (reynolds : float) (s : state) :
  last_w_error (mesh_reynolds (prepare_run reynolds s)) = last_w_error s
  ∧ stagnant_count (mesh_reynolds (prepare_run reynolds s)) = stagnant_count s
  ∧ ∃ r, run_simulation reynolds s = Some r
         ∧ ((last_w_error r.2 = last_w_error s
             ∧ stagnant_count r.2 = stagnant_count s)
            ∨ ∃ fuel iter s0,
                loop_reaches default_max_iterations
                  (effective_tolerance
                     (R_target (mesh_reynolds (prepare_run reynolds s))))
                  (S (Z.to_nat default_max_iterations)) 0
                  (mesh_reynolds (prepare_run reynolds s)) (S fuel) iter s0
                ∧ enters_block
                    (effective_tolerance
                       (R_target (mesh_reynolds (prepare_run reynolds s))))
                    iter s0 = true).
Proof.
  destruct (mesh_reynolds_fields (prepare_run reynolds s)) as (_ & _ & Hl1 & Hc1).
  destruct (prepare_run_scalars reynolds s) as (_ & Hl0 & Hc0 & _).
  rewrite Hl0 in Hl1. rewrite Hc0 in Hc1. clear Hl0 Hc0.
  split; [exact Hl1|]. split; [exact Hc1|].
  destruct (relax_until_converge_last_pass default_max_iterations
              (prepare_run reynolds s))
    as (fuel' & iter' & s0 & Hreach & _ & Hloop).
  eexists. unfold run_simulation. rewrite Hloop.
  split; [reflexivity|].
  destruct (finish_run_statics reynolds
              (loop_result default_max_iterations
                 (effective_tolerance
                    (R_target (mesh_reynolds (prepare_run reynolds s))))
                 (final_exit
                    (effective_tolerance
                       (R_target (mesh_reynolds (prepare_run reynolds s))))
                    iter' s0))) as [-> ->].
  rewrite loop_result_state.
  destruct (loop_reaches_statics_or_block _ _ _ _ _ _ _ _ Hreach)
    as [[Hl Hc]|Hblock]; [|right; exact Hblock].
  destruct (final_exit_statics_or_block
              (effective_tolerance
                 (R_target (mesh_reynolds (prepare_run reynolds s)))) iter' s0)
    as [[-> ->]|Hblock].
  - left. rewrite Hl, Hc. split; assumption.
  - right. exists fuel', iter', s0. split; assumption.
Qed.
